(** * The sandboxed script executor of the custom-widget service

    A shallow embedding of
    [backend/src/custom-widgets/services/script-executor.service.ts].

    The service is a thin layer of text processing and control flow around
    the JavaScript runtime (Node's [vm] module, [JSON], [String]).  The text
    processing (size limit, denylist regexps, declared-variable scan, the
    wrapper sources) is embedded as executable functions on strings; the
    runtime is an interface ([Runtime]) the service is written against.
    What is proved of [execute] is proved for every implementation of the
    interface; [RefRealm], an implementation for a fragment of JavaScript,
    runs the service on the scripts of the examples.

    Functions of other services of the backend are embedded the same way:
    the PIN authentication service, the exception filter's URL sanitiser,
    the screen services' dithering and the URL safety utility.

    A JavaScript string is a sequence of UTF-16 code units.  The model of
    the script executor carries the code units below 256 (type [ascii]);
    every character class the service tests lives there.  The PIN service
    compares the UTF-8 bytes of strings, and its model has all the code
    units. *)

From Stdlib Require Import String Ascii List ZArith NArith Lia Bool.
From Stdlib Require Import DecimalString.
From Stdlib Require DecimalPos DecimalN.
From Stdlib Require SpecFloat.
Import ListNotations.

Set Warnings "-register-all".

Open Scope string_scope.
Open Scope list_scope.

(* ------------------------------------------------------------------ *)
(** ** Characters and text helpers *)

Module Text.

Definition code (c : ascii) : N := N_of_ascii c.

Definition between (lo hi : N) (c : ascii) : bool :=
  ((lo <=? code c) && (code c <=? hi))%N.

Definition is_digit (c : ascii) : bool := between 48 57 c.
Definition is_upper (c : ascii) : bool := between 65 90 c.
Definition is_lower (c : ascii) : bool := between 97 122 c.
Definition is_letter (c : ascii) : bool := is_upper c || is_lower c.

(** The regexp class [\w]: [[A-Za-z0-9_]]. *)
Definition is_word (c : ascii) : bool :=
  is_letter c || is_digit c || (c =? "_")%char.

(** The regexp class [\s] on the code units below 256: tab, line feed,
    vertical tab, form feed, carriage return, space, no-break space. *)
Definition is_space (c : ascii) : bool :=
  between 9 13 c || (code c =? 32)%N || (code c =? 160)%N.

(** [[a-zA-Z_$]] and [[a-zA-Z0-9_$]], the classes of the declaration regexp. *)
Definition is_ident_start (c : ascii) : bool :=
  is_letter c || (c =? "_")%char || (c =? "$")%char.
Definition is_ident_part (c : ascii) : bool :=
  is_letter c || is_digit c || (c =? "_")%char || (c =? "$")%char.

Definition head (s : string) : option ascii :=
  match s with
  | EmptyString => None
  | String c _ => Some c
  end.

Fixpoint last (prev : option ascii) (s : string) : option ascii :=
  match s with
  | EmptyString => prev
  | String c s' => last (Some c) s'
  end.

(** [strip_prefix p s] is [Some r] when [s = p ++ r]. *)
Fixpoint strip_prefix (p s : string) : option string :=
  match p with
  | EmptyString => Some s
  | String c p' =>
      match s with
      | String d s' => if (c =? d)%char then strip_prefix p' s' else None
      | EmptyString => None
      end
  end.

(** [String.prototype.startsWith]. *)
Definition startsWith (s p : string) : bool :=
  match strip_prefix p s with
  | Some _ => true
  | None => false
  end.

(** [String.prototype.includes]. *)
Fixpoint includes (s p : string) : bool :=
  startsWith s p ||
  match s with
  | EmptyString => false
  | String _ s' => includes s' p
  end.

(** Decimal rendering of a number inside a template literal. *)
Definition decimal (n : N) : string := NilEmpty.string_of_uint (N.to_uint n).

Definition to_lower_char (c : ascii) : ascii :=
  if is_upper c then ascii_of_N (code c + 32) else c.

Fixpoint toLowerCase (s : string) : string :=
  match s with
  | EmptyString => EmptyString
  | String c s' => String (to_lower_char c) (toLowerCase s')
  end.

Definition length (s : string) : N := N.of_nat (String.length s).

(** The characters 10 (line feed), 34 (double quote) and 92 (backslash). *)
Definition lf : ascii := "010"%char.
Definition dquote : ascii := "034"%char.
Definition backslash : ascii := "092"%char.
Definition nl : string := String lf EmptyString.

End Text.

(* ------------------------------------------------------------------ *)
(** ** The regular expressions of the denylist

    Every pattern of [BLOCKED_PATTERNS] is a sequence of literal characters
    between two [\b] assertions; the embedding keeps that syntax and gives it
    the meaning ECMAScript gives it. *)

Module Regex.
Import Text.

Inductive atom : Type :=
| WordBoundary            (* \b *)
| Lit (c : ascii).        (* a literal character *)

Definition RegExp : Type := list atom.

(** [/\btoken\b/] *)
Definition bounded (token : string) : RegExp :=
  WordBoundary :: map Lit (list_ascii_of_string token) ++ [WordBoundary].

(** [RegExp.prototype.source] *)
Fixpoint source (re : RegExp) : string :=
  match re with
  | [] => EmptyString
  | WordBoundary :: re' => String backslash (String "b" (source re'))
  | Lit c :: re' => String c (source re')
  end.

Definition word_before (prev : option ascii) : bool :=
  match prev with
  | Some c => is_word c
  | None => false
  end.

(** [\b] holds between [prev] and the rest [s] when exactly one side is a
    word character. *)
Definition at_boundary (prev : option ascii) (s : string) : bool :=
  xorb (word_before prev) (word_before (head s)).

(** Match [re] at the current position; [prev] is the character before it. *)
Fixpoint match_here (re : RegExp) (prev : option ascii) (s : string) : bool :=
  match re with
  | [] => true
  | WordBoundary :: re' => at_boundary prev s && match_here re' prev s
  | Lit c :: re' =>
      match s with
      | String d s' => (c =? d)%char && match_here re' (Some d) s'
      | EmptyString => false
      end
  end.

Fixpoint search (re : RegExp) (prev : option ascii) (s : string) : bool :=
  match_here re prev s ||
  match s with
  | EmptyString => false
  | String c s' => search re (Some c) s'
  end.

(** [RegExp.prototype.test] for a regexp without flags. *)
Definition test (re : RegExp) (s : string) : bool := search re None s.

(** [s.replace(/\\b/g, '')]: delete every backslash followed by [b]. *)
Fixpoint remove_boundaries (s : string) : string :=
  match s with
  | EmptyString => EmptyString
  | String c s' =>
      match s' with
      | String "b" s'' =>
          if (c =? backslash)%char then remove_boundaries s''
          else String c (remove_boundaries s')
      | _ => String c (remove_boundaries s')
      end
  end.

End Regex.

(* ------------------------------------------------------------------ *)
(** ** The JavaScript runtime the service calls into *)

(** A value caught by a [catch] clause: an instance of the host's [Error]
    (the only case in which [error instanceof Error] holds), or any other
    value. *)
Inductive Thrown (V : Type) : Type :=
| HostError (message : string)
| Other (v : V).
Arguments HostError {V} message.
Arguments Other {V} v.

Inductive completion (V A : Type) : Type :=
| Normal (a : A)
| Throw (e : Thrown V).
Arguments Normal {V A} a.
Arguments Throw {V A} e.

(** What running a compiled script in a context does: it completes with a
    value, having updated the context's globals, or it throws.  An exceeded
    timeout is thrown by the runtime as a host [Error]. *)
Inductive outcome (V C : Type) : Type :=
| Completed (v : V) (ctx : C)
| Threw (e : Thrown V).
Arguments Completed {V C} v ctx.
Arguments Threw {V C} e.

Record Runtime : Type := {
  JsValue : Type;
  Context : Type;
  Script : Type;
  js_undefined : JsValue;
  js_null : JsValue;
  (** [v === undefined || v === null], the test of [??] *)
  is_nullish : JsValue -> bool;
  (** the host's [JSON.stringify] on a value: throws, or returns a string,
      or returns [undefined] *)
  JSON_stringify : JsValue -> completion JsValue (option string);
  (** the host's [String(v)] *)
  js_String : JsValue -> completion JsValue string;
  (** [vm.createContext(Object.create(null))] *)
  createContext : Context;
  (** [context[name] = v] *)
  set_global : Context -> string -> JsValue -> Context;
  (** [new vm.Script(source)] *)
  new_Script : string -> completion JsValue Script;
  (** [script.runInContext(context, { timeout })] *)
  runInContext : Script -> Context -> N -> outcome JsValue Context
}.

(** What the service does to the world besides returning: the calls into
    the [vm] module and the logger, in order. *)
Inductive Event : Type :=
| EvCreateContext
| EvCompile (source : string)
| EvRun (timeout : N)
| EvWarn (message : string).

(* ------------------------------------------------------------------ *)
(** ** The service *)

Inductive Mode : Type := ValueMode | TemplateMode.

Record ScriptResult (V : Type) : Type := mkResult {
  success : bool;
  value : option V;
  variables : option V;
  error : option string
}.
Arguments mkResult {V} success value variables error.
Arguments success {V} s.
Arguments value {V} s.
Arguments variables {V} s.
Arguments error {V} s.

Module ScriptExecutorService.
Import Text Regex.

Definition TIMEOUT_MS : N := 1000.
Definition MAX_SCRIPT_LENGTH : N := 10000.

Definition BLOCKED_PATTERNS : list RegExp :=
  [ bounded "constructor";
    bounded "__proto__";
    bounded "prototype";
    bounded "Function";
    bounded "eval";
    bounded "import";
    bounded "globalThis";
    bounded "process";
    bounded "require";
    bounded "Proxy";
    bounded "Reflect";
    bounded "Symbol";
    bounded "WeakRef";
    bounded "FinalizationRegistry" ].

Definition too_large_message (code : string) : string :=
  "Script too large: " ++ decimal (Text.length code)
    ++ " characters (max " ++ decimal MAX_SCRIPT_LENGTH ++ ")".

Definition forbidden_message (pattern : RegExp) : string :=
  "Script contains forbidden keyword: " ++ remove_boundaries (source pattern).

(** The [for] loop of [validateScript]: the first pattern that matches. *)
Fixpoint first_blocked (patterns : list RegExp) (code : string)
  : option RegExp :=
  match patterns with
  | [] => None
  | pattern :: rest =>
      if test pattern code then Some pattern else first_blocked rest code
  end.

(** ** The declared-variable scan *)

(** [span p s]: the longest prefix of [s] in class [p], and the rest. *)
Fixpoint span (p : ascii -> bool) (s : string) : string * string :=
  match s with
  | EmptyString => (EmptyString, EmptyString)
  | String c s' =>
      if p c then let (a, b) := span p s' in (String c a, b)
      else (EmptyString, s)
  end.

(** One or more [\s], then the capture group (one [[a-zA-Z_$]] and any
    number of [[a-zA-Z0-9_$]]) at the start of [s], both repetitions greedy:
    the captured name and the number of characters matched. *)
Definition spaces_then_name (s : string) : option (string * nat) :=
  let (ws, r) := span is_space s in
  match ws, r with
  | String _ _, String c r' =>
      if is_ident_start c then
        let name := String c (fst (span is_ident_part r')) in
        Some (name, String.length ws + String.length name)
      else None
  | _, _ => None
  end.

Definition keyword_then_name (kw s : string) : option (string * nat) :=
  match strip_prefix kw s with
  | Some r =>
      match spaces_then_name r with
      | Some (name, n) => Some (name, String.length kw + n)
      | None => None
      end
  | None => None
  end.

(** [varRegex] at the start of [s]: one of [var], [let], [const] (tried in
    that order), then the spaces and the captured name. *)
Definition match_declaration (s : string) : option (string * nat) :=
  match keyword_then_name "var" s with
  | Some m => Some m
  | None =>
      match keyword_then_name "let" s with
      | Some m => Some m
      | None => keyword_then_name "const" s
      end
  end.

(** The [while ((match = varRegex.exec(code)) !== null)] loop.  With the [g]
    flag each [exec] finds the leftmost match at or after [lastIndex] and
    moves [lastIndex] to its end; [skip] counts the characters still in front
    of [lastIndex].  The result lists [match[1]] of every match. *)
Fixpoint exec_all (skip : nat) (s : string) : list string :=
  match s with
  | EmptyString => []
  | String _ s' =>
      match skip with
      | S k => exec_all k s'
      | O =>
          match match_declaration s with
          | Some (name, len) => name :: exec_all (pred len) s'
          | None => exec_all O s'
          end
      end
  end.

(** [[...new Set(names)]]: first occurrences, in order. *)
Fixpoint set_values (seen names : list string) : list string :=
  match names with
  | [] => []
  | x :: rest =>
      if existsb (String.eqb x) seen then set_values seen rest
      else x :: set_values (x :: seen) rest
  end.

Definition extractVariableNames (code : string) : list string :=
  let names :=
    filter (fun m1 => negb (startsWith m1 "__")) (exec_all O code) in
  set_values [] names.

(** ** The wrapper sources *)

Definition valueWrapper (code : string) : string :=
  "(function() { " ++ code ++ " })()".

Definition collectLine (v : string) : string :=
  "if (typeof " ++ v ++ " !== 'undefined') __vars['" ++ v ++ "'] = " ++ v ++ ";".

Definition collectVarsCode (variableNames : list string) : string :=
  String.concat nl (map collectLine variableNames).

Definition templateWrapper (code collectVars : string) : string :=
  nl ++ "      (function() {" ++
  nl ++ "        var __vars = {};" ++
  nl ++ "        " ++ code ++
  nl ++ "        " ++ collectVars ++
  nl ++ "        return __vars;" ++
  nl ++ "      })()" ++
  nl ++ "    ".

(** [JSON.stringify] on a string (ECMAScript's QuoteJSONString). *)
Definition hex_digit (n : N) : ascii :=
  if (n <? 10)%N then ascii_of_N (48 + n) else ascii_of_N (87 + n).

Definition quote_char (c : ascii) : string :=
  if (c =? dquote)%char then String backslash (String dquote EmptyString)
  else if (c =? backslash)%char then String backslash (String backslash EmptyString)
  else if (code c =? 8)%N then String backslash "b"
  else if (code c =? 12)%N then String backslash "f"
  else if (code c =? 10)%N then String backslash "n"
  else if (code c =? 13)%N then String backslash "r"
  else if (code c =? 9)%N then String backslash "t"
  else if (code c <? 32)%N then
    String backslash
      (String "u" (String "0" (String "0"
        (String (hex_digit (code c / 16))
          (String (hex_digit (code c mod 16)) EmptyString)))))
  else String c EmptyString.

Fixpoint quote_chars (s : string) : string :=
  match s with
  | EmptyString => EmptyString
  | String c s' => quote_char c ++ quote_chars s'
  end.

Definition quoteJSONString (s : string) : string :=
  String dquote (quote_chars s ++ String dquote EmptyString).

(** [`var $ = JSON.parse(${JSON.stringify(dataJson)});`]; [JSON.stringify]
    of [undefined] is [undefined], which the template renders as the word. *)
Definition initSource (dataJson : option string) : string :=
  "var $ = JSON.parse(" ++
  match dataJson with
  | Some text => quoteJSONString text
  | None => "undefined"
  end ++ ");".

(** The globals [execute] overwrites with [undefined], in order. *)
Definition removed_globals : list string :=
  [ "Function"; "eval"; "constructor"; "__proto__"; "WeakRef";
    "FinalizationRegistry"; "Proxy"; "Reflect"; "Symbol" ].

Section WithRuntime.

Variable R : Runtime.

Local Abbreviation V := (JsValue R).

(** A computation of the service: how it completes and what it did. *)
Definition M (A : Type) : Type := completion V A * list Event.

Definition ret {A} (a : A) : M A := (Normal a, []).
Definition throw {A} (e : Thrown V) : M A := (Throw e, []).
Definition emit (ev : Event) : M unit := (Normal tt, [ev]).
Definition lift {A} (c : completion V A) : M A := (c, []).

Definition bind {A B} (m : M A) (k : A -> M B) : M B :=
  match m with
  | (Normal a, t) => let (r, t') := k a in (r, t ++ t')
  | (Throw e, t) => (Throw e, t)
  end.

(** [try { m } catch (error) { handler }] *)
Definition try_catch {A} (m : M A) (handler : Thrown V -> M A) : M A :=
  match m with
  | (Normal a, t) => (Normal a, t)
  | (Throw e, t) => let (r, t') := handler e in (r, t ++ t')
  end.

Notation "x <- m ;; k" := (bind m (fun x => k))
  (at level 61, m at next level, right associativity).
Notation "m ;;; k" := (bind m (fun _ => k))
  (at level 61, right associativity).

Definition validateScript (code : string) : M unit :=
  if (MAX_SCRIPT_LENGTH <? Text.length code)%N then
    throw (HostError (too_large_message code))
  else
    match first_blocked BLOCKED_PATTERNS code with
    | Some pattern => throw (HostError (forbidden_message pattern))
    | None => ret tt
    end.

(** [error instanceof Error ? error.message : String(error)] *)
Definition errorMessage (e : Thrown V) : M string :=
  match e with
  | HostError message => ret message
  | Other v => lift (js_String R v)
  end.

Definition failure (message : string) : ScriptResult V :=
  mkResult false None None (Some message).

Definition compile (source : string) : M (Script R) :=
  emit (EvCompile source) ;;; lift (new_Script R source).

Definition run (script : Script R) (context : Context R) : M (V * Context R) :=
  emit (EvRun TIMEOUT_MS) ;;;
  match runInContext R script context TIMEOUT_MS with
  | Completed v ctx => ret (v, ctx)
  | Threw e => throw e
  end.

Definition executeValueMode (context : Context R) (code : string)
  : M (ScriptResult V) :=
  let wrappedCode := valueWrapper code in
  try_catch
    (script <- compile wrappedCode ;;
     r <- run script context ;;
     ret (mkResult true (Some (fst r)) None None))
    (fun e =>
       message <- errorMessage e ;;
       ret (failure message)).

Definition executeTemplateMode (context : Context R) (code : string)
  : M (ScriptResult V) :=
  let variableNames := extractVariableNames code in
  let wrappedCode := templateWrapper code (collectVarsCode variableNames) in
  try_catch
    (script <- compile wrappedCode ;;
     r <- run script context ;;
     ret (mkResult true None (Some (fst r)) None))
    (fun e =>
       message <- errorMessage e ;;
       ret (failure message)).

(** [Object.create(null)], contextified, with the nine globals overwritten. *)
Definition scrubbed (context : Context R) : Context R :=
  fold_left (fun ctx name => set_global R ctx name (js_undefined R))
    removed_globals context.

Definition coalesce_null (data : V) : V :=
  if is_nullish R data then js_null R else data.

Definition execute (code : string) (data : V) (mode : Mode)
  : M (ScriptResult V) :=
  try_catch
    (validateScript code ;;;
     emit EvCreateContext ;;;
     let context := scrubbed (createContext R) in
     dataJson <- lift (JSON_stringify R (coalesce_null data)) ;;
     initScript <- compile (initSource dataJson) ;;
     r <- run initScript context ;;
     match mode with
     | ValueMode => executeValueMode (snd r) code
     | TemplateMode => executeTemplateMode (snd r) code
     end)
    (fun e =>
       message <- errorMessage e ;;
       emit (EvWarn ("Script execution failed: " ++ message)) ;;;
       ret (failure message)).

End WithRuntime.

End ScriptExecutorService.

(* ------------------------------------------------------------------ *)
(** ** A reference realm

    An implementation of [Runtime] for a fragment of JavaScript, to run the
    service on the concrete scripts of the witnesses and counterexamples.
    The theorems of the claims hold for every [Runtime] and do not rest on
    it.

    In the fragment numbers are the integers a double holds exactly (at
    most 2^53 - 1 in absolute value, and not the negative zero), objects
    and arrays are values, each held by one name only, functions are the
    immediately invoked parameterless function expressions the wrappers
    use, and declarations are [var] declarations in non-strict code.  The
    realm refuses what is outside the fragment: source text it does not
    read, a number out of range, a second reference to an object, a name of
    the global object it does not model, [arguments], a call of anything
    but [JSON.parse], JSON text it does not read and a run beyond its
    evaluation budget all end in the realm's own [Unsupported] error, which
    no JavaScript engine throws.  It has no clock and reports no timeout. *)

Module RefRealm.
Import Text.

(** *** Lexical analysis

    One scanner serves the script grammar and, in [strict] mode, the grammar
    of [JSON.parse]: double-quoted strings only, no raw control characters in
    strings, the JSON escapes only, JSON white space only. *)

Inductive Token : Type :=
| TIdent (name : string)
| TNum (n : N)
| TStr (quote : ascii) (s : string)
| TPunct (p : string)
| TLine.                      (* a line terminator between tokens *)

Inductive LexState : Type :=
| LStart
| LIdent (acc : string)
| LNum (acc : string)
| LOp (acc : string)
| LStr (q : ascii) (acc : string)
| LEsc (q : ascii) (acc : string)
| LUni (q : ascii) (acc : string) (digits : list N).

Definition snoc (s : string) (c : ascii) : string := s ++ String c EmptyString.

Definition hex_value (c : ascii) : option N :=
  if is_digit c then Some (code c - 48)%N
  else if between 97 102 c then Some (code c - 87)%N
  else if between 65 70 c then Some (code c - 55)%N
  else None.

Definition is_json_space (c : ascii) : bool :=
  (code c =? 32)%N || (code c =? 9)%N || (code c =? 10)%N || (code c =? 13)%N.

Definition is_line_terminator (c : ascii) : bool :=
  (code c =? 10)%N || (code c =? 13)%N.

Definition single_punct : string := "(){}[];,.:*<>".

Fixpoint mem_char (c : ascii) (s : string) : bool :=
  match s with
  | EmptyString => false
  | String d s' => (c =? d)%char || mem_char c s'
  end.

(** A number token: decimal digits without a superfluous leading zero. *)
Definition number_token (digits : string) : option Token :=
  match NilEmpty.uint_of_string digits with
  | Some d =>
      if Decimal.uint_eq_dec (Decimal.unorm d) d then Some (TNum (N.of_uint d))
      else None
  | None => None
  end.

(** The character [c] met between tokens. *)
Definition start (strict : bool) (c : ascii) : option (list Token * LexState) :=
  if negb strict && is_line_terminator c then Some ([TLine], LStart)
  else if (if strict then is_json_space c else is_space c) then Some ([], LStart)
  else if is_ident_start c then Some ([], LIdent (String c EmptyString))
  else if is_digit c then Some ([], LNum (String c EmptyString))
  else if (c =? dquote)%char then Some ([], LStr c EmptyString)
  else if (c =? "'")%char then
    if strict then None else Some ([], LStr c EmptyString)
  else if strict && (c =? "-")%char then
    (* the sign of a JSON number: its digits follow at once *)
    Some ([TPunct "-"], LNum EmptyString)
  else if (c =? "=")%char || (c =? "!")%char || (c =? "+")%char
          || (c =? "-")%char then
    Some ([], LOp (String c EmptyString))
  else if mem_char c single_punct then
    Some ([TPunct (String c EmptyString)], LStart)
  else None.

Definition emit_then_start (strict : bool) (t : option Token) (c : ascii)
  : option (list Token * LexState) :=
  match t, start strict c with
  | Some tok, Some (toks, st) => Some (tok :: toks, st)
  | _, _ => None
  end.

Definition escape (strict : bool) (c : ascii) : option ascii :=
  if (c =? "n")%char then Some "010"%char
  else if (c =? "t")%char then Some "009"%char
  else if (c =? "r")%char then Some "013"%char
  else if (c =? "b")%char then Some "008"%char
  else if (c =? "f")%char then Some "012"%char
  else if (c =? dquote)%char || (c =? backslash)%char || (c =? "/")%char
  then Some c
  else if strict then None
  else if (c =? "v")%char then Some "011"%char
  else if is_digit c || (c =? "x")%char || is_line_terminator c then None
  else Some c.

Definition step (strict : bool) (st : LexState) (c : ascii)
  : option (list Token * LexState) :=
  match st with
  | LStart => start strict c
  | LIdent acc =>
      if is_ident_part c then Some ([], LIdent (snoc acc c))
      else emit_then_start strict (Some (TIdent acc)) c
  | LNum acc =>
      if is_digit c then Some ([], LNum (snoc acc c))
      else if is_ident_part c || (c =? ".")%char then None
      else emit_then_start strict (number_token acc) c
  | LOp acc =>
      if (c =? "=")%char && (String.length acc <? 3)%nat
      then Some ([], LOp (snoc acc c))
      else if (acc =? String c EmptyString)%string
      then None                     (* [++] and [--] *)
      else emit_then_start strict (Some (TPunct acc)) c
  | LStr q acc =>
      if (c =? q)%char then Some ([TStr q acc], LStart)
      else if (c =? backslash)%char then Some ([], LEsc q acc)
      else if is_line_terminator c then None
      else if strict && (code c <? 32)%N then None
      else Some ([], LStr q (snoc acc c))
  | LEsc q acc =>
      if (c =? "u")%char then Some ([], LUni q acc [])
      else
        match escape strict c with
        | Some d => Some ([], LStr q (snoc acc d))
        | None => None
        end
  | LUni q acc digits =>
      match hex_value c with
      | Some h =>
          match digits with
          | [a; b; d] =>
              (* code units above 255 are outside the model *)
              if ((a =? 0) && (b =? 0))%N
              then Some ([], LStr q (snoc acc (ascii_of_N (d * 16 + h))))
              else None
          | _ => Some ([], LUni q acc (digits ++ [h]))
          end
      | None => None
      end
  end.

(** End of input. *)
Definition flush (st : LexState) : option (list Token) :=
  match st with
  | LStart => Some []
  | LIdent acc => Some [TIdent acc]
  | LNum acc =>
      match number_token acc with
      | Some t => Some [t]
      | None => None
      end
  | LOp acc => Some [TPunct acc]
  | LStr _ _ | LEsc _ _ | LUni _ _ _ => None
  end.

Fixpoint lex (strict : bool) (st : LexState) (s : string)
  : option (list Token) :=
  match s with
  | EmptyString => flush st
  | String c s' =>
      match step strict st c with
      | Some (toks, st') =>
          match lex strict st' s' with
          | Some rest => Some (toks ++ rest)
          | None => None
          end
      | None => None
      end
  end.

Definition tokenize (strict : bool) (s : string) : option (list Token) :=
  lex strict LStart s.

(** Line terminators matter after [return] and [throw] only: a line end
    after [return] ends the statement, one after [throw] is an error.  A
    name after a dot is a property name, not a keyword. *)
Inductive LineState : Type := Plain | AfterDot | AfterReturn | AfterThrow.

Definition line_state (st : LineState) (t : Token) : LineState :=
  match t with
  | TPunct "." => AfterDot
  | TIdent "return" => match st with AfterDot => Plain | _ => AfterReturn end
  | TIdent "throw" => match st with AfterDot => Plain | _ => AfterThrow end
  | _ => Plain
  end.

Fixpoint drop_lines (st : LineState) (ts : list Token) : option (list Token) :=
  match ts with
  | [] => Some []
  | TLine :: rest =>
      match st with
      | AfterReturn => option_map (cons (TPunct ";")) (drop_lines Plain rest)
      | AfterThrow => None
      | _ => drop_lines st rest
      end
  | t :: rest => option_map (cons t) (drop_lines (line_state st t) rest)
  end.

(** *** Syntax *)

Inductive BinOp : Type := StrictEq | StrictNe | Less | Add | Sub | Mul.

Inductive Expr : Type :=
| ENum (n : N)
| EStr (s : string)
| ENull
| EBool (b : bool)
| EVar (x : string)
| EObject                                 (* {} *)
| ETypeof (e : Expr)
| ENeg (e : Expr)
| ENot (e : Expr)
| EBin (op : BinOp) (a b : Expr)
| EMember (obj key : Expr)                (* obj[key], obj.name *)
| EAssign (target e : Expr)
| ECall (callee : Expr) (args : list Expr)
| EFunction (body : list Stmt)            (* function() { body } *)
with Stmt : Type :=
| SVar (x : string) (init : option Expr)
| SExpr (e : Expr)
| SReturn (e : option Expr)
| SThrow (e : Expr)
| SIf (c : Expr) (th : Stmt) (el : option Stmt)
| SWhile (c : Expr) (body : Stmt)
| SBlock (body : list Stmt).

Definition reserved : list string :=
  [ "async"; "await"; "break"; "case"; "catch"; "class"; "const"; "continue";
    "debugger"; "default"; "delete"; "do"; "else"; "enum"; "export";
    "extends"; "false"; "finally"; "for"; "function"; "if"; "import"; "in";
    "instanceof"; "let"; "new"; "null"; "return"; "static"; "super";
    "switch"; "this"; "throw"; "true"; "try"; "typeof"; "var"; "void";
    "while"; "with"; "yield" ].

Definition is_reserved (x : string) : bool := existsb (String.eqb x) reserved.

Definition binop (p : string) : option (BinOp * nat) :=
  if (p =? "===")%string then Some (StrictEq, 1)
  else if (p =? "!==")%string then Some (StrictNe, 1)
  else if (p =? "<")%string then Some (Less, 2)
  else if (p =? "+")%string then Some (Add, 3)
  else if (p =? "-")%string then Some (Sub, 3)
  else if (p =? "*")%string then Some (Mul, 4)
  else None.

Definition is_target (e : Expr) : bool :=
  match e with
  | EVar _ | EMember _ _ => true
  | _ => false
  end.

(** A statement ends at a semicolon, before a closing brace, or at the end
    of the source. *)
Definition end_stmt (ts : list Token) : option (list Token) :=
  match ts with
  | TPunct ";" :: rest => Some rest
  | TPunct "}" :: _ => Some ts
  | [] => Some []
  | _ => None
  end.

Definition expect (p : string) (ts : list Token) : option (list Token) :=
  match ts with
  | TPunct q :: rest => if (p =? q)%string then Some rest else None
  | _ => None
  end.

Notation "'do' x <- m ; k" :=
  (match m with Some x => k | None => None end)
  (at level 10, x pattern, m at level 100, k at level 200).

(** Recursive descent; [fuel] bounds the nesting of calls. *)
Fixpoint parse_expr (fuel : nat) (ts : list Token) : option (Expr * list Token) :=
  match fuel with
  | O => None
  | S f =>
      do (lhs, rest) <- parse_binary f 0 ts;
      match rest with
      | TPunct "=" :: rest' =>
          if is_target lhs then
            do (rhs, rest'') <- parse_expr f rest';
            Some (EAssign lhs rhs, rest'')
          else None
      | _ => Some (lhs, rest)
      end
  end
with parse_binary (fuel : nat) (min : nat) (ts : list Token)
  : option (Expr * list Token) :=
  match fuel with
  | O => None
  | S f =>
      do (lhs, rest) <- parse_unary f ts;
      binary_loop f min lhs rest
  end
with binary_loop (fuel : nat) (min : nat) (lhs : Expr) (ts : list Token)
  : option (Expr * list Token) :=
  match fuel with
  | O => None
  | S f =>
      match ts with
      | TPunct p :: rest =>
          match binop p with
          | Some (op, prec) =>
              if (min <=? prec)%nat then
                do (rhs, rest') <- parse_binary f (S prec) rest;
                binary_loop f min (EBin op lhs rhs) rest'
              else Some (lhs, ts)
          | None => Some (lhs, ts)
          end
      | _ => Some (lhs, ts)
      end
  end
with parse_unary (fuel : nat) (ts : list Token) : option (Expr * list Token) :=
  match fuel with
  | O => None
  | S f =>
      match ts with
      | TIdent "typeof" :: rest =>
          do (e, rest') <- parse_unary f rest; Some (ETypeof e, rest')
      | TPunct "-" :: rest =>
          do (e, rest') <- parse_unary f rest; Some (ENeg e, rest')
      | TPunct "!" :: rest =>
          do (e, rest') <- parse_unary f rest; Some (ENot e, rest')
      | _ =>
          do (e, rest) <- parse_primary f ts;
          parse_postfix f e rest
      end
  end
with parse_postfix (fuel : nat) (e : Expr) (ts : list Token)
  : option (Expr * list Token) :=
  match fuel with
  | O => None
  | S f =>
      match ts with
      | TPunct "." :: TIdent name :: rest =>
          parse_postfix f (EMember e (EStr name)) rest
      | TPunct "[" :: rest =>
          do (k, rest') <- parse_expr f rest;
          do rest'' <- expect "]" rest';
          parse_postfix f (EMember e k) rest''
      | TPunct "(" :: rest =>
          do (args, rest') <- parse_args f rest;
          parse_postfix f (ECall e args) rest'
      | _ => Some (e, ts)
      end
  end
with parse_args (fuel : nat) (ts : list Token)
  : option (list Expr * list Token) :=
  match fuel with
  | O => None
  | S f =>
      match ts with
      | TPunct ")" :: rest => Some ([], rest)
      | _ =>
          do (e, rest) <- parse_expr f ts;
          match rest with
          | TPunct "," :: rest' =>
              do (args, rest'') <- parse_args f rest';
              Some (e :: args, rest'')
          | TPunct ")" :: rest' => Some ([e], rest')
          | _ => None
          end
      end
  end
with parse_primary (fuel : nat) (ts : list Token)
  : option (Expr * list Token) :=
  match fuel with
  | O => None
  | S f =>
      match ts with
      | TNum n :: rest => Some (ENum n, rest)
      | TStr _ s :: rest => Some (EStr s, rest)
      | TIdent "null" :: rest => Some (ENull, rest)
      | TIdent "true" :: rest => Some (EBool true, rest)
      | TIdent "false" :: rest => Some (EBool false, rest)
      | TIdent "function" :: TPunct "(" :: TPunct ")" :: TPunct "{" :: rest =>
          do (body, rest') <- parse_stmts f true rest;
          do rest'' <- expect "}" rest';
          Some (EFunction body, rest'')
      | TIdent x :: rest =>
          if is_reserved x then None else Some (EVar x, rest)
      | TPunct "(" :: rest =>
          do (e, rest') <- parse_expr f rest;
          do rest'' <- expect ")" rest';
          Some (e, rest'')
      | TPunct "{" :: TPunct "}" :: rest => Some (EObject, rest)
      | _ => None
      end
  end
with parse_stmt (fuel : nat) (in_function : bool) (ts : list Token)
  : option (Stmt * list Token) :=
  match fuel with
  | O => None
  | S f =>
      match ts with
      | TPunct ";" :: rest => Some (SBlock [], rest)
      | TPunct "{" :: rest =>
          do (body, rest') <- parse_stmts f in_function rest;
          do rest'' <- expect "}" rest';
          Some (SBlock body, rest'')
      | TIdent "var" :: TIdent x :: rest =>
          if is_reserved x then None
          else
            match rest with
            | TPunct "=" :: rest' =>
                do (e, rest'') <- parse_expr f rest';
                do rest''' <- end_stmt rest'';
                Some (SVar x (Some e), rest''')
            | _ =>
                do rest' <- end_stmt rest;
                Some (SVar x None, rest')
            end
      | TIdent "return" :: rest =>
          if in_function then
            match rest with
            | TPunct ";" :: _ | TPunct "}" :: _ | [] =>
                do rest' <- end_stmt rest;
                Some (SReturn None, rest')
            | _ =>
                do (e, rest') <- parse_expr f rest;
                do rest'' <- end_stmt rest';
                Some (SReturn (Some e), rest'')
            end
          else None
      | TIdent "throw" :: rest =>
          do (e, rest') <- parse_expr f rest;
          do rest'' <- end_stmt rest';
          Some (SThrow e, rest'')
      | TIdent "if" :: TPunct "(" :: rest =>
          do (c, rest') <- parse_expr f rest;
          do rest'' <- expect ")" rest';
          do (th, rest''') <- parse_stmt f in_function rest'';
          match rest''' with
          | TIdent "else" :: rest4 =>
              do (el, rest5) <- parse_stmt f in_function rest4;
              Some (SIf c th (Some el), rest5)
          | _ => Some (SIf c th None, rest''')
          end
      | TIdent "while" :: TPunct "(" :: rest =>
          do (c, rest') <- parse_expr f rest;
          do rest'' <- expect ")" rest';
          do (body, rest''') <- parse_stmt f in_function rest'';
          Some (SWhile c body, rest''')
      | TIdent "function" :: _ => None
      | _ =>
          do (e, rest) <- parse_expr f ts;
          do rest' <- end_stmt rest;
          Some (SExpr e, rest')
      end
  end
with parse_stmts (fuel : nat) (in_function : bool) (ts : list Token)
  : option (list Stmt * list Token) :=
  match fuel with
  | O => None
  | S f =>
      match ts with
      | [] => Some ([], [])
      | TPunct "}" :: _ => Some ([], ts)
      | _ =>
          do (s, rest) <- parse_stmt f in_function ts;
          do (ss, rest') <- parse_stmts f in_function rest;
          Some (s :: ss, rest')
      end
  end.

Definition parse_program (source : string) : option (list Stmt) :=
  do toks <- tokenize false source;
  do ts <- drop_lines Plain toks;
  do (body, rest) <- parse_stmts (8 * List.length ts + 8) false ts;
  match rest with
  | [] => Some body
  | _ => None
  end.

(** *** Values *)

Inductive Val : Type :=
| VUndefined
| VNull
| VBool (b : bool)
| VNumber (z : Z)
| VString (s : string)
| VArray (items : list Val)
| VObject (props : list (string * Val))   (* own properties, in order *)
| VError (name message : string)          (* an error object of the realm *)
| VBuiltin (name : string).               (* [JSON], [JSON.parse] *)

Definition Props : Type := list (string * Val).

(** The integers a double holds exactly. *)
Definition safe (z : Z) : bool := (Z.abs z <=? 9007199254740991)%Z.

(** A property key that is an integer in canonical form: such keys come
    first among the properties of an object, in ascending order. *)
Definition is_index (k : string) : bool :=
  match number_token k with
  | Some _ => true
  | None => false
  end.

Fixpoint get_prop (o : Props) (k : string) : option Val :=
  match o with
  | [] => None
  | (k', v) :: rest => if (k =? k')%string then Some v else get_prop rest k
  end.

Fixpoint set_prop (o : Props) (k : string) (v : Val) : Props :=
  match o with
  | [] => [(k, v)]
  | (k', v') :: rest =>
      if (k =? k')%string then (k, v) :: rest
      else (k', v') :: set_prop rest k v
  end.

Definition number_text (z : Z) : string :=
  if (z <? 0)%Z then "-" ++ decimal (Z.abs_N z) else decimal (Z.abs_N z).

Definition join (sep : string) (parts : list string) : string :=
  String.concat sep parts.

(** [JSON.stringify]: [None] is [undefined]. *)
Fixpoint JSON_text (v : Val) : option string :=
  match v with
  | VUndefined | VBuiltin _ => None
  | VNull => Some "null"
  | VBool b => Some (if b then "true" else "false")
  | VNumber z => Some (number_text z)
  | VString s => Some (ScriptExecutorService.quoteJSONString s)
  | VArray items =>
      Some ("[" ++
            join "," (map (fun x => match JSON_text x with
                                    | Some t => t
                                    | None => "null"
                                    end) items)
            ++ "]")%string
  | VObject props =>
      Some ("{" ++
            join "," (flat_map
                        (fun kv =>
                           match JSON_text (snd kv) with
                           | Some t =>
                               [(ScriptExecutorService.quoteJSONString (fst kv)
                                   ++ ":" ++ t)%string]
                           | None => []
                           end) props)
            ++ "}")%string
  | VError _ _ => Some "{}"
  end.

(** [String(v)] *)
Fixpoint to_string (v : Val) : string :=
  match v with
  | VUndefined => "undefined"
  | VNull => "null"
  | VBool b => if b then "true" else "false"
  | VNumber z => number_text z
  | VString s => s
  | VArray items =>
      join "," (map (fun x => match x with
                              | VUndefined | VNull => EmptyString
                              | _ => to_string x
                              end) items)
  | VObject _ => "[object Object]"
  | VError name message =>
      if (message =? "")%string then name else name ++ ": " ++ message
  | VBuiltin "JSON" => "[object JSON]"
  | VBuiltin _ => "function parse() { [native code] }"
  end.

Definition typeof (v : Val) : string :=
  match v with
  | VUndefined => "undefined"
  | VBool _ => "boolean"
  | VNumber _ => "number"
  | VString _ => "string"
  | VBuiltin name => if (name =? "JSON")%string then "object" else "function"
  | VNull | VArray _ | VObject _ | VError _ _ => "object"
  end.

Definition to_boolean (v : Val) : bool :=
  match v with
  | VUndefined | VNull => false
  | VBool b => b
  | VNumber z => negb (z =? 0)%Z
  | VString s => negb (s =? "")%string
  | _ => true
  end.

(** *** [JSON.parse]

    [None] for a text that is not JSON and for JSON outside the fragment:
    a number with a fraction, an exponent or too many digits, the negative
    zero, a code unit above 255, a key that is an integer. *)

Fixpoint json_value (fuel : nat) (ts : list Token) : option (Val * list Token) :=
  match fuel with
  | O => None
  | S f =>
      match ts with
      | TIdent "null" :: rest => Some (VNull, rest)
      | TIdent "true" :: rest => Some (VBool true, rest)
      | TIdent "false" :: rest => Some (VBool false, rest)
      | TNum n :: rest =>
          if safe (Z.of_N n) then Some (VNumber (Z.of_N n), rest) else None
      | TPunct "-" :: TNum n :: rest =>
          if safe (Z.of_N n) && negb (n =? 0)%N
          then Some (VNumber (- Z.of_N n), rest)
          else None
      | TStr _ s :: rest => Some (VString s, rest)
      | TPunct "[" :: TPunct "]" :: rest => Some (VArray [], rest)
      | TPunct "[" :: rest =>
          do (items, rest') <- json_elements f rest;
          Some (VArray items, rest')
      | TPunct "{" :: TPunct "}" :: rest => Some (VObject [], rest)
      | TPunct "{" :: rest =>
          do (members, rest') <- json_members f rest;
          Some (VObject (fold_left (fun o kv => set_prop o (fst kv) (snd kv))
                           members []), rest')
      | _ => None
      end
  end
with json_elements (fuel : nat) (ts : list Token)
  : option (list Val * list Token) :=
  match fuel with
  | O => None
  | S f =>
      do (v, rest) <- json_value f ts;
      match rest with
      | TPunct "," :: rest' =>
          do (vs, rest'') <- json_elements f rest';
          Some (v :: vs, rest'')
      | TPunct "]" :: rest' => Some ([v], rest')
      | _ => None
      end
  end
with json_members (fuel : nat) (ts : list Token)
  : option (Props * list Token) :=
  match fuel with
  | O => None
  | S f =>
      match ts with
      | TStr _ k :: TPunct ":" :: rest =>
          if is_index k then None else
          do (v, rest') <- json_value f rest;
          match rest' with
          | TPunct "," :: rest'' =>
              do (ms, rest''') <- json_members f rest'';
              Some ((k, v) :: ms, rest''')
          | TPunct "}" :: rest'' => Some ([(k, v)], rest'')
          | _ => None
          end
      | _ => None
      end
  end.

Definition JSON_parse (text : string) : option Val :=
  do ts <- tokenize true text;
  do (v, rest) <- json_value (S (List.length ts)) ts;
  match rest with
  | [] => Some v
  | _ => None
  end.

(** *** Evaluation *)

Record Env : Type := mkEnv {
  frames : list Props;     (* the variables of the enclosing function calls *)
  globals : Props          (* the properties of the context object *)
}.

Inductive Res (A : Type) : Type :=
| Done (a : A)
| Raised (v : Val)
| OutOfBudget.
Arguments Done {A} a.
Arguments Raised {A} v.
Arguments OutOfBudget {A}.

Inductive Flow : Type :=
| Next (v : option Val)      (* normal completion, with its value if any *)
| Returned (v : Val).

Notation "'given' x <- m ; k" :=
  (match m with
   | Done x => k
   | Raised thrown => Raised thrown
   | OutOfBudget => OutOfBudget
   end)
  (at level 10, x pattern, m at level 100, k at level 200).

Definition unsupported {A} (what : string) : Res A :=
  Raised (VError "Unsupported" what).
Definition type_error {A} (message : string) : Res A :=
  Raised (VError "TypeError" message).
Definition reference_error {A} (x : string) : Res A :=
  Raised (VError "ReferenceError" (x ++ " is not defined")).

Definition number (z : Z) : Res Val :=
  if safe z then Done (VNumber z)
  else unsupported "number outside the safe integers".

(** The product and the negation of integers, unless it is the negative
    zero. *)
Definition product (x y : Z) : Res Val :=
  if ((x * y =? 0) && ((x <? 0) || (y <? 0)))%Z
  then unsupported "negative zero"
  else number (x * y).

Definition negation (z : Z) : Res Val :=
  if (z =? 0)%Z then unsupported "negative zero" else number (- z).

(** Globals of a fresh context and properties every object, the global
    object too, inherits that the fragment does not model: touching one is
    unsupported. *)
Definition unmodelled_globals : list string :=
  [ "Object"; "Function"; "Array"; "Number"; "parseFloat"; "parseInt";
    "Infinity"; "NaN"; "Boolean"; "String"; "Symbol"; "Date"; "Promise";
    "RegExp"; "Error"; "AggregateError"; "EvalError"; "RangeError";
    "ReferenceError"; "SyntaxError"; "TypeError"; "URIError"; "globalThis";
    "ArrayBuffer"; "Uint8Array"; "Int8Array"; "Uint16Array"; "Int16Array";
    "Uint32Array"; "Int32Array"; "Float32Array"; "Float64Array";
    "Uint8ClampedArray"; "BigUint64Array"; "BigInt64Array"; "DataView";
    "Map"; "BigInt"; "Set"; "WeakMap"; "WeakSet"; "WeakRef"; "Proxy";
    "Reflect"; "FinalizationRegistry"; "decodeURI"; "decodeURIComponent";
    "encodeURI"; "encodeURIComponent"; "escape"; "unescape"; "eval";
    "isFinite"; "isNaN"; "Math"; "Intl"; "Atomics"; "SharedArrayBuffer";
    "WebAssembly"; "Iterator"; "Float16Array"; "console" ].

Definition object_prototype_names : list string :=
  [ "constructor"; "__proto__"; "hasOwnProperty"; "isPrototypeOf";
    "propertyIsEnumerable"; "toLocaleString"; "toString"; "valueOf";
    "__defineGetter__"; "__defineSetter__"; "__lookupGetter__";
    "__lookupSetter__" ].

Definition mem (x : string) (l : list string) : bool :=
  existsb (String.eqb x) l.

Fixpoint lookup_frames (fs : list Props) (x : string) : option Val :=
  match fs with
  | [] => None
  | fr :: rest =>
      match get_prop fr x with
      | Some v => Some v
      | None => lookup_frames rest x
      end
  end.

Definition builtin (x : string) : option Val :=
  if (x =? "undefined")%string then Some VUndefined
  else if (x =? "JSON")%string then Some (VBuiltin "JSON")
  else None.

(** Resolve [x]: the call frames innermost first, the context object, the
    realm's own globals. *)
Definition lookup (env : Env) (x : string) : option Val :=
  match lookup_frames (frames env) x with
  | Some v => Some v
  | None =>
      match get_prop (globals env) x with
      | Some v => Some v
      | None => builtin x
      end
  end.

Definition unmodelled (x : string) : bool :=
  mem x unmodelled_globals || mem x object_prototype_names.

(** A name that resolves to a property of the global object which the
    fragment does not model. *)
Definition unwritable (env : Env) (x : string) : bool :=
  match lookup_frames (frames env) x with
  | Some _ => false
  | None =>
      match get_prop (globals env) x with
      | Some _ => false
      | None => unmodelled x
      end
  end.

Definition read_var (env : Env) (x : string) : Res Val :=
  if (x =? "arguments")%string then unsupported x
  else
    match lookup env x with
    | Some v => Done v
    | None => if unmodelled x then unsupported x else reference_error x
    end.

(** [typeof x] does not throw on an unresolvable name. *)
Definition typeof_var (env : Env) (x : string) : Res string :=
  if (x =? "arguments")%string then unsupported x
  else
    match lookup env x with
    | Some v => Done (typeof v)
    | None => if unmodelled x then unsupported x else Done "undefined"
    end.

Fixpoint assign_frames (fs : list Props) (x : string) (v : Val)
  : option (list Props) :=
  match fs with
  | [] => None
  | fr :: rest =>
      match get_prop fr x with
      | Some _ => Some (set_prop fr x v :: rest)
      | None => option_map (cons fr) (assign_frames rest x v)
      end
  end.

(** [x = v]; an unresolvable name becomes a global, and the global
    [undefined] is not writable. *)
Definition assign (env : Env) (x : string) (v : Val) : Env :=
  match assign_frames (frames env) x v with
  | Some fs => mkEnv fs (globals env)
  | None =>
      if (x =? "undefined")%string then env
      else mkEnv (frames env) (set_prop (globals env) x v)
  end.

Definition get_member (base key : Val) : Res Val :=
  let k := to_string key in
  match base with
  | VUndefined | VNull =>
      type_error ("Cannot read properties of " ++ to_string base
                    ++ " (reading '" ++ k ++ "')")
  | VObject props =>
      match get_prop props k with
      | Some v => Done v
      | None =>
          if mem k object_prototype_names then unsupported k
          else Done VUndefined
      end
  | VArray items =>
      if (k =? "length")%string
      then Done (VNumber (Z.of_nat (List.length items)))
      else
        match key with
        | VNumber z =>
            if (0 <=? z)%Z then Done (nth (Z.to_nat z) items VUndefined)
            else unsupported k
        | _ => unsupported k
        end
  | VBuiltin "JSON" =>
      if (k =? "parse")%string then Done (VBuiltin "JSON.parse")
      else unsupported k
  | _ => unsupported k
  end.

Definition is_object (v : Val) : bool :=
  match v with
  | VArray _ | VObject _ | VError _ _ | VBuiltin _ => true
  | _ => false
  end.

Definition strict_equal (a b : Val) : Res bool :=
  match a, b with
  | VUndefined, VUndefined | VNull, VNull => Done true
  | VBool x, VBool y => Done (Bool.eqb x y)
  | VNumber x, VNumber y => Done (x =? y)%Z
  | VString x, VString y => Done (x =? y)%string
  | _, _ =>
      if is_object a && is_object b then unsupported "object identity"
      else Done false
  end.

Definition is_primitive_text (v : Val) : bool :=
  match v with
  | VUndefined | VNull | VBool _ | VNumber _ | VString _ => true
  | _ => false
  end.

Definition binary (op : BinOp) (a b : Val) : Res Val :=
  match op, a, b with
  | StrictEq, _, _ => given r <- strict_equal a b; Done (VBool r)
  | StrictNe, _, _ => given r <- strict_equal a b; Done (VBool (negb r))
  | Add, VNumber x, VNumber y => number (x + y)
  | Sub, VNumber x, VNumber y => number (x - y)
  | Mul, VNumber x, VNumber y => product x y
  | Less, VNumber x, VNumber y => Done (VBool (x <? y)%Z)
  | Less, VString x, VString y => Done (VBool (x <? y)%string)
  | Add, VString x, _ =>
      if is_primitive_text b then Done (VString (x ++ to_string b))
      else unsupported "addition"
  | Add, _, VString y =>
      if is_primitive_text a then Done (VString (to_string a ++ y))
      else unsupported "addition"
  | _, _, _ => unsupported "arithmetic outside the integers"
  end.

(** An expression whose value is an object no name holds yet. *)
Definition fresh (e : Expr) : bool :=
  match e with
  | EObject => true
  | ECall (EMember (EVar "JSON") (EStr "parse")) _ => true
  | _ => false
  end.

(** The value [v] of [e] may be stored: it is not an object, or no name
    holds it yet. *)
Definition storable (e : Expr) (v : Val) : bool :=
  negb (is_object v) || fresh e.

(** A function body that starts with a directive may be strict code. *)
Definition has_directive (body : list Stmt) : bool :=
  match body with
  | SExpr (EStr _) :: _ => true
  | _ => false
  end.

(** An expression without assignments and calls: evaluating it changes
    nothing. *)
Fixpoint simple (e : Expr) : bool :=
  match e with
  | ENum _ | EStr _ | ENull | EBool _ | EVar _ | EObject => true
  | ETypeof a | ENeg a | ENot a => simple a
  | EBin _ a b | EMember a b => simple a && simple b
  | EAssign _ _ | ECall _ _ | EFunction _ => false
  end.

(** The names a function body declares with [var], hoisted to its start. *)
Fixpoint declared (s : Stmt) : list string :=
  match s with
  | SVar x _ => [x]
  | SIf _ th el =>
      declared th ++ match el with Some e => declared e | None => [] end
  | SWhile _ body => declared body
  | SBlock body => flat_map declared body
  | _ => []
  end.

Definition hoisted (body : list Stmt) : list string := flat_map declared body.

Fixpoint eval_list (ev : Env -> Expr -> Res (Val * Env)) (env : Env)
  (es : list Expr) : Res (list Val * Env) :=
  match es with
  | [] => Done ([], env)
  | e :: rest =>
      given (v, env1) <- ev env e;
      given (vs, env2) <- eval_list ev env1 rest;
      Done (v :: vs, env2)
  end.

(** The completion value of a statement, from the value its parts leave:
    an [if] and a [while] that leave none complete with [undefined]. *)
Definition completion (s : Stmt) (v : option Val) : option Val :=
  match s, v with
  | SIf _ _ _, None | SWhile _ _, None => Some VUndefined
  | _, _ => v
  end.

Fixpoint run_list (ex : Env -> Stmt -> Res (Flow * Env)) (env : Env)
  (ss : list Stmt) (last : option Val) : Res (Flow * Env) :=
  match ss with
  | [] => Done (Next last, env)
  | s :: rest =>
      given (flow, env1) <- ex env s;
      match flow with
      | Next v =>
          run_list ex env1 rest
            (match completion s v with
             | Some w => Some w
             | None => last
             end)
      | Returned v => Done (Returned v, env1)
      end
  end.

Fixpoint eval (fuel : nat) (env : Env) (e : Expr) {struct fuel}
  : Res (Val * Env) :=
  match fuel with
  | O => OutOfBudget
  | S f =>
      match e with
      | ENum n => given v <- number (Z.of_N n); Done (v, env)
      | EStr s => Done (VString s, env)
      | ENull => Done (VNull, env)
      | EBool b => Done (VBool b, env)
      | EObject => Done (VObject [], env)
      | EVar x => given v <- read_var env x; Done (v, env)
      | ETypeof (EVar x) => given t <- typeof_var env x; Done (VString t, env)
      | ETypeof a => given (v, env1) <- eval f env a; Done (VString (typeof v), env1)
      | ENeg a =>
          given (v, env1) <- eval f env a;
          match v with
          | VNumber z => given w <- negation z; Done (w, env1)
          | _ => unsupported "arithmetic outside the integers"
          end
      | ENot a => given (v, env1) <- eval f env a; Done (VBool (negb (to_boolean v)), env1)
      | EBin op a b =>
          given (x, env1) <- eval f env a;
          given (y, env2) <- eval f env1 b;
          given v <- binary op x y;
          Done (v, env2)
      | EMember o k =>
          given (base, env1) <- eval f env o;
          given (key, env2) <- eval f env1 k;
          given v <- get_member base key;
          Done (v, env2)
      | EAssign (EVar x) rhs =>
          given (v, env1) <- eval f env rhs;
          if (x =? "arguments")%string || unwritable env1 x
          then unsupported x
          else if storable rhs v then Done (v, assign env1 x v)
          else unsupported "a second reference to an object"
      | EAssign (EMember (EVar x) k) rhs =>
          if simple k && simple rhs then
            given base <- read_var env x;
            given (key, env1) <- eval f env k;
            given (v, env2) <- eval f env1 rhs;
            match base with
            | VObject props =>
                if is_index (to_string key)
                   || (to_string key =? "__proto__")%string
                then unsupported (to_string key)
                else if storable rhs v
                then Done (v, assign env2 x
                                (VObject (set_prop props (to_string key) v)))
                else unsupported "a second reference to an object"
            | VUndefined | VNull =>
                type_error ("Cannot set properties of " ++ to_string base
                              ++ " (setting '" ++ to_string key ++ "')")
            | _ => unsupported "assignment to a member"
            end
          else unsupported "assignment to a member"
      | EAssign _ _ => unsupported "assignment target"
      | ECall (EFunction body) args =>
          if mem "arguments" (hoisted body) then unsupported "arguments"
          else if has_directive body then unsupported "directive"
          else
          given (_, env1) <- eval_list (eval f) env args;
          let frame := map (fun x => (x, VUndefined)) (hoisted body) in
          given (flow, env2) <-
            run_list (exec f) (mkEnv (frame :: frames env1) (globals env1))
              body None;
          Done (match flow with
                | Returned v => v
                | Next _ => VUndefined
                end,
                mkEnv (tl (frames env2)) (globals env2))
      | ECall callee args =>
          given (c, env1) <- eval f env callee;
          given (vs, env2) <- eval_list (eval f) env1 args;
          match c with
          | VBuiltin "JSON.parse" =>
              match JSON_parse (to_string (hd VUndefined vs)) with
              | Some v => Done (v, env2)
              | None => unsupported "JSON text"
              end
          | _ => unsupported "call"
          end
      | EFunction _ => unsupported "function value"
      end
  end
with exec (fuel : nat) (env : Env) (s : Stmt) {struct fuel}
  : Res (Flow * Env) :=
  match fuel with
  | O => OutOfBudget
  | S f =>
      match s with
      | SVar x None => Done (Next None, env)
      | SVar x (Some e) =>
          given (v, env1) <- eval f env e;
          if (x =? "arguments")%string || unwritable env1 x
          then unsupported x
          else if storable e v then Done (Next None, assign env1 x v)
          else unsupported "a second reference to an object"
      | SExpr e => given (v, env1) <- eval f env e; Done (Next (Some v), env1)
      | SReturn None => Done (Returned VUndefined, env)
      | SReturn (Some e) => given (v, env1) <- eval f env e; Done (Returned v, env1)
      | SThrow e => given (v, env1) <- eval f env e; Raised v
      | SIf c th el =>
          given (cv, env1) <- eval f env c;
          if to_boolean cv then
            given (flow, env2) <- exec f env1 th;
            Done (match flow with
                  | Next v => Next (completion th v)
                  | Returned v => Returned v
                  end, env2)
          else
            match el with
            | Some s' =>
                given (flow, env2) <- exec f env1 s';
                Done (match flow with
                      | Next v => Next (completion s' v)
                      | Returned v => Returned v
                      end, env2)
            | None => Done (Next None, env1)
            end
      | SWhile c body =>
          given (cv, env1) <- eval f env c;
          if to_boolean cv then
            given (flow, env2) <- exec f env1 body;
            match flow with
            | Returned v => Done (Returned v, env2)
            | Next v =>
                given (later, env3) <- exec f env2 (SWhile c body);
                Done (match later with
                      | Next None => Next (completion body v)
                      | _ => later
                      end, env3)
            end
          else Done (Next None, env1)
      | SBlock body => run_list (exec f) env body None
      end
  end.

(** Run a script in a context: its [var] declarations become properties of
    the context object, unless the global object has the name already; the
    result is the completion value of its statements. *)
Definition run_program (budget : nat) (context : Props) (body : list Stmt)
  : Res (Val * Props) :=
  if existsb (fun x => (x =? "arguments")%string
                       || unwritable (mkEnv [] context) x) (hoisted body)
  then unsupported "declaration of a name of the global object"
  else
    let context1 :=
      fold_left (fun g x => match get_prop g x, builtin x with
                            | None, None => set_prop g x VUndefined
                            | _, _ => g
                            end) (hoisted body) context in
    given (flow, env) <- run_list (exec budget) (mkEnv [] context1) body None;
    Done (match flow with
          | Next (Some v) | Returned v => v
          | Next None => VUndefined
          end, globals env).

(** The host's values that are in the fragment: numbers in range, keys
    distinct and none an integer, nothing built in. *)
Fixpoint in_fragment (v : Val) : bool :=
  match v with
  | VNumber z => safe z
  | VArray items => forallb in_fragment items
  | VObject props =>
      forallb (fun kv => negb (is_index (fst kv)) && in_fragment (snd kv)) props
      && forallb (fun k =>
                    (List.length (filter (String.eqb k) (map fst props)) =? 1)%nat)
           (map fst props)
  | VBuiltin _ => false
  | _ => true
  end.

Definition refused (what : string) : Thrown Val :=
  Other (VError "Unsupported" what).

(** The depth of evaluation the realm gives a run. *)
Definition evaluation_budget : nat := 1000.

Definition runtime : Runtime := {|
  JsValue := Val;
  Context := Props;
  Script := list Stmt;
  js_undefined := VUndefined;
  js_null := VNull;
  is_nullish := fun v => match v with VUndefined | VNull => true | _ => false end;
  JSON_stringify := fun v =>
    if in_fragment v then Normal (JSON_text v)
    else Throw (refused "value outside the fragment");
  js_String := fun v => Normal (to_string v);
  createContext := [];
  set_global := set_prop;
  new_Script := fun source =>
    match parse_program source with
    | Some body => Normal body
    | None => Throw (refused "source text")
    end;
  runInContext := fun script context _ =>
    match run_program evaluation_budget context script with
    | Done (v, context') => Completed v context'
    | Raised v => Threw (Other v)
    | OutOfBudget => Threw (refused "evaluation budget")
    end
|}.

End RefRealm.

(* ------------------------------------------------------------------ *)
(** ** A realm whose thrown values do not convert *)

Module ThrowingRealm.

(** A runtime in which every user script throws a value whose conversion
    to a string throws that value again, as the object of
    [throw { toString: function() { throw this; } }] does.  The script for
    the data injection runs. *)
Definition runtime : Runtime := {|
  JsValue := unit;
  Context := unit;
  Script := bool;                       (* is it the injection script? *)
  js_undefined := tt;
  js_null := tt;
  is_nullish := fun _ => true;
  JSON_stringify := fun _ => Normal (Some "null");
  js_String := fun v => Throw (Other v);
  createContext := tt;
  set_global := fun context _ _ => context;
  new_Script := fun source => Normal (Text.startsWith source "var $ = ");
  runInContext := fun script context _ =>
    if script then Completed tt context else Threw (Other tt)
|}.

End ThrowingRealm.

(* ------------------------------------------------------------------ *)
(** ** The call as the specification describes it

    [Received -> Validated -> RealmBuilt -> DataInjected -> Executing ->
    {Succeeded, Failed}]: the stage at which a call ends, following the
    words of the specification, to compare [execute] with. *)

Module Pipeline.
Import ScriptExecutorService.

(** The failure taxonomy.  A runtime throw and a timeout both surface as a
    value thrown by [runInContext]. *)
Inductive FailureClass : Type :=
| ValidationRejected
| SerializationFailed
| CompileFailed
| RunFailed.

Inductive Stage (V : Type) : Type :=
| Succeeded (r : ScriptResult V)
| Failed (cls : FailureClass) (e : Thrown V).
Arguments Succeeded {V} r.
Arguments Failed {V} cls e.

Section WithRuntime.

Variable R : Runtime.

Definition run_wrapped (context : Context R) (wrapped : string)
  (result : JsValue R -> ScriptResult (JsValue R)) : Stage (JsValue R) :=
  match new_Script R wrapped with
  | Throw e => Failed CompileFailed e
  | Normal script =>
      match runInContext R script context TIMEOUT_MS with
      | Threw e => Failed RunFailed e
      | Completed v _ => Succeeded (result v)
      end
  end.

Definition wrapped_source (mode : Mode) (code : string) : string :=
  match mode with
  | ValueMode => valueWrapper code
  | TemplateMode =>
      templateWrapper code (collectVarsCode (extractVariableNames code))
  end.

(** Everything a call does when no stage before the user script fails. *)
Definition full_trace (dataJson : option string) (mode : Mode) (code : string)
  : list Event :=
  [ EvCreateContext; EvCompile (initSource dataJson); EvRun TIMEOUT_MS;
    EvCompile (wrapped_source mode code); EvRun TIMEOUT_MS ].

Definition result_of (mode : Mode) (v : JsValue R) : ScriptResult (JsValue R) :=
  match mode with
  | ValueMode => mkResult true (Some v) None None
  | TemplateMode => mkResult true None (Some v) None
  end.

Definition stage (code : string) (data : JsValue R) (mode : Mode)
  : Stage (JsValue R) :=
  match fst (validateScript R code) with
  | Throw e => Failed ValidationRejected e
  | Normal _ =>
      match JSON_stringify R (coalesce_null R data) with
      | Throw e => Failed SerializationFailed e
      | Normal dataJson =>
          match new_Script R (initSource dataJson) with
          | Throw e => Failed CompileFailed e
          | Normal init =>
              match runInContext R init (scrubbed R (createContext R))
                      TIMEOUT_MS with
              | Threw e => Failed RunFailed e
              | Completed _ context =>
                  run_wrapped context (wrapped_source mode code)
                    (result_of mode)
              end
          end
      end
  end.

(** The message a [catch] clause of the service derives from what it
    caught, when the conversion itself does not throw. *)
Definition message_of (e : Thrown (JsValue R)) : option string :=
  match e with
  | HostError message => Some message
  | Other v =>
      match js_String R v with
      | Normal message => Some message
      | Throw _ => None
      end
  end.

End WithRuntime.

End Pipeline.

(* ------------------------------------------------------------------ *)
(** ** Vocabulary of the specification *)

Module Vocabulary.
Import Text Regex ScriptExecutorService.

Open Scope string_scope.

Definition class_of (cls : ascii -> bool) (c : option ascii) : bool :=
  match c with
  | Some x => cls x
  | None => false
  end.

(** [token] occurs in [text] with, on both sides, the edge of the text or a
    character outside [cls]. *)
Definition delimited (cls : ascii -> bool) (token text : string) : Prop :=
  exists pre post,
    text = pre ++ token ++ post /\
    class_of cls (last None pre) = false /\
    class_of cls (head post) = false.

(** A whole word for the regexp: delimited by characters that are not
    [\w]. *)
Definition whole_word : string -> string -> Prop := delimited is_word.

(** A whole identifier: delimited by characters that cannot be part of an
    identifier ([$] can). *)
Definition whole_identifier : string -> string -> Prop :=
  delimited is_ident_part.

(** A token whose first and last characters are word characters. *)
Definition wordy (token : string) : Prop :=
  class_of is_word (head token) = true /\
  class_of is_word (last None token) = true.

(** A decision procedure for [delimited]. *)
Fixpoint delimitedb (cls : ascii -> bool) (token : string)
  (prev : option ascii) (s : string) : bool :=
  (negb (class_of cls prev) &&
   match strip_prefix token s with
   | Some post => negb (class_of cls (head post))
   | None => false
   end) ||
  match s with
  | EmptyString => false
  | String c s' => delimitedb cls token (Some c) s'
  end.

(** The tokens of [BLOCKED_PATTERNS], in order. *)
Definition denylist : list string :=
  [ "constructor"; "__proto__"; "prototype"; "Function"; "eval"; "import";
    "globalThis"; "process"; "require"; "Proxy"; "Reflect"; "Symbol";
    "WeakRef"; "FinalizationRegistry" ].

(** The message of a denylist rejection that names [offending]. *)
Definition forbidden_keyword_message (offending : string) : string :=
  "Script contains forbidden keyword: " ++ offending.

(** [offending] is the first token of the denylist, in its order, that
    occurs in [code] as a whole word. *)
Definition first_offender (code offending : string) : Prop :=
  exists before after,
    denylist = (before ++ offending :: after)%list /\
    whole_word offending code /\
    forall u, In u before -> ~ whole_word u code.

Fixpoint all_chars (cls : ascii -> bool) (s : string) : bool :=
  match s with
  | EmptyString => true
  | String c s' => cls c && all_chars cls s'
  end.

(** A name the declaration regexp can capture: one of [[a-zA-Z_$]], then
    any number of [[a-zA-Z0-9_$]]. *)
Definition is_identifier (name : string) : Prop :=
  match name with
  | EmptyString => False
  | String c rest =>
      is_ident_start c = true /\ all_chars is_ident_part rest = true
  end.

Definition declaration_keywords : list string := [ "var"; "let"; "const" ].

(** [name] follows a declaration keyword in [code]: after the keyword come
    one or more white-space characters, then the whole of [name]. *)
Definition declares (code name : string) : Prop :=
  exists pre kw ws post,
    code = pre ++ kw ++ ws ++ name ++ post /\
    In kw declaration_keywords /\
    ws <> "" /\ all_chars is_space ws = true /\
    is_identifier name /\
    class_of is_ident_part (head post) = false.

(** The declaration regexp matches at the start of [text]. *)
Definition starts_declaration (text : string) : Prop :=
  exists kw ws name post,
    text = kw ++ ws ++ name ++ post /\
    In kw declaration_keywords /\
    ws <> "" /\ all_chars is_space ws = true /\
    is_identifier name /\
    class_of is_ident_part (head post) = false.

(** The names the declaration regexp captures when it is applied again and
    again from left to right, each search starting where the match before
    it ended: where the regexp does not match the scan moves on by one
    character, and where it matches (a keyword, white space and the whole of
    a name) the scan lists the name and goes on behind it. *)
Inductive scan : string -> list string -> Prop :=
| scan_end : scan "" []
| scan_pass c text names :
    ~ starts_declaration (String c text) ->
    scan text names ->
    scan (String c text) names
| scan_match kw ws name post names :
    In kw declaration_keywords ->
    ws <> "" -> all_chars is_space ws = true ->
    is_identifier name ->
    class_of is_ident_part (head post) = false ->
    scan post names ->
    scan (kw ++ ws ++ name ++ post) (name :: names).

(** [text] ends with a declaration keyword and white space after it. *)
Definition ends_with_keyword (text : string) : Prop :=
  exists pre kw ws,
    text = pre ++ kw ++ ws /\ In kw declaration_keywords /\
    ws <> "" /\ all_chars is_space ws = true.

(** A decision procedure for [ends_with_keyword]. *)
Fixpoint ends_with_keywordb (text : string) : bool :=
  existsb (fun kw => match strip_prefix kw text with
                     | Some ws => negb (ws =? "") && all_chars is_space ws
                     | None => false
                     end) declaration_keywords
  || match text with
     | EmptyString => false
     | String _ text' => ends_with_keywordb text'
     end.

(** [name] follows a declaration keyword that stands apart: no identifier
    character comes right before the keyword, and the keyword is not itself
    in the place of a declared name. *)
Definition declares_apart (code name : string) : Prop :=
  exists pre kw ws post,
    code = pre ++ kw ++ ws ++ name ++ post /\
    In kw declaration_keywords /\
    ws <> "" /\ all_chars is_space ws = true /\
    is_identifier name /\
    class_of is_ident_part (head post) = false /\
    class_of is_ident_part (last None pre) = false /\
    ~ ends_with_keyword pre.

(** [n] spaces. *)
Fixpoint blanks (n : nat) : string :=
  match n with
  | O => EmptyString
  | S n' => String " " (blanks n')
  end.

(** Scripts longer than the size limit. *)
Definition oversized_loop : string := "while(true) {}" ++ blanks (N.to_nat 10000).
Definition oversized_eval : string := "return eval('1');" ++ blanks (N.to_nat 10000).

(** Events that build or use a realm. *)
Definition touches_realm (ev : Event) : bool :=
  match ev with
  | EvCreateContext | EvCompile _ | EvRun _ => true
  | EvWarn _ => false
  end.

(** The message of the error Node's [vm] throws in the host when a run has
    used up the [timeout] it was given (code
    [ERR_SCRIPT_EXECUTION_TIMEOUT]). *)
Definition timeout_message (ms : N) : string :=
  "Script execution timed out after " ++ Text.decimal ms ++ "ms".

End Vocabulary.

(* ------------------------------------------------------------------ *)
(** ** A realm that is out of time

    A runtime for the timeout path of [execute]: the injection script
    completes, and the run of any other script is stopped at its timeout,
    with the error Node throws then.  It evaluates nothing. *)

Module StalledRealm.
Import Vocabulary.

Definition runtime : Runtime := {|
  JsValue := unit;
  Context := unit;
  Script := bool;
  js_undefined := tt;
  js_null := tt;
  is_nullish := fun _ => true;
  JSON_stringify := fun _ => Normal (Some "null"%string);
  js_String := fun _ => Normal "undefined"%string;
  createContext := tt;
  set_global := fun context _ _ => context;
  new_Script := fun source => Normal (Text.startsWith source "var $ = ");
  runInContext := fun script context timeout =>
    if script then Completed tt context
    else Threw (HostError (timeout_message timeout))
|}.

End StalledRealm.

(* ------------------------------------------------------------------ *)
(** ** The collection lines of template mode, read as JavaScript

    The wrapper of template mode is text; what it does is up to the
    runtime.  This is the meaning JavaScript gives to its collection lines
    [if (typeof name !== 'undefined') __vars['name'] = name;], for any kind
    of value and any state the user's statements leave behind. *)

Module TemplateVocabulary.
Import Text ScriptExecutorService Vocabulary.

Open Scope string_scope.

(** The words that name no variable in the wrapper function, which is
    non-strict code: the reserved words of ECMAScript. *)
Definition reserved_words : list string :=
  [ "break"; "case"; "catch"; "class"; "const"; "continue"; "debugger";
    "default"; "delete"; "do"; "else"; "enum"; "export"; "extends"; "false";
    "finally"; "for"; "function"; "if"; "import"; "in"; "instanceof"; "new";
    "null"; "return"; "super"; "switch"; "this"; "throw"; "true"; "try";
    "typeof"; "var"; "void"; "while"; "with" ].

Definition is_reserved_word (name : string) : bool :=
  existsb (String.eqb name) reserved_words.

Definition is_identifierb (name : string) : bool :=
  match name with
  | EmptyString => false
  | String c rest => is_ident_start c && all_chars is_ident_part rest
  end.

(** The text around the user's code and the collection lines in
    [templateWrapper]. *)
Definition wrapper_head : string :=
  nl ++ "      (function() {" ++ nl ++ "        var __vars = {};" ++ nl
     ++ "        ".
Definition wrapper_middle : string := nl ++ "        ".
Definition wrapper_tail : string :=
  nl ++ "        return __vars;" ++ nl ++ "      })()" ++ nl ++ "    ".

(** The lines of a text. *)
Fixpoint lines (text : string) : list string :=
  match text with
  | EmptyString => [EmptyString]
  | String c text' =>
      if (c =? lf)%char then EmptyString :: lines text'
      else
        match lines text' with
        | line :: rest => String c line :: rest
        | [] => [String c EmptyString]
        end
  end.

(** The variable a line collects: [name] when the line is the statement
    [if (typeof name !== 'undefined') __vars['name'] = name;] for an
    identifier [name] that is not a reserved word. *)
Definition line_name (line : string) : option string :=
  match strip_prefix "if (typeof " line with
  | Some rest =>
      let (name, rest') := span is_ident_part rest in
      if is_identifierb name && negb (is_reserved_word name)
         && (rest' =? " !== 'undefined') __vars['" ++ name ++ "'] = "
                        ++ name ++ ";")
      then Some name
      else None
  | None => None
  end.

Fixpoint all_some {A} (l : list (option A)) : option (list A) :=
  match l with
  | [] => Some []
  | Some a :: rest => option_map (cons a) (all_some rest)
  | None :: _ => None
  end.

(** The variables the lines of a text collect, in order, when every line
    is a collection line; the empty text has none. *)
Definition line_names (text : string) : option (list string) :=
  if (text =? "") then Some [] else all_some (map line_name (lines text)).

Section Collection.

(** The values of the realm, and the test [typeof v === 'undefined']. *)
Variable V : Type.
Variable is_undefined : V -> bool.

(** The own properties of an ordinary object, in order. *)
Definition Object : Type := list (string * V).

Fixpoint property (o : Object) (k : string) : option V :=
  match o with
  | [] => None
  | (k', v) :: rest => if (k =? k') then Some v else property rest k
  end.

(** [o[k] = v] for a key that is not an integer: an own property keeps its
    place, a new one comes last. *)
Fixpoint store (o : Object) (k : string) (v : V) : Object :=
  match o with
  | [] => [(k, v)]
  | (k', v') :: rest =>
      if (k =? k') then (k, v) :: rest else (k', v') :: store rest k v
  end.

(** Where the user's statements have run to their end, inside the wrapper
    function: the value each name resolves to ([None] for a name that does
    not resolve), and the own properties of the object [__vars] names,
    which is the ordinary object the wrapper made. *)
Record Scope : Type := mkScope {
  binding : string -> option V;
  stored : Object
}.

(** The value the guard of a line lets through: [typeof name] is
    ['undefined'] for a name that does not resolve and for one whose value
    is [undefined]. *)
Definition defined (scope : Scope) (name : string) : option V :=
  match binding scope name with
  | Some v => if is_undefined v then None else Some v
  | None => None
  end.

(** One collection line. *)
Definition collect (scope : Scope) (vars : Object) (name : string) : Object :=
  match defined scope name with
  | Some v => store vars name v
  | None => vars
  end.

(** [__vars] after the collection lines of [names]. *)
Definition collection (scope : Scope) (names : list string) : Object :=
  fold_left (collect scope) names (stored scope).

End Collection.

Arguments property {V} o k.
Arguments store {V} o k v.
Arguments mkScope {V} binding stored.
Arguments binding {V} s name.
Arguments stored {V} s.
Arguments defined {V} is_undefined scope name.
Arguments collect {V} is_undefined scope vars name.
Arguments collection {V} is_undefined scope names.

End TemplateVocabulary.

(* ------------------------------------------------------------------ *)
(** ** Vocabulary for runs in the reference realm *)

Module RealmVocabulary.
Import Text ScriptExecutorService RefRealm Pipeline.

Open Scope string_scope.

(** The script [initSource (Some text)] is. *)
Definition init_program (text : string) : list Stmt :=
  [SVar "$" (Some (ECall (EMember (EVar "JSON") (EStr "parse")) [EStr text]))].

(** The script does not finish, whatever the depth of evaluation it is
    given. *)
Definition diverges (context : Props) (script : list Stmt) : Prop :=
  forall budget, run_program budget context script = OutOfBudget.

(** What [valueWrapper "while(true) {}"] is. *)
Definition loop_program : list Stmt :=
  [SExpr (ECall (EFunction [SWhile (EBool true) (SBlock [])]) [])].

(** The test [typeof v === 'undefined'] on the values of the reference
    realm. *)
Definition is_undefined (v : Val) : bool :=
  match v with
  | VUndefined => true
  | _ => false
  end.

End RealmVocabulary.

(* ------------------------------------------------------------------ *)
(** ** What a call does, in order *)

Module CallVocabulary.
Import Text ScriptExecutorService Pipeline.

Definition is_warn (ev : Event) : bool :=
  match ev with
  | EvWarn _ => true
  | _ => false
  end.

(** The line [logger.warn] writes for [message]. *)
Definition log_line (message : string) : Event :=
  EvWarn ("Script execution failed: " ++ message).

Section WithRuntime.

Variable R : Runtime.

(** The call gets as far as [executeValueMode] or [executeTemplateMode]:
    validation passes, the data serialise, the injection script compiles
    and runs. *)
Definition reaches_user_script (code : string) (data : JsValue R) : bool :=
  match fst (validateScript R code) with
  | Throw _ => false
  | Normal _ =>
      match JSON_stringify R (coalesce_null R data) with
      | Throw _ => false
      | Normal dataJson =>
          match new_Script R (initSource dataJson) with
          | Throw _ => false
          | Normal init =>
              match runInContext R init (scrubbed R (createContext R))
                      TIMEOUT_MS with
              | Threw _ => false
              | Completed _ _ => true
              end
          end
      end
  end.

(** The calls into the runtime a call makes when nothing fails. *)
Definition planned_trace (code : string) (data : JsValue R) (mode : Mode)
  : list Event :=
  full_trace
    (match JSON_stringify R (coalesce_null R data) with
     | Normal dataJson => dataJson
     | Throw _ => None
     end) mode code.

End WithRuntime.

End CallVocabulary.

(* ------------------------------------------------------------------ *)
(** ** The PIN authentication service

    [backend/src/auth/pin-auth.service.ts].  The clock ([Date.now()],
    [new Date()]), the random token and the configured PIN are inputs of the
    operations; a [Date] is its time value in milliseconds.  A PIN is the
    list of its UTF-16 code units; a session token is a string of
    hexadecimal digits. *)

Module PinAuthService.

Definition CLEANUP_INTERVAL_MS : Z := 60 * 60 * 1000.
Definition SESSION_MAX_AGE_MS : Z := 30 * 24 * 60 * 60 * 1000.

(** *** [validatePin] *)

(** A PIN is a JavaScript string: its UTF-16 code units, each below
    65536. *)
Definition CodeUnits : Type := list N.

Definition NUL : N := 0.

(** [s.padEnd(targetLength, c)] for a one-character filler. *)
Definition padEnd (s : CodeUnits) (targetLength : nat) (c : N) : CodeUnits :=
  s ++ repeat c (targetLength - List.length s).

(** Lead surrogates U+D800..U+DBFF and trail surrogates U+DC00..U+DFFF. *)
Definition is_lead (c : N) : bool := (55296 <=? c)%N && (c <=? 56319)%N.
Definition is_trail (c : N) : bool := (56320 <=? c)%N && (c <=? 57343)%N.

(** The code point of a surrogate pair. *)
Definition code_point (lead trail : N) : N :=
  (65536 + (lead - 55296) * 1024 + (trail - 56320))%N.

(** The UTF-8 bytes of a code point. *)
Definition utf8 (cp : N) : list N :=
  if (cp <? 128)%N then [cp]
  else if (cp <? 2048)%N then [(192 + cp / 64)%N; (128 + cp mod 64)%N]
  else if (cp <? 65536)%N then
    [(224 + cp / 4096)%N; (128 + (cp / 64) mod 64)%N; (128 + cp mod 64)%N]
  else
    [(240 + cp / 262144)%N; (128 + (cp / 4096) mod 64)%N;
     (128 + (cp / 64) mod 64)%N; (128 + cp mod 64)%N].

(** U+FFFD, which stands for a surrogate without its partner. *)
Definition REPLACEMENT : N := 65533.

(** [Buffer.from(s)]: the UTF-8 encoding of the string.  A lead surrogate
    and the trail surrogate behind it are one code point; any other
    surrogate is encoded as U+FFFD. *)
Fixpoint Buffer_from (s : CodeUnits) : list N :=
  match s with
  | [] => []
  | c :: rest =>
      if is_lead c then
        match rest with
        | d :: rest' =>
            if is_trail d then utf8 (code_point c d) ++ Buffer_from rest'
            else utf8 REPLACEMENT ++ Buffer_from rest
        | [] => utf8 REPLACEMENT
        end
      else if is_trail c then utf8 REPLACEMENT ++ Buffer_from rest
      else utf8 c ++ Buffer_from rest
  end.

Fixpoint bytes_eqb (a b : list N) : bool :=
  match a, b with
  | [], [] => true
  | x :: a', y :: b' => (x =? y)%N && bytes_eqb a' b'
  | _, _ => false
  end.

(** [crypto.timingSafeEqual]: throws ([None]) on buffers of different
    lengths. *)
Definition timingSafeEqual (a b : list N) : option bool :=
  if (List.length a =? List.length b)%nat then Some (bytes_eqb a b) else None.

(** [validatePin(pin)], with what [configService.get('admin.pin')] returns;
    [None] is [undefined]. *)
Definition validatePin (storedPin : option CodeUnits) (pin : CodeUnits)
  : bool :=
  match storedPin with
  | None => false
  | Some stored =>
      match stored with
      | [] => false
      | _ :: _ =>
          let maxLen := Nat.max (List.length pin) (List.length stored) in
          let paddedPin := padEnd pin maxLen NUL in
          let paddedStored := padEnd stored maxLen NUL in
          match timingSafeEqual (Buffer_from paddedPin)
                  (Buffer_from paddedStored) with
          | Some equal => equal
          | None => false
          end
      end
  end.

(** [String.prototype.toWellFormed]: every surrogate without its partner
    becomes U+FFFD. *)
Fixpoint toWellFormed (s : CodeUnits) : CodeUnits :=
  match s with
  | [] => []
  | c :: rest =>
      if is_lead c then
        match rest with
        | d :: rest' =>
            if is_trail d then c :: d :: toWellFormed rest'
            else REPLACEMENT :: toWellFormed rest
        | [] => [REPLACEMENT]
        end
      else if is_trail c then REPLACEMENT :: toWellFormed rest
      else c :: toWellFormed rest
  end.

(** Reading UTF-8 back into code units. *)
Fixpoint utf16 (bytes : list N) : CodeUnits :=
  match bytes with
  | [] => []
  | b0 :: r0 =>
      if (b0 <? 128)%N then b0 :: utf16 r0
      else if (b0 <? 224)%N then
        match r0 with
        | b1 :: r1 => ((b0 - 192) * 64 + (b1 - 128))%N :: utf16 r1
        | _ => []
        end
      else if (b0 <? 240)%N then
        match r0 with
        | b1 :: b2 :: r2 =>
            ((b0 - 224) * 4096 + (b1 - 128) * 64 + (b2 - 128))%N :: utf16 r2
        | _ => []
        end
      else
        match r0 with
        | b1 :: b2 :: b3 :: r3 =>
            let cp := ((b0 - 240) * 262144 + (b1 - 128) * 4096
                       + (b2 - 128) * 64 + (b3 - 128))%N in
            (55296 + (cp - 65536) / 1024)%N
              :: (56320 + (cp - 65536) mod 1024)%N :: utf16 r3
        | _ => []
        end
  end.

(** *** The sessions

    [Map<string, { createdAt: Date }>]: the entries in insertion order, no
    key twice. *)
Definition Sessions : Type := list (string * Z).

Fixpoint Map_get (m : Sessions) (key : string) : option Z :=
  match m with
  | [] => None
  | (k, v) :: rest => if (key =? k)%string then Some v else Map_get rest key
  end.

(** [Map.prototype.set]: an existing key keeps its place. *)
Fixpoint Map_set (m : Sessions) (key : string) (value : Z) : Sessions :=
  match m with
  | [] => [(key, value)]
  | (k, v) :: rest =>
      if (key =? k)%string then (k, value) :: rest
      else (k, v) :: Map_set rest key value
  end.

Definition Map_delete (m : Sessions) (key : string) : Sessions :=
  filter (fun entry => negb (key =? fst entry)%string) m.

(** [generateSessionToken()], for the token [randomBytes] yields. *)
Definition generateSessionToken (sessions : Sessions) (token : string)
  (now : Z) : string * Sessions :=
  (token, Map_set sessions token now).

Definition validateSession (sessions : Sessions) (token : string) (now : Z)
  : bool * Sessions :=
  match Map_get sessions token with
  | None => (false, sessions)
  | Some createdAt =>
      if (createdAt <? now - SESSION_MAX_AGE_MS)%Z
      then (false, Map_delete sessions token)
      else (true, sessions)
  end.

Definition invalidateSession (sessions : Sessions) (token : string)
  : Sessions :=
  Map_delete sessions token.

(** The loop over [sessions.entries()], deleting as it goes. *)
Definition cleanupExpiredSessions (sessions : Sessions) (now : Z) : Sessions :=
  let cutoff := (now - SESSION_MAX_AGE_MS)%Z in
  fold_left
    (fun m entry =>
       if (snd entry <? cutoff)%Z then Map_delete m (fst entry) else m)
    sessions sessions.

(** *** Histories *)

Inductive Call : Type :=
| Generate (token : string)
| Validate (token : string)
| Invalidate (token : string)
| Cleanup.

(** One call, made when the clock shows [fst timed]. *)
Definition perform (sessions : Sessions) (timed : Z * Call) : Sessions :=
  let now := fst timed in
  match snd timed with
  | Generate token => snd (generateSessionToken sessions token now)
  | Validate token => snd (validateSession sessions token now)
  | Invalidate token => invalidateSession sessions token
  | Cleanup => cleanupExpiredSessions sessions now
  end.

(** The sessions after a history of calls on a new service. *)
Definition sessions_after (history : list (Z * Call)) : Sessions :=
  fold_left perform history [].

(** The clock does not go back during the history and has not passed
    [now]. *)
Fixpoint clock_up_to (now : Z) (history : list (Z * Call)) : Prop :=
  match history with
  | [] => True
  | (t, _) :: rest =>
      (t <= now)%Z /\ Forall (fun timed => (t <= fst timed)%Z) rest /\
      clock_up_to now rest
  end.

(** [call] concerns the issue of [token]: it issues it or revokes it. *)
Definition settles (token : string) (call : Call) : bool :=
  match call with
  | Generate t | Invalidate t => (t =? token)%string
  | _ => false
  end.

(** The issue of [token] that stands after a history: the time of its last
    [Generate] when no [Invalidate] followed. *)
Definition issue_step (token : string) (issue : option Z) (timed : Z * Call)
  : option Z :=
  match snd timed with
  | Generate t => if (t =? token)%string then Some (fst timed) else issue
  | Invalidate t => if (t =? token)%string then None else issue
  | _ => issue
  end.

Definition standing (token : string) (s : Sessions) (issue : option Z)
  (clock : Z) : Prop :=
  (forall createdAt, Map_get s token = Some createdAt -> issue = Some createdAt) /\
  (forall t0, issue = Some t0 ->
              Map_get s token = Some t0 \/ (t0 < clock - SESSION_MAX_AGE_MS)%Z).

End PinAuthService.

(* ------------------------------------------------------------------ *)
(** ** The exception filter's URL sanitiser

    [backend/src/common/filters/http-exception.filter.ts], [sanitizeUrl]. *)

Module HttpExceptionFilter.

(** [s.indexOf(c)] for a one-character [c]: the first position, or -1. *)
Fixpoint indexOf (s : string) (c : ascii) : Z :=
  match s with
  | EmptyString => (-1)%Z
  | String d s' =>
      if (d =? c)%char then 0%Z
      else
        let i := indexOf s' c in
        if (i <? 0)%Z then (-1)%Z else (i + 1)%Z
  end.

(** [s.substring(0, finish)] for [0 <= finish]. *)
Fixpoint substring_to (s : string) (finish : nat) : string :=
  match finish, s with
  | S n, String c s' => String c (substring_to s' n)
  | _, _ => EmptyString
  end.

Definition sanitizeUrl (url : string) : string :=
  let qIndex := indexOf url "?" in
  if (qIndex >=? 0)%Z then substring_to url (Z.to_nat qIndex) else url.

End HttpExceptionFilter.

(* ------------------------------------------------------------------ *)
(** ** Numbers

    A JavaScript Number is an IEEE 754 double, kept in canonical form; the
    arithmetic is the Standard Library's [SpecFloat] at precision 53. *)

Module Numbers.

Definition Num : Type := SpecFloat.spec_float.

(** The Number of an integer literal. *)
Definition num (z : Z) : Num := SpecFloat.binary_normalize 53 1024 z 0 false.

Definition NaN : Num := SpecFloat.S754_nan.

Definition isNaN (x : Num) : bool :=
  match x with
  | SpecFloat.S754_nan => true
  | _ => false
  end.

Definition add : Num -> Num -> Num := SpecFloat.SFadd 53 1024.
Definition sub : Num -> Num -> Num := SpecFloat.SFsub 53 1024.
Definition mul : Num -> Num -> Num := SpecFloat.SFmul 53 1024.
Definition div : Num -> Num -> Num := SpecFloat.SFdiv 53 1024.

(** [a === b], [a > b], [a >= b] and [a <= b] on Numbers. *)
Definition strict_eq (a b : Num) : bool := SpecFloat.SFeqb a b.
Definition gt (a b : Num) : bool := SpecFloat.SFltb b a.
Definition ge (a b : Num) : bool := SpecFloat.SFleb b a.
Definition le (a b : Num) : bool := SpecFloat.SFleb a b.

End Numbers.

(* ------------------------------------------------------------------ *)
(** ** The screen services' dithering

    [backend/src/api/display/default-screen.service.ts],
    [applyFloydSteinbergDithering] of [DefaultScreenService] and of
    [SetupScreenService] (the same text twice).

    A [Float32Array] holds Numbers that went through [fround]; a [Buffer]
    holds integers from 0 to 255.  [width] and [height] are natural
    numbers. *)

Module DefaultScreenService.
Import Numbers.

(** [Math.fround]: the nearest single, as a double. *)
Definition fround (x : Num) : Num :=
  match x with
  | SpecFloat.S754_finite s m e =>
      match SpecFloat.binary_normalize 24 128
              (SpecFloat.cond_Zopp s (Zpos m)) e s with
      | SpecFloat.S754_finite s' m' e' =>
          SpecFloat.binary_normalize 53 1024
            (SpecFloat.cond_Zopp s' (Zpos m')) e' s'
      | single => single
      end
  | _ => x
  end.

(** [Math.round] of a finite Number [(-1)^s * m * 2^e]: the integer
    nearest to it, the greater one of two. *)
Definition round_half_up (s : bool) (m : positive) (e : Z) : Z :=
  let signed := SpecFloat.cond_Zopp s (Zpos m) in
  if (0 <=? e)%Z then (signed * 2 ^ e)%Z
  else ((2 * signed + 2 ^ (- e)) / (2 * 2 ^ (- e)))%Z.

(** [Math.max(0, Math.min(255, Math.round(x)))], as a byte of a [Buffer]:
    storing NaN stores 0. *)
Definition clamped_byte (x : Num) : Z :=
  match x with
  | SpecFloat.S754_nan => 0
  | SpecFloat.S754_zero _ => 0
  | SpecFloat.S754_infinity s => if s then 0 else 255
  | SpecFloat.S754_finite s m e =>
      (Z.max 0 (Z.min 255 (round_half_up s m e)) mod 256)%Z
  end.

(** *** Typed arrays *)

(** [pixels[i]]: past the end it is [undefined], NaN in arithmetic and
    false in a comparison. *)
Definition get (pixels : list Num) (i : nat) : Num :=
  nth i pixels NaN.

Fixpoint replace (pixels : list Num) (i : nat) (v : Num)
  : list Num :=
  match pixels, i with
  | [], _ => []
  | _ :: rest, O => v :: rest
  | p :: rest, S i' => p :: replace rest i' v
  end.

(** [pixels[i] = v]: a store past the end is ignored. *)
Definition set (pixels : list Num) (i : nat) (v : Num) : list Num :=
  replace pixels i (fround v).

(** [pixels[i] += v] *)
Definition add_at (pixels : list Num) (i : nat) (v : Num)
  : list Num :=
  set pixels i (add (get pixels i) v).

(** *** [applyFloydSteinbergDithering] *)

(** The first loop: what [pixels[i]] gets for [data[i]]. *)
Definition contrast (val : Z) : Num :=
  if (val >? 200)%Z then num 255
  else if (val <? 55)%Z then num 0
  else num val.

(** The body of the inner loop at column [x] of row [y]; [x - 1 >= 0] is
    [1 <= x] on natural numbers. *)
Definition diffuse (width height : nat) (threshold : Num) (y x : nat)
  (pixels : list Num) : list Num :=
  let idx := y * width + x in
  let oldPixel := get pixels idx in
  let newPixel := if gt oldPixel threshold then num 255 else num 0 in
  let pixels := set pixels idx newPixel in
  let error := sub oldPixel newPixel in
  let pixels :=
    if (x + 1 <? width)%nat
    then add_at pixels (idx + 1) (div (mul error (num 7)) (num 16))
    else pixels in
  if (y + 1 <? height)%nat then
    let pixels :=
      if (1 <=? x)%nat
      then add_at pixels ((y + 1) * width + (x - 1))
             (div (mul error (num 3)) (num 16))
      else pixels in
    let pixels :=
      add_at pixels ((y + 1) * width + x)
        (div (mul error (num 5)) (num 16)) in
    if (x + 1 <? width)%nat
    then add_at pixels ((y + 1) * width + (x + 1))
           (div (mul error (num 1)) (num 16))
    else pixels
  else pixels.

Definition dither_row (width height : nat) (threshold : Num) (y : nat)
  (pixels : list Num) : list Num :=
  fold_left (fun pixels x => diffuse width height threshold y x pixels)
    (seq 0 width) pixels.

Definition dither (width height : nat) (threshold : Num)
  (pixels : list Num) : list Num :=
  fold_left (fun pixels y => dither_row width height threshold y pixels)
    (seq 0 height) pixels.

Definition applyFloydSteinbergDithering (data : list Z) (width height : nat)
  (threshold : Num) : list Z :=
  let pixels := map (fun val => fround (contrast val)) data in
  let pixels := dither width height threshold pixels in
  map clamped_byte pixels.

(** *** Vocabulary *)

(** A pixel is black or white. *)
Definition settled (v : Num) : Prop := v = num 0 \/ v = num 255.

(** Every pixel before [k] is settled. *)
Definition settled_below (k : nat) (pixels : list Num) : Prop :=
  forall i, (i < k)%nat -> (i < List.length pixels)%nat ->
            settled (get pixels i).

(** [pixels'] is [pixels] from [k] on. *)
Definition same_from (k : nat) (pixels pixels' : list Num) : Prop :=
  List.length pixels' = List.length pixels /\
  forall i, (k <= i)%nat -> get pixels' i = get pixels i.

End DefaultScreenService.

(* ------------------------------------------------------------------ *)
(** ** The URL safety utility

    [isPrivateIp] of the URL safety utility ([unnamed/part_001]).  What
    [Number] makes of a string is an input: the utility is read for every
    such function, and the properties say what they need of it. *)

Module UrlSafety.
Import Numbers.

(** [String.prototype.toLowerCase] on the code units below 256: the
    letters [A] to [Z] and the capital letters of Latin-1. *)
Definition lower (c : ascii) : ascii :=
  let n := N_of_ascii c in
  if (((65 <=? n) && (n <=? 90)) ||
      ((192 <=? n) && (n <=? 222) && negb (n =? 215)))%N
  then ascii_of_N (n + 32) else c.

Fixpoint toLowerCase (s : string) : string :=
  match s with
  | EmptyString => EmptyString
  | String c s' => String (lower c) (toLowerCase s')
  end.

(** [s.split(sep)] for a one-character separator. *)
Fixpoint split (sep : ascii) (s : string) : list string :=
  match s with
  | EmptyString => [EmptyString]
  | String c s' =>
      if (c =? sep)%char then EmptyString :: split sep s'
      else
        match split sep s' with
        | part :: parts => String c part :: parts
        | [] => [String c EmptyString]
        end
  end.

(** *** [/^::ffff:(\d+\.\d+\.\d+\.\d+)$/i] *)

(** A literal prefix under the [i] flag. *)
Fixpoint strip_prefix_i (p s : string) : option string :=
  match p with
  | EmptyString => Some s
  | String c p' =>
      match s with
      | String d s' =>
          if (lower c =? lower d)%char then strip_prefix_i p' s' else None
      | EmptyString => None
      end
  end.

(** [\d+] and then [next]: no digit can start what follows in this
    regexp, so [\d+] takes every digit there is. *)
Fixpoint digits_then (next : string -> bool) (seen : bool) (s : string)
  : bool :=
  match s with
  | String c s' =>
      if Text.is_digit c then digits_then next true s' else seen && next s
  | EmptyString => seen && next s
  end.

(** [\.] and then [next]. *)
Definition dot_then (next : string -> bool) (s : string) : bool :=
  match s with
  | String c s' => (c =? ".")%char && next s'
  | EmptyString => false
  end.

Definition at_end (s : string) : bool :=
  match s with
  | EmptyString => true
  | _ => false
  end.

(** [ip.match(...)]: the text of group 1 when the regexp matches. *)
Definition ipv4Mapped (ip : string) : option string :=
  match strip_prefix_i "::ffff:" ip with
  | Some group =>
      if digits_then
           (dot_then
              (digits_then
                 (dot_then
                    (digits_then
                       (dot_then (digits_then at_end false)) false)) false))
           false group
      then Some group
      else None
  | None => None
  end.

Definition starts_with_class (s : string) (first : string)
  (second : list ascii) : bool :=
  match Text.strip_prefix first s with
  | Some (String c _) => existsb (Ascii.eqb c) second
  | _ => false
  end.

Section WithNumber.

(** [Number(s)] *)
Variable Number : string -> Num.

(** The function past the test of [ipv4Mapped]. *)
Definition isPrivateIp_unmapped (ip : string) : bool :=
  let parts := map Number (split "." ip) in
  if (List.length parts =? 4)%nat && forallb (fun p => negb (isNaN p)) parts
  then
    let a := nth 0 parts NaN in
    let b := nth 1 parts NaN in
    strict_eq a (num 127) ||
    strict_eq a (num 10) ||
    (strict_eq a (num 172) && ge b (num 16) && le b (num 31)) ||
    (strict_eq a (num 192) && strict_eq b (num 168)) ||
    (strict_eq a (num 169) && strict_eq b (num 254)) ||
    strict_eq a (num 0)
  else
    let normalized := toLowerCase ip in
    if (normalized =? "::1")%string || (normalized =? "0:0:0:0:0:0:0:1")%string
    then true
    else if starts_with_class normalized "f" ["c"; "d"]%char then true
    else if starts_with_class normalized "fe" ["8"; "9"; "a"; "b"]%char
    then true
    else false.

(** [isPrivateIp] with a bound on the depth of its calls; [None] when the
    bound is reached. *)
Fixpoint isPrivateIp_within (depth : nat) (ip : string) : option bool :=
  match depth with
  | O => None
  | S depth' =>
      match ipv4Mapped ip with
      | Some group => isPrivateIp_within depth' group
      | None => Some (isPrivateIp_unmapped ip)
      end
  end.

(** Group 1 is shorter than [ip]: the bound is not reached. *)
Definition isPrivateIp (ip : string) : bool :=
  match isPrivateIp_within (S (String.length ip)) ip with
  | Some private => private
  | None => false
  end.

End WithNumber.

(** *** Vocabulary *)

(** [a.b.c.d] in decimal. *)
Definition dotted (a b c d : N) : string :=
  (Text.decimal a ++ "." ++ Text.decimal b ++ "." ++ Text.decimal c ++ "." ++
   Text.decimal d)%string.

(** The reserved ranges of IPv4 by the first two octets: 127/8, 10/8,
    172.16/12, 192.168/16, 169.254/16 and 0/8. *)
Definition reserved_ipv4 (a b : N) : bool :=
  ((a =? 127) || (a =? 10) || ((a =? 172) && (16 <=? b) && (b <=? 31)) ||
   ((a =? 192) && (b =? 168)) || ((a =? 169) && (b =? 254)) || (a =? 0))%N.

(** The number of [c] in [s]. *)
Fixpoint count (c : ascii) (s : string) : nat :=
  match s with
  | EmptyString => 0
  | String d s' => (if (d =? c)%char then 1 else 0) + count c s'
  end.

(** What makes an address without its three dots private, in lower case:
    a spelling of the loopback address or a prefix of fc00::/7 or
    fe80::/10. *)
Definition reserved_ipv6 (normalized : string) : Prop :=
  normalized = "::1" \/ normalized = "0:0:0:0:0:0:0:1" \/
  exists prefix rest,
    In prefix ["fc"; "fd"; "fe8"; "fe9"; "fea"; "feb"] /\
    normalized = (prefix ++ rest)%string.

(** [Number] reads an octet written in decimal. *)
Definition reads_octets (Number : string -> Num) : Prop :=
  forall n : N, (n < 256)%N -> Number (Text.decimal n) = num (Z.of_N n).

(** A [Number] for the strings of digits; NaN elsewhere. *)
Definition digits_Number (s : string) : Num :=
  match NilEmpty.uint_of_string s with
  | Some digits => num (Z.of_N (N.of_uint digits))
  | None => NaN
  end.

End UrlSafety.

(** * Properties *)

Open Scope string_scope.

(* ------------------------------------------------------------------ *)
(** ** Text *)

Module TextFacts.
Import Text.

Lemma append_nil_r (s : string) : s ++ "" = s.
Proof. induction s; simpl; congruence. Qed.

Lemma append_assoc (a b c : string) : (a ++ b) ++ c = a ++ (b ++ c).
Proof. induction a; simpl; congruence. Qed.

Lemma length_append (a b : string) :
  String.length (a ++ b) = String.length a + String.length b.
Proof. induction a; simpl; congruence. Qed.

Lemma strip_prefix_app (p r : string) : strip_prefix p (p ++ r) = Some r.
Proof.
  induction p as [|c p IH]; simpl; [reflexivity|].
  now rewrite Ascii.eqb_refl.
Qed.

Lemma strip_prefix_inv (p s r : string) :
  strip_prefix p s = Some r -> s = p ++ r.
Proof.
  revert s; induction p as [|c p IH]; simpl; intros s H.
  - congruence.
  - destruct s as [|d s]; [discriminate|].
    destruct (Ascii.eqb_spec c d); [|discriminate].
    subst; f_equal; auto.
Qed.

Lemma startsWith_app (p r : string) : startsWith (p ++ r) p = true.
Proof. unfold startsWith; now rewrite strip_prefix_app. Qed.

Lemma includes_startsWith (s p : string) :
  startsWith s p = true -> includes s p = true.
Proof. intros H; destruct s; simpl; rewrite H; reflexivity. Qed.

Lemma includes_app (a p r : string) : includes (a ++ p ++ r) p = true.
Proof.
  induction a as [|c a IH]; simpl.
  - apply includes_startsWith, startsWith_app.
  - rewrite IH; apply orb_true_r.
Qed.

Lemma includes_inv (s p : string) :
  includes s p = true -> exists a r, s = a ++ p ++ r.
Proof.
  induction s as [|c s IH]; simpl; intros H.
  - rewrite orb_false_r in H. unfold startsWith in H.
    destruct (strip_prefix p "") as [r|] eqn:E; [|discriminate].
    exists "", r. exact (strip_prefix_inv _ _ _ E).
  - apply orb_true_iff in H as [H|H].
    + unfold startsWith in H.
      destruct (strip_prefix p (String c s)) as [r|] eqn:E; [|discriminate].
      exists "", r. exact (strip_prefix_inv _ _ _ E).
    + destruct (IH H) as (a & r & ->). now exists (String c a), r.
Qed.

Lemma toLowerCase_app (a b : string) :
  toLowerCase (a ++ b) = toLowerCase a ++ toLowerCase b.
Proof. induction a; simpl; congruence. Qed.

Lemma last_app (prev : option ascii) (a b : string) :
  last prev (a ++ b) = last (last prev a) b.
Proof. revert prev; induction a; simpl; auto. Qed.

End TextFacts.

(* ------------------------------------------------------------------ *)
(** ** What the denylist regexps match *)

Module RegexFacts.
Import Text Regex TextFacts Vocabulary.

Lemma is_word_ident_part (c : ascii) : is_word c = true -> is_ident_part c = true.
Proof.
  unfold is_word, is_ident_part; intros H.
  apply orb_true_iff; left. exact H.
Qed.

Lemma whole_identifier_whole_word (token text : string) :
  whole_identifier token text -> whole_word token text.
Proof.
  intros (pre & post & E & Hl & Hr). exists pre, post; repeat split; auto.
  - destruct (last None pre) as [c|]; simpl in *; auto.
    destruct (is_word c) eqn:W; auto. apply is_word_ident_part in W; congruence.
  - destruct (head post) as [c|]; simpl in *; auto.
    destruct (is_word c) eqn:W; auto. apply is_word_ident_part in W; congruence.
Qed.

(** The literal part of a bounded pattern followed by the closing [\b]. *)
Lemma match_literals (t : string) (prev : option ascii) (s : string) :
  match_here (map Lit (list_ascii_of_string t) ++ [WordBoundary])%list prev s
  = true
  <-> exists post, s = t ++ post /\ at_boundary (last prev t) post = true.
Proof.
  revert prev s; induction t as [|c t IH]; intros prev s; simpl.
  - rewrite andb_true_r. split.
    + intros H; now exists s.
    + now intros (post & -> & H).
  - destruct s as [|d s].
    + split; [discriminate|]. now intros (post & E & _).
    + rewrite andb_true_iff, IH. split.
      * intros (E & post & -> & H). apply Ascii.eqb_eq in E; subst.
        now exists post.
      * intros (post & E & H). injection E as -> ->.
        split; [apply Ascii.eqb_refl|]. now exists post.
Qed.

Lemma head_app_wordy (token post : string) :
  class_of is_word (head token) = true ->
  word_before (head (token ++ post)) = true.
Proof. destruct token; simpl; [discriminate|auto]. Qed.

Lemma last_wordy (token : string) (prev : option ascii) :
  class_of is_word (last None token) = true ->
  word_before (last prev token) = true.
Proof.
  destruct token as [|c t]; simpl; [discriminate|]. auto.
Qed.

Lemma match_bounded (token : string) (prev : option ascii) (s : string) :
  wordy token ->
  match_here (bounded token) prev s = true
  <-> exists post, s = token ++ post /\
                   word_before prev = false /\ word_before (head post) = false.
Proof.
  intros [Hh Hl]. unfold bounded.
  change (match_here (WordBoundary :: ?r) prev s)
    with (at_boundary prev s && match_here r prev s).
  rewrite andb_true_iff, match_literals. split.
  - intros (B & post & -> & B'). exists post. split; [reflexivity|].
    unfold at_boundary in *.
    rewrite (head_app_wordy _ _ Hh) in B. rewrite (last_wordy _ _ Hl) in B'.
    split.
    + now destruct (word_before prev).
    + now destruct (word_before (head post)).
  - intros (post & -> & P & Q). unfold at_boundary. split.
    + now rewrite (head_app_wordy _ _ Hh), P.
    + exists post. split; [reflexivity|]. now rewrite (last_wordy _ _ Hl), Q.
Qed.

Lemma search_spec (re : RegExp) (prev : option ascii) (s : string) :
  search re prev s = true
  <-> exists pre rest, s = pre ++ rest /\ match_here re (last prev pre) rest = true.
Proof.
  revert prev; induction s as [|c s IH]; intros prev; simpl.
  - rewrite orb_false_r. split.
    + intros H. now exists "", "".
    + intros (pre & rest & E & H). destruct pre; [|discriminate].
      simpl in *. now subst.
  - rewrite orb_true_iff, IH. split.
    + intros [H|(pre & rest & -> & H)].
      * now exists "", (String c s).
      * now exists (String c pre), rest.
    + intros (pre & rest & E & H). destruct pre as [|d pre]; simpl in *.
      * left. now subst.
      * right. injection E as -> ->. now exists pre, rest.
Qed.

(** [/\btoken\b/.test(text)] holds exactly when [token] occurs in [text] as
    a whole word. *)
Theorem test_bounded (token text : string) :
  wordy token ->
  test (bounded token) text = true <-> whole_word token text.
Proof.
  intros W. unfold test. rewrite search_spec. split.
  - intros (pre & rest & -> & H). apply (match_bounded _ _ _ W) in H.
    destruct H as (post & -> & P & Q). now exists pre, post.
  - intros (pre & post & -> & P & Q). exists pre, (token ++ post).
    split; [reflexivity|]. apply (match_bounded _ _ _ W). now exists post.
Qed.

Lemma delimited_here (cls : ascii -> bool) (token : string)
  (prev : option ascii) (s : string) :
  negb (class_of cls prev) &&
  match strip_prefix token s with
  | Some post => negb (class_of cls (head post))
  | None => false
  end = true
  <-> exists post, s = token ++ post /\ class_of cls prev = false /\
                   class_of cls (head post) = false.
Proof.
  rewrite andb_true_iff, negb_true_iff. split.
  - intros [P H]. destruct (strip_prefix token s) as [post|] eqn:E; [|discriminate].
    apply negb_true_iff in H. exists post.
    split; [exact (strip_prefix_inv _ _ _ E)|]. now split.
  - intros (post & -> & P & Q). split; [exact P|].
    rewrite strip_prefix_app. now apply negb_true_iff.
Qed.

Lemma delimitedb_spec (cls : ascii -> bool) (token : string)
  (prev : option ascii) (s : string) :
  delimitedb cls token prev s = true
  <-> exists pre post,
        s = pre ++ token ++ post /\
        class_of cls (last prev pre) = false /\
        class_of cls (head post) = false.
Proof.
  revert prev; induction s as [|c s IH]; intros prev;
    cbn [delimitedb]; rewrite orb_true_iff, delimited_here.
  - split.
    + intros [(post & E & P & Q)|H]; [|discriminate].
      now exists "", post.
    + intros (pre & post & E & P & Q). left.
      destruct pre; [|discriminate]. now exists post.
  - rewrite IH. split.
    + intros [(post & E & P & Q)|(pre & post & -> & P & Q)].
      * now exists "", post.
      * now exists (String c pre), post.
    + intros (pre & post & E & P & Q). destruct pre as [|d pre].
      * left. now exists post.
      * right. simpl in E. injection E as -> ->. now exists pre, post.
Qed.

Lemma delimited_decide (cls : ascii -> bool) (token text : string) :
  delimitedb cls token None text = true <-> delimited cls token text.
Proof. apply delimitedb_spec. Qed.

End RegexFacts.

(* ------------------------------------------------------------------ *)
(** ** Validation *)

Module ValidationFacts.
Import Text Regex TextFacts Vocabulary RegexFacts ScriptExecutorService.

Lemma BLOCKED_PATTERNS_denylist : BLOCKED_PATTERNS = map bounded denylist.
Proof. reflexivity. Qed.

Lemma denylist_wordy (t : string) : In t denylist -> wordy t.
Proof.
  simpl; intros H.
  repeat (destruct H as [<-|H]; [split; reflexivity|]). destruct H.
Qed.

Lemma forbidden_message_token (t : string) :
  In t denylist ->
  forbidden_message (bounded t) = "Script contains forbidden keyword: " ++ t.
Proof.
  simpl; intros H.
  repeat (destruct H as [<-|H]; [reflexivity|]). destruct H.
Qed.

Lemma first_blocked_some (tokens : list string) (code : string) (p : RegExp) :
  (forall t, In t tokens -> wordy t) ->
  first_blocked (map bounded tokens) code = Some p ->
  exists before t after,
    tokens = (before ++ t :: after)%list /\ p = bounded t /\
    whole_word t code /\
    forall u, In u before -> ~ whole_word u code.
Proof.
  intros W. induction tokens as [|t tokens IH]; simpl; [discriminate|].
  destruct (test (bounded t) code) eqn:T.
  - intros [= <-]. exists [], t, tokens.
    split; [reflexivity|]. split; [reflexivity|]. split.
    + apply test_bounded; auto. apply W; now left.
    + intros u [].
  - intros H.
    assert (W' : forall x, In x tokens -> wordy x) by (intros; apply W; now right).
    destruct (IH W' H) as (before & u & after & -> & -> & Hu & Hb).
    exists (t :: before), u, after.
    split; [reflexivity|]. split; [reflexivity|]. split; [exact Hu|].
    intros x [<-|Hx]; auto.
    intros Hw. apply test_bounded in Hw; [congruence|]. apply W; now left.
Qed.

Lemma first_blocked_none (tokens : list string) (code : string) :
  (forall t, In t tokens -> wordy t) ->
  first_blocked (map bounded tokens) code = None
  <-> forall t, In t tokens -> ~ whole_word t code.
Proof.
  intros W. induction tokens as [|t tokens IH]; simpl.
  - split; [intros _ t []|reflexivity].
  - assert (Wt : wordy t) by (apply W; now left).
    assert (W' : forall x, In x tokens -> wordy x) by (intros; apply W; now right).
    destruct (test (bounded t) code) eqn:T.
    + split; [discriminate|]. intros H. exfalso.
      apply (H t); [now left|]. now apply test_bounded.
    + rewrite (IH W'). split.
      * intros H x [<-|Hx]; auto.
        intros Hw. apply test_bounded in Hw; auto. congruence.
      * intros H x Hx. apply H. now right.
Qed.

Section WithRuntime.

Variable R : Runtime.

Lemma validate_too_large (code : string) :
  (MAX_SCRIPT_LENGTH < Text.length code)%N ->
  validateScript R code = throw R (HostError (too_large_message code)).
Proof.
  intros H. unfold validateScript.
  now apply N.ltb_lt in H as ->.
Qed.

Lemma validate_blocked (code : string) (p : RegExp) :
  (Text.length code <= MAX_SCRIPT_LENGTH)%N ->
  first_blocked BLOCKED_PATTERNS code = Some p ->
  validateScript R code = throw R (HostError (forbidden_message p)).
Proof.
  intros H E. unfold validateScript.
  apply N.ltb_ge in H as ->. now rewrite E.
Qed.

Lemma validate_ok (code : string) :
  (Text.length code <= MAX_SCRIPT_LENGTH)%N ->
  first_blocked BLOCKED_PATTERNS code = None ->
  validateScript R code = ret R tt.
Proof.
  intros H E. unfold validateScript.
  apply N.ltb_ge in H as ->. now rewrite E.
Qed.

(** A script the validator rejects: [execute] logs the message and returns
    it; nothing else happens. *)
Lemma execute_rejected (code : string) (data : JsValue R) (mode : Mode)
  (message : string) :
  validateScript R code = throw R (HostError message) ->
  execute R code data mode
  = (Normal (failure R message),
     [EvWarn ("Script execution failed: " ++ message)]).
Proof.
  intros H. unfold execute. rewrite H. reflexivity.
Qed.

(** A script within the size limit in which a denylisted token occurs as a
    whole word: [execute] reports the first such token of the denylist and
    does nothing else. *)
Lemma execute_blocked (code : string) (data : JsValue R) (mode : Mode)
  (token : string) :
  (Text.length code <= MAX_SCRIPT_LENGTH)%N ->
  In token denylist -> whole_word token code ->
  exists offending,
    first_offender code offending /\
    execute R code data mode
    = (Normal (failure R (forbidden_keyword_message offending)),
       [EvWarn ("Script execution failed: "
                  ++ forbidden_keyword_message offending)]).
Proof.
  intros Hsize Hin Hw.
  destruct (first_blocked BLOCKED_PATTERNS code) as [p|] eqn:E.
  - pose proof E as E'. rewrite BLOCKED_PATTERNS_denylist in E'.
    apply (first_blocked_some _ _ _ denylist_wordy) in E'.
    destruct E' as (before & t & after & D & -> & Ht & Hb).
    exists t. split; [now exists before, after|].
    apply execute_rejected. rewrite (validate_blocked code _ Hsize E).
    rewrite forbidden_message_token; [reflexivity|].
    rewrite D. apply in_or_app. right. now left.
  - rewrite BLOCKED_PATTERNS_denylist in E.
    pose proof (proj1 (first_blocked_none _ _ denylist_wordy) E) as N.
    now destruct (N token).
Qed.

End WithRuntime.

Lemma first_offender_in (code offending : string) :
  first_offender code offending ->
  In offending denylist /\ whole_word offending code.
Proof.
  intros (before & after & D & H & _). split; [|exact H].
  rewrite D. apply in_or_app. right. now left.
Qed.

Lemma forbidden_keyword_message_includes (offending : string) :
  includes (forbidden_keyword_message offending) "forbidden keyword" = true /\
  includes (forbidden_keyword_message offending) offending = true.
Proof.
  split.
  - exact (includes_app "Script contains " "forbidden keyword" _).
  - unfold forbidden_keyword_message.
    rewrite <- (append_nil_r offending) at 1.
    exact (includes_app "Script contains forbidden keyword: " offending "").
Qed.

End ValidationFacts.

(* ------------------------------------------------------------------ *)
(** ** [execute] against the pipeline *)

Module ExecuteFacts.
Import Text ScriptExecutorService Pipeline.

Section WithRuntime.

Variable R : Runtime.

Lemma validateScript_cases (code : string) :
  validateScript R code = ret R tt \/
  exists message, validateScript R code = throw R (HostError message)
                  /\ message <> "".
Proof.
  unfold validateScript.
  destruct (MAX_SCRIPT_LENGTH <? Text.length code)%N.
  - right. eexists. split; [reflexivity|]. discriminate.
  - destruct (first_blocked BLOCKED_PATTERNS code).
    + right. eexists. split; [reflexivity|]. discriminate.
    + now left.
Qed.

(** What a [catch] clause of the service makes of the value it caught. *)
Definition caught (e : Thrown (JsValue R))
  : completion (JsValue R) (ScriptResult (JsValue R)) :=
  match e with
  | HostError message => Normal (failure R message)
  | Other v =>
      match js_String R v with
      | Normal message => Normal (failure R message)
      | Throw e' => Throw e'
      end
  end.

(** [execute] without the trace. *)
Definition wrapped_outcome (context : Context R) (mode : Mode) (code : string)
  : completion (JsValue R) (ScriptResult (JsValue R)) :=
  match new_Script R (wrapped_source mode code) with
  | Throw e => caught e
  | Normal script =>
      match runInContext R script context TIMEOUT_MS with
      | Threw e => caught e
      | Completed v _ => Normal (result_of R mode v)
      end
  end.

Definition body_outcome (code : string) (data : JsValue R) (mode : Mode)
  : completion (JsValue R) (ScriptResult (JsValue R)) :=
  match fst (validateScript R code) with
  | Throw e => Throw e
  | Normal _ =>
      match JSON_stringify R (coalesce_null R data) with
      | Throw e => Throw e
      | Normal dataJson =>
          match new_Script R (initSource dataJson) with
          | Throw e => Throw e
          | Normal init =>
              match runInContext R init (scrubbed R (createContext R))
                      TIMEOUT_MS with
              | Threw e => Throw e
              | Completed _ context => wrapped_outcome context mode code
              end
          end
      end
  end.

Lemma fst_bind {A B} (m : M R A) (k : A -> M R B) :
  fst (bind R m k)
  = match fst m with
    | Normal a => fst (k a)
    | Throw e => Throw e
    end.
Proof. destruct m as [[a|e] t]; cbn; [now destruct (k a)|reflexivity]. Qed.

Lemma fst_try_catch {A} (m : M R A) (h : Thrown (JsValue R) -> M R A) :
  fst (try_catch R m h)
  = match fst m with
    | Normal a => Normal a
    | Throw e => fst (h e)
    end.
Proof. destruct m as [[a|e] t]; cbn; [reflexivity|now destruct (h e)]. Qed.

Lemma fst_convert (e : Thrown (JsValue R)) :
  fst (bind R (errorMessage R e) (fun message => ret R (failure R message)))
  = caught e.
Proof.
  rewrite fst_bind. destruct e as [m|v]; cbn; [reflexivity|].
  now destruct (js_String R v).
Qed.

Lemma fst_report (e : Thrown (JsValue R)) :
  fst (bind R (errorMessage R e)
         (fun message =>
            bind R (emit R (EvWarn ("Script execution failed: " ++ message)))
              (fun _ => ret R (failure R message))))
  = caught e.
Proof.
  rewrite fst_bind. destruct e as [m|v]; cbn; [reflexivity|].
  now destruct (js_String R v).
Qed.

Lemma fst_run_wrapped (context : Context R) (source : string)
  (ok : JsValue R -> ScriptResult (JsValue R)) :
  fst (try_catch R
         (bind R (compile R source)
            (fun script =>
               bind R (run R script context) (fun r => ret R (ok (fst r)))))
         (fun e => bind R (errorMessage R e)
                     (fun message => ret R (failure R message))))
  = match new_Script R source with
    | Throw e => caught e
    | Normal script =>
        match runInContext R script context TIMEOUT_MS with
        | Threw e => caught e
        | Completed v _ => Normal (ok v)
        end
    end.
Proof.
  rewrite fst_try_catch. unfold compile, run. rewrite !fst_bind.
  cbn [emit fst lift].
  destruct (new_Script R source) as [script|e]; [|apply fst_convert].
  rewrite !fst_bind. cbn [emit fst].
  destruct (runInContext R script context TIMEOUT_MS) as [v ctx|e];
    [reflexivity|apply fst_convert].
Qed.

Lemma fst_executeValueMode (context : Context R) (code : string) :
  fst (executeValueMode R context code) = wrapped_outcome context ValueMode code.
Proof.
  exact (fst_run_wrapped context (valueWrapper code)
           (fun v => mkResult true (Some v) None None)).
Qed.

Lemma fst_executeTemplateMode (context : Context R) (code : string) :
  fst (executeTemplateMode R context code)
  = wrapped_outcome context TemplateMode code.
Proof.
  exact (fst_run_wrapped context
           (templateWrapper code (collectVarsCode (extractVariableNames code)))
           (fun v => mkResult true None (Some v) None)).
Qed.

Lemma fst_execute (code : string) (data : JsValue R) (mode : Mode) :
  fst (execute R code data mode)
  = match body_outcome code data mode with
    | Normal r => Normal r
    | Throw e => caught e
    end.
Proof.
  unfold execute, body_outcome. rewrite fst_try_catch, fst_bind.
  destruct (fst (validateScript R code)) as [[]|e]; [|apply fst_report].
  rewrite !fst_bind. cbn [emit fst lift].
  destruct (JSON_stringify R (coalesce_null R data)) as [dataJson|e];
    [|apply fst_report].
  unfold compile, run. rewrite !fst_bind. cbn [emit fst lift].
  destruct (new_Script R (initSource dataJson)) as [init|e];
    [|apply fst_report].
  rewrite !fst_bind. cbn [emit fst lift].
  destruct (runInContext R init (scrubbed R (createContext R)) TIMEOUT_MS)
    as [v0 context|e]; [|apply fst_report].
  cbn [ret fst snd].
  destruct mode;
    [rewrite fst_executeValueMode|rewrite fst_executeTemplateMode];
    (destruct (wrapped_outcome context _ code) as [r|e];
     [reflexivity|apply fst_report]).
Qed.

Lemma caught_message (e : Thrown (JsValue R)) :
  caught e = match message_of R e with
             | Some message => Normal (failure R message)
             | None =>
                 match e with
                 | Other v =>
                     match js_String R v with
                     | Throw e' => Throw e'
                     | Normal message => Normal (failure R message)
                     end
                 | HostError message => Normal (failure R message)
                 end
             end.
Proof.
  destruct e as [m|v]; cbn; [reflexivity|]. now destruct (js_String R v).
Qed.

(** How a call ends, stage by stage: a call that succeeds returns the
    stage's result; a call that fails at some stage returns the failure
    result with the message of what was caught; when converting the caught
    value to a string throws, that throw is caught once more (a failure in
    the wrapped script) or leaves [execute]. *)
Inductive ends (code : string) (data : JsValue R) (mode : Mode)
  : completion (JsValue R) (ScriptResult (JsValue R)) -> Prop :=
| ends_succeeded r :
    stage R code data mode = Succeeded r ->
    success r = true -> error r = None ->
    ends code data mode (Normal r)
| ends_failed cls e message :
    stage R code data mode = Failed cls e ->
    message_of R e = Some message ->
    (cls = ValidationRejected -> message <> "") ->
    ends code data mode (Normal (failure R message))
| ends_conversion_threw cls e c :
    stage R code data mode = Failed cls e ->
    message_of R e = None ->
    ends code data mode c.

Lemma caught_ends (code : string) (data : JsValue R) (mode : Mode)
  (cls : FailureClass) (e : Thrown (JsValue R)) :
  stage R code data mode = Failed cls e ->
  (cls = ValidationRejected -> exists m, e = HostError m /\ m <> "") ->
  ends code data mode (caught e).
Proof.
  intros Hs Hv. destruct (message_of R e) as [m|] eqn:Hm.
  - rewrite caught_message, Hm. eapply ends_failed; eauto.
    intros ->. destruct (Hv eq_refl) as (m' & -> & N). cbn in Hm.
    now injection Hm as <-.
  - eapply ends_conversion_threw; eauto.
Qed.

Lemma execute_ends (code : string) (data : JsValue R) (mode : Mode) :
  ends code data mode (fst (execute R code data mode)).
Proof.
  rewrite fst_execute. unfold body_outcome.
  destruct (validateScript_cases code) as [V|(m & V & N)].
  2:{ rewrite V. cbn [fst throw]. apply (caught_ends _ _ _ ValidationRejected).
      - unfold stage. now rewrite V.
      - intros _. now exists m. }
  rewrite V. cbn [fst ret].
  destruct (JSON_stringify R (coalesce_null R data)) as [dataJson|e] eqn:J.
  2:{ apply (caught_ends _ _ _ SerializationFailed); [|discriminate].
      unfold stage. now rewrite V, J. }
  destruct (new_Script R (initSource dataJson)) as [init|e] eqn:C.
  2:{ apply (caught_ends _ _ _ CompileFailed); [|discriminate].
      unfold stage. now rewrite V, J, C. }
  destruct (runInContext R init (scrubbed R (createContext R)) TIMEOUT_MS)
    as [v0 context|e] eqn:I.
  2:{ apply (caught_ends _ _ _ RunFailed); [|discriminate].
      unfold stage. now rewrite V, J, C, I. }
  assert (St : stage R code data mode
               = run_wrapped R context (wrapped_source mode code)
                   (result_of R mode)).
  { unfold stage. now rewrite V, J, C, I. }
  unfold run_wrapped in St. unfold wrapped_outcome.
  destruct (new_Script R (wrapped_source mode code)) as [script|e] eqn:C'.
  - destruct (runInContext R script context TIMEOUT_MS) as [v ctx'|e] eqn:Rn.
    + eapply ends_succeeded; eauto; now destruct mode.
    + destruct (message_of R e) as [m|] eqn:Hm.
      * rewrite caught_message, Hm. eapply ends_failed; eauto. discriminate.
      * eapply ends_conversion_threw; eauto.
  - destruct (message_of R e) as [m|] eqn:Hm.
    + rewrite caught_message, Hm. eapply ends_failed; eauto. discriminate.
    + eapply ends_conversion_threw; eauto.
Qed.

Lemma caught_normal (e : Thrown (JsValue R)) (r : ScriptResult (JsValue R)) :
  caught e = Normal r -> exists message, r = failure R message.
Proof.
  destruct e as [m|v]; cbn.
  - intros [= <-]. now exists m.
  - destruct (js_String R v) as [m|e']; [|discriminate].
    intros [= <-]. now exists m.
Qed.

(** Every result [execute] returns is a failure result or the success
    result of its mode. *)
Lemma execute_shape (code : string) (data : JsValue R) (mode : Mode)
  (r : ScriptResult (JsValue R)) :
  fst (execute R code data mode) = Normal r ->
  (exists message, r = failure R message) \/
  (exists v, r = result_of R mode v).
Proof.
  rewrite fst_execute.
  destruct (body_outcome code data mode) as [r'|e] eqn:B.
  2:{ intros H. left. exact (caught_normal _ _ H). }
  intros [= ->]. unfold body_outcome in B.
  destruct (fst (validateScript R code)); [|discriminate].
  destruct (JSON_stringify R (coalesce_null R data)) as [dataJson|];
    [|discriminate].
  destruct (new_Script R (initSource dataJson)) as [init|]; [|discriminate].
  destruct (runInContext R init (scrubbed R (createContext R)) TIMEOUT_MS)
    as [v0 context|]; [|discriminate].
  unfold wrapped_outcome in B.
  destruct (new_Script R (wrapped_source mode code)) as [script|e].
  - destruct (runInContext R script context TIMEOUT_MS) as [v ctx|e].
    + injection B as <-. right. now exists v.
    + left. exact (caught_normal _ _ B).
  - left. exact (caught_normal _ _ B).
Qed.

(** A call in which validation, serialisation, both compilations and the
    data injection succeed: what it returns and everything it does. *)
Lemma execute_runs (code : string) (data : JsValue R) (mode : Mode)
  (dataJson : option string) (init script : Script R) (v0 : JsValue R)
  (context : Context R) :
  validateScript R code = ret R tt ->
  JSON_stringify R (coalesce_null R data) = Normal dataJson ->
  new_Script R (initSource dataJson) = Normal init ->
  runInContext R init (scrubbed R (createContext R)) TIMEOUT_MS
  = Completed v0 context ->
  new_Script R (wrapped_source mode code) = Normal script ->
  match runInContext R script context TIMEOUT_MS with
  | Completed v _ =>
      execute R code data mode
      = (Normal (result_of R mode v), full_trace dataJson mode code)
  | Threw e =>
      forall message,
        message_of R e = Some message ->
        execute R code data mode
        = (Normal (failure R message), full_trace dataJson mode code)
  end.
Proof.
  intros V J C I C'.
  unfold execute, executeValueMode, executeTemplateMode, compile, run.
  rewrite V. cbn -[scrubbed TIMEOUT_MS initSource valueWrapper templateWrapper
                   collectVarsCode extractVariableNames].
  rewrite J. cbn -[scrubbed TIMEOUT_MS initSource valueWrapper templateWrapper
                   collectVarsCode extractVariableNames].
  rewrite C. cbn -[scrubbed TIMEOUT_MS initSource valueWrapper templateWrapper
                   collectVarsCode extractVariableNames].
  rewrite I. cbn -[scrubbed TIMEOUT_MS initSource valueWrapper templateWrapper
                   collectVarsCode extractVariableNames].
  destruct mode; cbn [wrapped_source] in C' |- *; rewrite C';
    cbn -[scrubbed TIMEOUT_MS initSource valueWrapper templateWrapper
          collectVarsCode extractVariableNames];
    (destruct (runInContext R script context TIMEOUT_MS) as [v ctx|[m|v]];
     [reflexivity
     |intros message [= <-]; reflexivity
     |intros message H; cbn in H |- *;
      destruct (js_String R v) as [m|e]; [|discriminate];
      injection H as <-; reflexivity]).
Qed.

End WithRuntime.

End ExecuteFacts.

(* ------------------------------------------------------------------ *)
(** ** The declared-variable scan *)

Module ScanFacts.
Import Text TextFacts Vocabulary ScriptExecutorService.

Lemma span_spec (cls : ascii -> bool) (s a b : string) :
  span cls s = (a, b) ->
  s = a ++ b /\ all_chars cls a = true /\ class_of cls (head b) = false.
Proof.
  revert a b; induction s as [|c s IH]; simpl; intros a b.
  - intros [= <- <-]. auto.
  - destruct (cls c) eqn:C.
    + destruct (span cls s) as [a' b'] eqn:E. intros [= <- <-].
      destruct (IH _ _ eq_refl) as (-> & A & B). simpl. rewrite C. auto.
    + intros [= <- <-]. simpl. auto.
Qed.

Lemma span_app (cls : ascii -> bool) (a b : string) :
  all_chars cls a = true -> class_of cls (head b) = false ->
  span cls (a ++ b) = (a, b).
Proof.
  intros A B. induction a as [|c a IH]; simpl in *.
  - destruct b as [|d b]; simpl in *; [reflexivity|now rewrite B].
  - apply andb_true_iff in A as [C A]. now rewrite C, IH.
Qed.

Lemma ident_start_not_space (c : ascii) :
  is_ident_start c = true -> is_space c = false.
Proof.
  destruct c as [[] [] [] [] [] [] [] []]; vm_compute; congruence.
Qed.

Lemma ident_start_part (c : ascii) :
  is_ident_start c = true -> is_ident_part c = true.
Proof.
  destruct c as [[] [] [] [] [] [] [] []]; vm_compute; congruence.
Qed.

Lemma spaces_then_name_spec (s name : string) (len : nat) :
  spaces_then_name s = Some (name, len) ->
  exists ws post,
    s = ws ++ name ++ post /\ ws <> "" /\ all_chars is_space ws = true /\
    is_identifier name /\ class_of is_ident_part (head post) = false /\
    len = String.length ws + String.length name.
Proof.
  unfold spaces_then_name.
  destruct (span is_space s) as [ws r] eqn:E.
  destruct (span_spec _ _ _ _ E) as (-> & W & _).
  destruct ws as [|w ws]; [discriminate|].
  destruct r as [|c r]; [discriminate|].
  destruct (is_ident_start c) eqn:C; [|discriminate].
  destruct (span is_ident_part r) as [a post] eqn:E'.
  destruct (span_spec _ _ _ _ E') as (-> & A & P).
  cbn [fst]. intros [= <- <-].
  exists (String w ws), post. repeat split; auto. discriminate.
Qed.

Lemma spaces_then_name_app (ws name post : string) :
  ws <> "" -> all_chars is_space ws = true -> is_identifier name ->
  class_of is_ident_part (head post) = false ->
  spaces_then_name (ws ++ name ++ post)
  = Some (name, String.length ws + String.length name).
Proof.
  intros N W I P. unfold spaces_then_name.
  destruct name as [|c rest]; [destruct I|]. destruct I as [C A].
  rewrite (span_app is_space ws (String c rest ++ post) W)
    by (simpl; now apply ident_start_not_space).
  destruct ws as [|w ws]; [congruence|].
  cbn [append]. rewrite C. now rewrite (span_app _ _ _ A P).
Qed.

Lemma keyword_then_name_spec (kw s name : string) (len : nat) :
  keyword_then_name kw s = Some (name, len) ->
  exists ws post,
    s = kw ++ ws ++ name ++ post /\ ws <> "" /\ all_chars is_space ws = true /\
    is_identifier name /\ class_of is_ident_part (head post) = false /\
    len = String.length kw + (String.length ws + String.length name).
Proof.
  unfold keyword_then_name.
  destruct (strip_prefix kw s) as [r|] eqn:E; [|discriminate].
  apply strip_prefix_inv in E as ->.
  destruct (spaces_then_name r) as [[n l]|] eqn:E'; [|discriminate].
  intros [= <- <-].
  destruct (spaces_then_name_spec _ _ _ E') as (ws & post & -> & H).
  exists ws, post. intuition congruence.
Qed.

(** What one match of [varRegex] is. *)
Lemma match_declaration_spec (s name : string) (len : nat) :
  match_declaration s = Some (name, len) ->
  exists kw ws post,
    s = kw ++ ws ++ name ++ post /\ In kw declaration_keywords /\
    ws <> "" /\ all_chars is_space ws = true /\
    is_identifier name /\ class_of is_ident_part (head post) = false /\
    len = String.length kw + (String.length ws + String.length name).
Proof.
  unfold match_declaration, declaration_keywords.
  destruct (keyword_then_name "var" s) as [m|] eqn:E1.
  { intros [= ->]. destruct (keyword_then_name_spec _ _ _ _ E1) as (ws & post & H).
    exists "var", ws, post. simpl In. intuition. }
  destruct (keyword_then_name "let" s) as [m|] eqn:E2.
  { intros [= ->]. destruct (keyword_then_name_spec _ _ _ _ E2) as (ws & post & H).
    exists "let", ws, post. simpl In. intuition. }
  intros E3. destruct (keyword_then_name_spec _ _ _ _ E3) as (ws & post & H).
  exists "const", ws, post. simpl In. intuition.
Qed.

(** Where a declaration starts, [varRegex] matches and captures its
    name. *)
Lemma match_declaration_app (kw ws name post : string) :
  In kw declaration_keywords ->
  ws <> "" -> all_chars is_space ws = true -> is_identifier name ->
  class_of is_ident_part (head post) = false ->
  match_declaration (kw ++ ws ++ name ++ post)
  = Some (name, String.length kw + (String.length ws + String.length name)).
Proof.
  intros K N W I P.
  pose proof (spaces_then_name_app ws name post N W I P) as E.
  simpl in K. destruct K as [<-|[<-|[<-|[]]]];
    unfold match_declaration, keyword_then_name; cbn [strip_prefix append];
    cbn; now rewrite E.
Qed.

Lemma exec_all_sound (s : string) (skip : nat) (name : string) :
  In name (exec_all skip s) ->
  exists pre rest len,
    s = pre ++ rest /\ match_declaration rest = Some (name, len).
Proof.
  revert skip; induction s as [|c s IH]; intros skip; cbn [exec_all];
    [intros []|].
  assert (Later : forall k, In name (exec_all k s) ->
            exists pre rest len,
              String c s = pre ++ rest /\ match_declaration rest = Some (name, len)).
  { intros k H. destruct (IH _ H) as (pre & rest & len & -> & M).
    now exists (String c pre), rest, len. }
  destruct skip as [|k]; [|apply Later].
  destruct (match_declaration (String c s)) as [[n len]|] eqn:M; [|apply Later].
  intros [<-|H]; [|now apply (Later _ H)].
  now exists "", (String c s), len.
Qed.

(** Every name the scan lists follows a declaration keyword in the code. *)
Lemma exec_all_declares (code name : string) :
  In name (exec_all O code) -> declares code name.
Proof.
  intros H. destruct (exec_all_sound _ _ _ H) as (pre & rest & len & -> & M).
  destruct (match_declaration_spec _ _ _ M)
    as (kw & ws & post & -> & K & N & W & I & P & _).
  now exists pre, kw, ws, post.
Qed.

Lemma set_values_spec (seen names : list string) (x : string) :
  In x (set_values seen names) <-> In x names /\ ~ In x seen.
Proof.
  revert seen; induction names as [|y names IH]; intros seen; simpl.
  - tauto.
  - destruct (existsb (String.eqb y) seen) eqn:E.
    + rewrite IH. apply existsb_exists in E as (z & Hz & Ez).
      apply String.eqb_eq in Ez as <-. split; [tauto|].
      intros [[<-|H] N]; [contradiction|tauto].
    + assert (Ny : ~ In y seen).
      { intros H. apply Bool.not_true_iff_false in E. apply E.
        apply existsb_exists. exists y. split; [exact H|apply String.eqb_refl]. }
      simpl. rewrite IH. simpl. split.
      * intros [<-|[H N]]; [tauto|]. split; [tauto|]. tauto.
      * intros [[<-|H] N]; [tauto|].
        destruct (string_dec y x) as [->|D]; [tauto|]. right. split; [exact H|].
        intros [->|H']; tauto.
Qed.

Lemma set_values_NoDup (seen names : list string) :
  NoDup (set_values seen names).
Proof.
  revert seen; induction names as [|y names IH]; intros seen; simpl.
  - constructor.
  - destruct (existsb (String.eqb y) seen); [apply IH|].
    constructor; [|apply IH].
    rewrite set_values_spec. simpl. tauto.
Qed.

(** The names [extractVariableNames] returns: without repetition, none
    with the prefix [__], and exactly the unprefixed names the scan lists. *)
Lemma extractVariableNames_spec (code : string) :
  NoDup (extractVariableNames code) /\
  forall name,
    In name (extractVariableNames code)
    <-> In name (exec_all O code) /\ startsWith name "__" = false.
Proof.
  unfold extractVariableNames. split; [apply set_values_NoDup|].
  intros name. rewrite set_values_spec, filter_In, negb_true_iff. simpl. tauto.
Qed.

Lemma app_split (a b c d : string) :
  a ++ b = c ++ d ->
  (exists e, c = a ++ e /\ b = e ++ d) \/
  (exists e, e <> "" /\ a = c ++ e /\ d = e ++ b).
Proof.
  revert c. induction a as [|x a IH]; intros c H.
  - left. exists c. now split.
  - destruct c as [|y c].
    + right. exists (String x a). cbn in *. repeat split; congruence.
    + cbn in H. injection H as -> H. destruct (IH _ H) as [(e & -> & ->)|(e & N & -> & ->)].
      * left. now exists e.
      * right. now exists e.
Qed.

Lemma all_chars_app (cls : ascii -> bool) (a b : string) :
  all_chars cls (a ++ b) = all_chars cls a && all_chars cls b.
Proof. induction a as [|c a IH]; cbn; [reflexivity|]. now rewrite IH, andb_assoc. Qed.

Lemma all_chars_last (cls : ascii -> bool) (a : string) (prev : option ascii) :
  all_chars cls a = true -> a <> "" -> class_of cls (last prev a) = true.
Proof.
  revert prev. induction a as [|c a IH]; intros prev H N; [congruence|].
  cbn in H. apply andb_true_iff in H as [Hc Ha]. cbn [last].
  destruct a as [|d a']; [exact Hc|]. apply IH; [exact Ha|discriminate].
Qed.

Lemma all_chars_head (cls : ascii -> bool) (a : string) :
  all_chars cls a = true -> a <> "" -> class_of cls (head a) = true.
Proof.
  destruct a as [|c a]; [congruence|]. cbn. intros H _.
  now apply andb_true_iff in H as [Hc _].
Qed.

Lemma last_nonempty (prev : option ascii) (a b : string) :
  b <> "" -> last prev (a ++ b) = last None b.
Proof.
  intros N. rewrite last_app. destruct b as [|c b]; [congruence|]. reflexivity.
Qed.

Lemma head_app (a b : string) : a <> "" -> head (a ++ b) = head a.
Proof. destruct a; [congruence|reflexivity]. Qed.

Lemma keyword_chars (kw : string) :
  In kw declaration_keywords ->
  kw <> "" /\ all_chars is_ident_part kw = true /\
  class_of is_space (head kw) = false.
Proof.
  intros [<-|[<-|[<-|[]]]]; (split; [discriminate|split; reflexivity]).
Qed.

Lemma identifier_chars (name : string) :
  is_identifier name -> name <> "" /\ all_chars is_ident_part name = true.
Proof.
  destruct name as [|c r]; [intros []|]. intros [S P]. split; [discriminate|].
  cbn. now rewrite (ident_start_part _ S).
Qed.

(** A match of the declaration regexp that starts before a declaration
    standing apart ends before it. *)
Lemma match_before_declaration (b kw ws name post n : string) (len : nat) :
  b <> "" ->
  class_of is_ident_part (last None b) = false ->
  ~ ends_with_keyword b ->
  In kw declaration_keywords ->
  match_declaration (b ++ kw ++ ws ++ name ++ post) = Some (n, len) ->
  len <= String.length b.
Proof.
  intros Nb Lb Eb K M.
  destruct (match_declaration_spec _ _ _ M)
    as (kw' & ws' & post' & E & K' & Nw & W & I & P & ->).
  destruct (keyword_chars _ K) as (Nk & _ & Hk).
  destruct (keyword_chars _ K') as (Nk' & Ck' & _).
  destruct (identifier_chars _ I) as (Nn & Cn).
  assert (Hd : forall e r, e <> "" -> all_chars is_space e = true ->
                 kw ++ ws ++ name ++ post = e ++ r -> False).
  { intros e r Ne We Q. pose proof (all_chars_head _ _ We Ne) as H.
    rewrite <- (head_app e r Ne), <- Q, (head_app _ _ Nk) in H. congruence. }
  destruct (app_split _ _ _ _ E) as [(e & -> & Q)|(e1 & N1 & -> & Q1)].
  - (* the keyword of the match ends at or after the end of [b] *)
    exfalso. rewrite all_chars_app in Ck'. apply andb_true_iff in Ck' as [Cb _].
    pose proof (all_chars_last _ _ None Cb Nb). congruence.
  - symmetry in Q1. destruct (app_split _ _ _ _ Q1) as [(e & -> & Q)|(e2 & N2 & -> & Q2)].
    + (* [b] ends inside the white space *)
      exfalso. rewrite all_chars_app in W. apply andb_true_iff in W as [W1 W2].
      destruct e as [|c e].
      * rewrite append_nil_r in *. apply Eb. now exists "", kw', e1.
      * apply (Hd (String c e) (n ++ post')); [discriminate|exact W2|exact Q].
    + symmetry in Q2.
      destruct (app_split _ _ _ _ Q2) as [(e & -> & Q)|(e3 & N3 & -> & Q3)].
      * (* [b] ends inside the name *)
        exfalso. rewrite all_chars_app in Cn. apply andb_true_iff in Cn as [C2 _].
        pose proof (all_chars_last _ _ None C2 N2) as H.
        rewrite <- (last_nonempty None (kw' ++ ws') e2 N2) in H.
        rewrite append_assoc in H. congruence.
      * rewrite !length_append. lia.
Qed.

(** The scan passes over a prefix in which every match ends. *)
Lemma exec_all_passes (pre rest name : string) (skip : nat) :
  skip <= String.length pre ->
  (forall a b n len,
     pre = a ++ b -> b <> "" ->
     match_declaration (b ++ rest) = Some (n, len) -> len <= String.length b) ->
  In name (exec_all O rest) ->
  In name (exec_all skip (pre ++ rest)).
Proof.
  revert skip. induction pre as [|c pre IH]; intros skip S H I.
  - cbn in S. now replace skip with O by lia.
  - assert (H' : forall a b n len,
               pre = a ++ b -> b <> "" ->
               match_declaration (b ++ rest) = Some (n, len) ->
               len <= String.length b).
    { intros a b n len -> Nb M. exact (H (String c a) b n len eq_refl Nb M). }
    cbn [append exec_all]. cbn in S. destruct skip as [|k].
    + destruct (match_declaration (String c (pre ++ rest))) as [[n len]|] eqn:M.
      * pose proof (H "" (String c pre) n len eq_refl ltac:(discriminate) M) as L.
        cbn in L. right. apply IH; [lia|exact H'|exact I].
      * apply IH; [lia|exact H'|exact I].
    + apply IH; [lia|exact H'|exact I].
Qed.

(** The scan finds every declaration that stands apart. *)
Lemma exec_all_complete (code name : string) :
  declares_apart code name -> In name (exec_all O code).
Proof.
  intros (pre & kw & ws & post & -> & K & N & W & I & P & L & E).
  apply exec_all_passes; [lia| |].
  - intros a b n len -> Nb M.
    apply (match_before_declaration b kw ws name post n len Nb); auto.
    + now rewrite <- (last_nonempty None a b Nb).
    + intros (p & kw' & ws' & -> & K' & N' & W'). apply E.
      exists (a ++ p), kw', ws'. rewrite !append_assoc. now repeat split.
  - pose proof (match_declaration_app kw ws name post K N W I P) as M.
    destruct (keyword_chars _ K) as (Nk & _).
    destruct kw as [|k kw]; [congruence|].
    cbn [append exec_all] in *. rewrite M. now left.
Qed.

Lemma extractVariableNames_complete (code name : string) :
  declares_apart code name -> startsWith name "__" = false ->
  In name (extractVariableNames code).
Proof.
  intros D S. apply extractVariableNames_spec. split; [|exact S].
  now apply exec_all_complete.
Qed.

Lemma ends_with_keywordb_here (kw ws : string) :
  In kw declaration_keywords -> ws <> "" -> all_chars is_space ws = true ->
  ends_with_keywordb (kw ++ ws) = true.
Proof.
  intros K N W.
  assert (H : existsb (fun kw' => match strip_prefix kw' (kw ++ ws) with
                                  | Some ws' => negb (ws' =? "") && all_chars is_space ws'
                                  | None => false
                                  end) declaration_keywords = true).
  { apply existsb_exists. exists kw. split; [exact K|].
    rewrite strip_prefix_app, W. apply String.eqb_neq in N. now rewrite N. }
  destruct (kw ++ ws); cbn [ends_with_keywordb]; now rewrite H.
Qed.

Lemma ends_with_keyword_decide (text : string) :
  ends_with_keyword text <-> ends_with_keywordb text = true.
Proof.
  split.
  - intros (pre & kw & ws & -> & K & N & W).
    induction pre as [|c pre IH]; cbn [append].
    + now apply ends_with_keywordb_here.
    + cbn [ends_with_keywordb]. rewrite IH. apply orb_true_r.
  - induction text as [|c text IH]; cbn [ends_with_keywordb]; intros H;
      apply orb_true_iff in H as [H|H].
    1,3: apply existsb_exists in H as (kw & K & H);
      destruct (strip_prefix kw _) as [ws|] eqn:E; [|discriminate];
      apply andb_true_iff in H as [N W]; apply negb_true_iff in N;
      apply String.eqb_neq in N; apply strip_prefix_inv in E;
      exists "", kw, ws; now repeat split.
    + discriminate.
    + destruct (IH H) as (pre & kw & ws & -> & R). now exists (String c pre), kw, ws.
Qed.

(** *** The scan as a relation *)

Lemma exec_all_skip (pre rest : string) :
  exec_all (String.length pre) (pre ++ rest) = exec_all O rest.
Proof. induction pre as [|c pre IH]; [reflexivity|exact IH]. Qed.

Lemma exec_all_match (kw ws name post : string) :
  In kw declaration_keywords ->
  ws <> "" -> all_chars is_space ws = true -> is_identifier name ->
  class_of is_ident_part (head post) = false ->
  exec_all O (kw ++ ws ++ name ++ post) = name :: exec_all O post.
Proof.
  intros K N W I P.
  pose proof (match_declaration_app kw ws name post K N W I P) as M.
  destruct (keyword_chars _ K) as (Nk & _).
  destruct kw as [|k kw]; [congruence|].
  cbn [append exec_all] in *. rewrite M. f_equal.
  cbn [String.length Nat.add pred].
  rewrite <- !length_append, <- (exec_all_skip (kw ++ ws ++ name) post).
  now rewrite !append_assoc.
Qed.

Lemma exec_all_pass (c : ascii) (text : string) :
  ~ starts_declaration (String c text) ->
  exec_all O (String c text) = exec_all O text.
Proof.
  intros H. cbn [exec_all].
  destruct (match_declaration (String c text)) as [[name len]|] eqn:M;
    [|reflexivity].
  exfalso. apply H.
  destruct (match_declaration_spec _ _ _ M)
    as (kw & ws & post & E & K & N & W & I & P & _).
  now exists kw, ws, name, post.
Qed.

(** The loop of [extractVariableNames] lists what the scan lists. *)
Lemma scan_exec_all (text : string) (names : list string) :
  scan text names -> names = exec_all O text.
Proof.
  induction 1 as [|c text names H _ IH|kw ws name post names K N W I P _ IH].
  - reflexivity.
  - now rewrite exec_all_pass.
  - now rewrite exec_all_match, IH.
Qed.

Lemma exec_all_scan (text : string) : scan text (exec_all O text).
Proof.
  remember (String.length text) as n eqn:L.
  assert (B : String.length text <= n) by lia. clear L.
  revert text B. induction n as [|n IH]; intros text B.
  - destruct text; [constructor|cbn in B; lia].
  - destruct text as [|c text]; [constructor|].
    destruct (match_declaration (String c text)) as [[name len]|] eqn:M.
    + destruct (match_declaration_spec _ _ _ M)
        as (kw & ws & post & E & K & N & W & I & P & _).
      rewrite E, (exec_all_match kw ws name post K N W I P).
      apply scan_match; try assumption. apply IH.
      destruct (keyword_chars _ K) as (Nk & _).
      assert (L : String.length (String c text)
                  = String.length kw + String.length ws + String.length name
                    + String.length post)
        by (rewrite E, !length_append; lia).
      destruct kw; [congruence|]. cbn [String.length] in *. lia.
    + assert (H : ~ starts_declaration (String c text)).
      { intros (kw & ws & name & post & E & K & N & W & I & P).
        rewrite E, (match_declaration_app kw ws name post K N W I P) in M.
        discriminate. }
      rewrite (exec_all_pass _ _ H). apply scan_pass; [exact H|].
      apply IH. cbn in B. lia.
Qed.

End ScanFacts.

(* ================================================================== *)
(* ------------------------------------------------------------------ *)
(** ** The text of the injection script *)

Module JsonFacts.
Import Text Regex ScriptExecutorService RefRealm Pipeline Vocabulary RealmVocabulary.
Import TextFacts.

Lemma lex_cons (strict : bool) (st : LexState) (c : ascii) (s : string) :
  lex strict st (String c s)
  = match step strict st c with
    | Some (toks, st') => option_map (app toks) (lex strict st' s)
    | None => None
    end.
Proof.
  cbn [lex]. destruct (step strict st c) as [[toks st']|]; [|reflexivity].
  now destruct (lex strict st' s).
Qed.

Lemma option_map_nil {A} (o : option (list A)) : option_map (app []) o = o.
Proof. now destruct o. Qed.

Lemma lex_quoted_char (strict : bool) (acc : string) (c : ascii) (rest : string) :
  lex strict (LStr dquote acc) (quote_char c ++ rest)
  = lex strict (LStr dquote (snoc acc c)) rest.
Proof.
  destruct strict; destruct c as [[] [] [] [] [] [] [] []];
    cbn -[lex]; rewrite ?lex_cons; cbn -[lex]; rewrite ?option_map_nil; try reflexivity.
  all: rewrite ?lex_cons; cbn -[lex]; rewrite ?option_map_nil; try reflexivity.
  all: repeat (rewrite lex_cons; cbn -[lex]; rewrite ?option_map_nil); try reflexivity.
Qed.

Lemma lex_quoted (strict : bool) (text acc rest : string) :
  lex strict (LStr dquote acc) (quote_chars text ++ String dquote rest)
  = option_map (cons (TStr dquote (acc ++ text))) (lex strict LStart rest).
Proof.
  revert acc; induction text as [|c text IH]; intros acc.
  - cbn [quote_chars append]. rewrite lex_cons. cbn -[lex].
    now rewrite append_nil_r.
  - cbn [quote_chars]. rewrite append_assoc, lex_quoted_char, IH.
    unfold snoc. now rewrite append_assoc.
Qed.

(** *** The data injection script *)

Lemma parse_initSource (text : string) :
  parse_program (initSource (Some text)) = Some (init_program text).
Proof.
  unfold parse_program, tokenize, initSource, quoteJSONString.
  cbn [append]. repeat (rewrite lex_cons; cbn -[lex]).
  rewrite append_assoc. cbn [append]. rewrite lex_quoted.
  repeat (rewrite lex_cons; cbn -[lex]). reflexivity.
Qed.

End JsonFacts.

(* ------------------------------------------------------------------ *)
(** ** Runs in the reference realm *)

Module RealmFacts.
Import Text Regex ScriptExecutorService RefRealm Pipeline Vocabulary RealmVocabulary.
Import TextFacts RegexFacts ValidationFacts ExecuteFacts ScanFacts JsonFacts.

(** Checking by computation that no denylisted token is a whole word. *)
Lemma no_denylisted_word (code : string) :
  forallb (fun token => negb (delimitedb is_word token None code)) denylist = true ->
  forall token, In token denylist -> ~ whole_word token code.
Proof.
  intros H token Hin Hw. rewrite forallb_forall in H.
  specialize (H token Hin). apply negb_true_iff in H.
  apply delimited_decide in Hw. congruence.
Qed.

(** [while (true) {}] uses up every budget. *)
Lemma while_true_diverges (fuel : nat) (env : Env) :
  exec fuel env (SWhile (EBool true) (SBlock [])) = OutOfBudget.
Proof.
  induction fuel as [|f IH]; [reflexivity|].
  change (exec (S f) env (SWhile (EBool true) (SBlock [])))
    with (given (cv, env1) <- eval f env (EBool true);
          if to_boolean cv then
            given (flow, env2) <- exec f env1 (SBlock []);
            match flow with
            | Returned v => Done (Returned v, env2)
            | Next v =>
                given (later, env3) <-
                  exec f env2 (SWhile (EBool true) (SBlock []));
                Done (match later with
                      | Next None => Next (completion (SBlock []) v)
                      | _ => later
                      end, env3)
            end
          else Done (Next None, env1)).
  destruct f as [|f']; [reflexivity|].
  change (eval (S f') env (EBool true))
    with (@Done (Val * Env) (VBool true, env)).
  cbv beta iota. cbn [to_boolean].
  change (exec (S f') env (SBlock []))
    with (@Done (Flow * Env) (Next None, env)).
  cbv beta iota. now rewrite IH.
Qed.

Lemma loop_program_diverges (context : Props) : diverges context loop_program.
Proof.
  intros budget. unfold run_program, loop_program. cbn [run_list].
  destruct budget as [|f]; [reflexivity|]. cbn [exec].
  destruct f as [|f']; [reflexivity|]. cbn [eval eval_list run_list].
  now rewrite while_true_diverges.
Qed.

End RealmFacts.

(* ------------------------------------------------------------------ *)
(** ** The collection lines of template mode *)

Module TemplateFacts.
Import Text TextFacts Vocabulary ScriptExecutorService Pipeline.
Import TemplateVocabulary ExecuteFacts ScanFacts.

(** *** The text *)

Lemma templateWrapper_parts (code collectVars : string) :
  templateWrapper code collectVars
  = wrapper_head ++ code ++ wrapper_middle ++ collectVars ++ wrapper_tail.
Proof. reflexivity. Qed.

Lemma is_identifierb_spec (name : string) :
  is_identifierb name = true <-> is_identifier name.
Proof.
  destruct name as [|c rest]; cbn; [split; [discriminate|tauto]|].
  now rewrite andb_true_iff.
Qed.

Lemma identifier_no_lf (name : string) :
  is_identifier name -> all_chars (fun c => negb (c =? lf)%char) name = true.
Proof.
  intros I. destruct (identifier_chars _ I) as (_ & C).
  clear I. induction name as [|c name IH]; [reflexivity|].
  cbn [all_chars] in *. apply andb_true_iff in C as [C1 C2].
  rewrite (IH C2), andb_true_r.
  destruct c as [[] [] [] [] [] [] [] []]; try discriminate C1; reflexivity.
Qed.

(** A collection line is read back as its name. *)
Lemma line_name_collectLine (name : string) :
  is_identifier name -> is_reserved_word name = false ->
  line_name (collectLine name) = Some name.
Proof.
  intros I R. unfold line_name, collectLine. cbn [strip_prefix append].
  cbn [Ascii.eqb Bool.eqb andb].
  destruct (identifier_chars _ I) as (_ & C).
  rewrite span_app; [|exact C|reflexivity].
  rewrite (proj2 (is_identifierb_spec name) I), R. cbn [negb andb].
  now rewrite String.eqb_refl.
Qed.

Lemma line_name_inv (line name : string) :
  line_name line = Some name ->
  line = collectLine name /\ is_identifier name /\ is_reserved_word name = false.
Proof.
  unfold line_name.
  destruct (strip_prefix "if (typeof " line) as [rest|] eqn:P; [|discriminate].
  apply strip_prefix_inv in P as ->.
  destruct (span is_ident_part rest) as [n rest'] eqn:S.
  destruct (span_spec _ _ _ _ S) as (-> & _ & _).
  destruct (is_identifierb n) eqn:I; [|discriminate].
  destruct (is_reserved_word n) eqn:R; [discriminate|]. cbn [negb andb].
  destruct (rest' =? _) eqn:E; [|discriminate].
  apply String.eqb_eq in E as ->. intros [= <-].
  split; [reflexivity|]. split; [now apply is_identifierb_spec|exact R].
Qed.

Lemma lines_line (line rest : string) :
  all_chars (fun c => negb (c =? lf)%char) line = true ->
  lines (line ++ String lf rest) = line :: lines rest.
Proof.
  induction line as [|c line IH]; cbn [append lines all_chars]; intros A.
  - now rewrite Ascii.eqb_refl.
  - apply andb_true_iff in A as [A1 A2]. apply negb_true_iff in A1.
    now rewrite A1, (IH A2).
Qed.

Lemma lines_last (line : string) :
  all_chars (fun c => negb (c =? lf)%char) line = true ->
  lines line = [line].
Proof.
  induction line as [|c line IH]; cbn [lines all_chars]; intros A;
    [reflexivity|].
  apply andb_true_iff in A as [A1 A2]. apply negb_true_iff in A1.
  now rewrite A1, (IH A2).
Qed.

Lemma collectLine_nonempty (name : string) : collectLine name <> "".
Proof. discriminate. Qed.

Lemma collectLine_no_lf (name : string) :
  is_identifier name ->
  all_chars (fun c => negb (c =? lf)%char) (collectLine name) = true.
Proof.
  intros I. pose proof (identifier_no_lf _ I) as A. unfold collectLine.
  rewrite !all_chars_app, A. reflexivity.
Qed.

(** The collection code is read back, line by line, as the names it was
    made for. *)
Lemma line_names_collectVarsCode (names : list string) :
  Forall is_identifier names ->
  Forall (fun name => is_reserved_word name = false) names ->
  line_names (collectVarsCode names) = Some names.
Proof.
  intros I R. unfold line_names, collectVarsCode.
  destruct names as [|name names]; [reflexivity|].
  replace (String.concat nl (map collectLine (name :: names)) =? "")
    with false.
  2:{ symmetry. apply String.eqb_neq. cbn [map String.concat].
      destruct (map collectLine names); discriminate. }
  revert name I R. induction names as [|next names IH]; intros name I R.
  - cbn [map String.concat].
    rewrite lines_last
      by (apply collectLine_no_lf; now apply Forall_inv in I).
    cbn [map all_some].
    rewrite line_name_collectLine;
      [reflexivity|now apply Forall_inv in I|now apply Forall_inv in R].
  - change (String.concat nl (map collectLine (name :: next :: names)))
      with (collectLine name
              ++ String lf (String.concat nl (map collectLine (next :: names)))).
    rewrite lines_line
      by (apply collectLine_no_lf; now apply Forall_inv in I).
    cbn [map all_some].
    rewrite line_name_collectLine;
      [|now apply Forall_inv in I|now apply Forall_inv in R].
    change (map line_name (lines _)) with
      (map line_name
         (lines (String.concat nl (map collectLine (next :: names))))).
    rewrite IH; [reflexivity|now apply Forall_inv_tail in I
                |now apply Forall_inv_tail in R].
Qed.

(** What the scan extracts are identifiers. *)
Lemma extracted_identifiers (code : string) :
  Forall is_identifier (extractVariableNames code).
Proof.
  apply Forall_forall. intros name H.
  apply extractVariableNames_spec in H as [H _].
  apply exec_all_declares in H as (pre & kw & ws & post & _ & _ & _ & _ & I & _).
  exact I.
Qed.

(** *** What the lines do *)

Section Collection.
Variable V : Type.
Variable is_undefined : V -> bool.

Lemma property_store (o : Object V) (k : string) (v : V) :
  property (store o k v) k = Some v.
Proof.
  induction o as [|[k' v'] o IH]; cbn; [now rewrite String.eqb_refl|].
  destruct (k =? k') eqn:E; cbn; [now rewrite String.eqb_refl|].
  now rewrite E.
Qed.

Lemma property_store_other (o : Object V) (k y : string) (v : V) :
  y <> k -> property (store o k v) y = property o y.
Proof.
  intros D. apply String.eqb_neq in D.
  induction o as [|[k' v'] o IH]; cbn; [now rewrite D|].
  destruct (k =? k') eqn:E; cbn.
  - apply String.eqb_eq in E as <-. now rewrite D.
  - now rewrite IH.
Qed.

Lemma property_collect (scope : Scope V) (vars : Object V)
  (name y : string) :
  property (collect is_undefined scope vars name) y
  = if (y =? name)
    then match defined is_undefined scope name with
         | Some v => Some v
         | None => property vars y
         end
    else property vars y.
Proof.
  unfold collect. destruct (y =? name) eqn:E.
  - apply String.eqb_eq in E as ->.
    destruct (defined is_undefined scope name);
      [apply property_store|reflexivity].
  - apply String.eqb_neq in E.
    destruct (defined is_undefined scope name);
      [now apply property_store_other|reflexivity].
Qed.

Lemma property_fold (scope : Scope V) (names : list string)
  (vars : Object V) (y : string) :
  property (fold_left (collect is_undefined scope) names vars) y
  = if existsb (String.eqb y) names
    then match defined is_undefined scope y with
         | Some v => Some v
         | None => property vars y
         end
    else property vars y.
Proof.
  revert vars. induction names as [|name names IH]; intros vars;
    cbn [fold_left existsb]; [reflexivity|].
  rewrite IH, property_collect.
  destruct (y =? name) eqn:E; cbn [orb]; [|reflexivity].
  apply String.eqb_eq in E as ->.
  destruct (existsb (String.eqb name) names);
    now destruct (defined is_undefined scope name).
Qed.

(** The entry of a collected name, and of any other. *)
Lemma property_collection (scope : Scope V) (names : list string)
  (y : string) :
  (In y names ->
   property (collection is_undefined scope names) y
   = match defined is_undefined scope y with
     | Some v => Some v
     | None => property (stored scope) y
     end) /\
  (~ In y names ->
   property (collection is_undefined scope names) y
   = property (stored scope) y).
Proof.
  unfold collection. rewrite property_fold.
  destruct (existsb (String.eqb y) names) eqn:E.
  - split; [reflexivity|]. intros N. exfalso. apply N.
    apply existsb_exists in E as (x & H & E).
    now apply String.eqb_eq in E as ->.
  - split; [|reflexivity]. intros H. exfalso.
    apply Bool.not_true_iff_false in E. apply E, existsb_exists.
    exists y. split; [exact H|apply String.eqb_refl].
Qed.

Lemma defined_none (scope : Scope V) (name : string) :
  defined is_undefined scope name = None
  <-> binding scope name = None \/
      exists v, binding scope name = Some v /\ is_undefined v = true.
Proof.
  unfold defined. destruct (binding scope name) as [v|].
  - destruct (is_undefined v) eqn:U; split; try discriminate.
    + intros _. right. now exists v.
    + reflexivity.
    + intros [H|(w & [= <-] & H)]; congruence.
  - split; [now left|reflexivity].
Qed.

Lemma defined_some (scope : Scope V) (name : string) (v : V) :
  defined is_undefined scope name = Some v
  <-> binding scope name = Some v /\ is_undefined v = false.
Proof.
  unfold defined. destruct (binding scope name) as [w|].
  - destruct (is_undefined w) eqn:U; split.
    + discriminate.
    + intros [[= <-] H]. congruence.
    + intros [= <-]. now split.
    + now intros [[= <-] _].
  - split; [discriminate|now intros [H _]].
Qed.

End Collection.

(** *** The run behind a successful result *)

Section WithRuntime.
Variable R : Runtime.

(** A result with [success = true] carries what the run of the wrapped
    source completed with. *)
Lemma success_is_a_run (code : string) (data : JsValue R) (mode : Mode)
  (r : ScriptResult (JsValue R)) :
  fst (execute R code data mode) = Normal r -> success r = true ->
  exists script context v context',
    new_Script R (wrapped_source mode code) = Normal script /\
    runInContext R script context TIMEOUT_MS = Completed v context' /\
    r = result_of R mode v.
Proof.
  rewrite fst_execute.
  destruct (body_outcome R code data mode) as [r'|e] eqn:B.
  2:{ intros H S. destruct (caught_normal _ _ _ H) as (m & ->). discriminate. }
  intros [= ->] S. unfold body_outcome in B.
  destruct (fst (validateScript R code)); [|discriminate].
  destruct (JSON_stringify R (coalesce_null R data)) as [dataJson|];
    [|discriminate].
  destruct (new_Script R (initSource dataJson)) as [init|]; [|discriminate].
  destruct (runInContext R init (scrubbed R (createContext R)) TIMEOUT_MS)
    as [v0 context|]; [|discriminate].
  unfold wrapped_outcome in B.
  destruct (new_Script R (wrapped_source mode code)) as [script|e] eqn:C.
  - destruct (runInContext R script context TIMEOUT_MS) as [v ctx|e] eqn:Run.
    + injection B as <-. now exists script, context, v, ctx.
    + destruct (caught_normal _ _ _ B) as (m & ->). discriminate.
  - destruct (caught_normal _ _ _ B) as (m & ->). discriminate.
Qed.

End WithRuntime.

End TemplateFacts.

(* ------------------------------------------------------------------ *)
(** ** What a call does, in order *)

Module CallFacts.
Import Text ScriptExecutorService Pipeline CallVocabulary ExecuteFacts.

Section WithRuntime.

Variable R : Runtime.

Ltac step_call :=
  cbn -[scrubbed TIMEOUT_MS initSource valueWrapper templateWrapper
        collectVarsCode extractVariableNames wrapped_source coalesce_null].

Ltac settle :=
  cbn; repeat split; try lia; try discriminate; try congruence; eauto.

Ltac caught_outside k :=
  let m := fresh "m" in let v := fresh "v" in let e1 := fresh "e1" in
  let S := fresh "S" in
  step_call; exists k;
  match goal with
  | |- context [errorMessage _ ?e] => destruct e as [m|v]; step_call
  end;
  [ exists [log_line m]; settle
  | destruct (js_String R v) as [m|e1] eqn:S;
    [ exists [log_line m]; settle
    | exists []; settle ] ].

Ltac caught_inside k :=
  let m := fresh "m" in let v := fresh "v" in
  let m1 := fresh "m1" in let v1 := fresh "v1" in let e2 := fresh "e2" in
  let S := fresh "S" in let S1 := fresh "S1" in
  step_call;
  match goal with
  | |- context [errorMessage _ ?e] => destruct e as [m|v]; step_call
  end;
  [ exists k, []; settle
  | destruct (js_String R v) as [m|[m1|v1]] eqn:S; step_call;
    [ exists k, []; settle
    | exists k, [log_line m1]; settle
    | destruct (js_String R v1) as [m1|e2] eqn:S1; step_call;
      [ exists k, [log_line m1]; settle
      | exists k, []; settle ] ] ].

(** Everything a call does, in order: a beginning of the planned calls into
    the runtime, then at most one line in the log.  The log has a line when
    the call fails before it gets to the user's script, and otherwise only
    when a conversion of a thrown value to a string has thrown. *)
Lemma execute_events (code : string) (data : JsValue R) (mode : Mode) :
  exists k log,
    snd (execute R code data mode)
    = (firstn k (planned_trace R code data mode) ++ log)%list /\
    (k <= 5)%nat /\
    (reaches_user_script R code data = true <-> (4 <= k)%nat) /\
    (log = [] \/
     exists message,
       log = [log_line message] /\
       fst (execute R code data mode) = Normal (failure R message)) /\
    ((exists r, fst (execute R code data mode) = Normal r) \/
     (exists v e, js_String R v = Throw e)) /\
    ((4 <= k)%nat -> log <> [] -> exists v e, js_String R v = Throw e) /\
    ((k < 4)%nat -> log = [] -> exists v e, js_String R v = Throw e).
Proof.
  unfold execute, reaches_user_script, planned_trace, full_trace.
  destruct (validateScript_cases R code) as [V|(m & V & _)]; rewrite V.
  2:{ step_call. exists 0%nat, [log_line m]. settle. }
  step_call.
  destruct (JSON_stringify R (coalesce_null R data)) as [dataJson|e];
    [|caught_outside 1%nat].
  step_call. unfold compile, run. step_call.
  destruct (new_Script R (initSource dataJson)) as [init|e];
    [|caught_outside 2%nat].
  step_call.
  destruct (runInContext R init (scrubbed R (createContext R)) TIMEOUT_MS)
    as [v0 context|e]; [|caught_outside 3%nat].
  step_call.
  destruct mode; unfold executeValueMode, executeTemplateMode, compile, run;
    step_call;
    (destruct (new_Script R _) as [script|e]; [|caught_inside 4%nat]);
    step_call;
    (destruct (runInContext R script context TIMEOUT_MS) as [v ctx|e];
     [|caught_inside 5%nat]);
    step_call; exists 5%nat, []; settle.
Qed.

Lemma planned_trace_quiet (code : string) (data : JsValue R) (mode : Mode)
  (k : nat) :
  existsb is_warn (firstn k (planned_trace R code data mode)) = false.
Proof.
  unfold planned_trace, full_trace. do 5 (destruct k; [reflexivity|]).
  now destruct k.
Qed.

Lemma planned_trace_timeouts (code : string) (data : JsValue R) (mode : Mode)
  (k : nat) (timeout : N) :
  In (EvRun timeout) (firstn k (planned_trace R code data mode)) ->
  timeout = TIMEOUT_MS.
Proof.
  unfold planned_trace, full_trace. intros H.
  do 5 (destruct k; [cbn in H; intuition congruence|]).
  destruct k; cbn in H; intuition congruence.
Qed.

End WithRuntime.

End CallFacts.

(* ------------------------------------------------------------------ *)
(** ** The PIN authentication service *)

Module PinAuthFacts.
Import Text TextFacts PinAuthService.

(** *** [validatePin] *)

Local Open Scope list_scope.

Lemma parts64 (c : N) :
  (c = 64 * (c / 64) + c mod 64 /\ c mod 64 < 64)%N.
Proof.
  split; [apply N.div_mod; discriminate|apply N.mod_lt; discriminate].
Qed.

Lemma div4096 (c : N) : (c / 4096 = c / 64 / 64)%N.
Proof. now rewrite N.Div0.div_div. Qed.

Lemma div262144 (c : N) : (c / 262144 = c / 64 / 64 / 64)%N.
Proof. now rewrite !N.Div0.div_div. Qed.

Ltac split64 c q r :=
  let E := fresh "E" in
  let M := fresh "M" in
  destruct (parts64 c) as [E M];
  set (q := (c / 64)%N) in *; set (r := (c mod 64)%N) in *; clearbody q r.

Ltac decide_ltb :=
  repeat match goal with
  | |- context [(?a <? ?b)%N] =>
      first [ replace (a <? b)%N with true by (symmetry; apply N.ltb_lt; lia)
            | replace (a <? b)%N with false by (symmetry; apply N.ltb_ge; lia) ]
  end.

Lemma utf16_one (c : N) (bytes : list N) :
  (c < 65536)%N -> is_lead c = false -> is_trail c = false ->
  utf16 (utf8 c ++ bytes) = c :: utf16 bytes.
Proof.
  intros B L T. unfold utf8. rewrite div4096.
  destruct (c <? 128)%N eqn:C1.
  { cbn [app utf16]. now rewrite C1. }
  apply N.ltb_ge in C1.
  destruct (c <? 2048)%N eqn:C2.
  { apply N.ltb_lt in C2. cbn [app utf16].
    split64 c q0 r0. decide_ltb. f_equal. lia. }
  apply N.ltb_ge in C2.
  replace (c <? 65536)%N with true by (symmetry; now apply N.ltb_lt).
  cbn [app utf16].
  split64 c q0 r0. split64 q0 q1 r1. decide_ltb. f_equal. lia.
Qed.

Lemma utf16_replacement (bytes : list N) :
  utf16 (utf8 REPLACEMENT ++ bytes) = REPLACEMENT :: utf16 bytes.
Proof. reflexivity. Qed.

Lemma utf16_pair (c d : N) (bytes : list N) :
  is_lead c = true -> is_trail d = true ->
  utf16 (utf8 (code_point c d) ++ bytes) = c :: d :: utf16 bytes.
Proof.
  intros L T. unfold is_lead in L. unfold is_trail in T.
  apply andb_true_iff in L as [L1 L2]. apply andb_true_iff in T as [T1 T2].
  apply N.leb_le in L1, L2, T1, T2.
  assert (E : (code_point c d = 65536 + (c - 55296) * 1024 + (d - 56320))%N)
    by reflexivity.
  set (cp := code_point c d) in *. clearbody cp.
  unfold utf8. rewrite div4096, div262144.
  replace (cp <? 128)%N with false by (symmetry; apply N.ltb_ge; lia).
  replace (cp <? 2048)%N with false by (symmetry; apply N.ltb_ge; lia).
  replace (cp <? 65536)%N with false by (symmetry; apply N.ltb_ge; lia).
  cbn [app utf16]. cbv zeta.
  assert (D : ((cp - 65536) / 1024 = c - 55296 /\
               (cp - 65536) mod 1024 = d - 56320)%N).
  { replace (cp - 65536)%N with ((c - 55296) * 1024 + (d - 56320))%N by lia.
    split.
    - rewrite N.div_add_l by discriminate. rewrite N.div_small by lia. lia.
    - rewrite (N.add_comm _ (d - 56320)), N.Div0.mod_add.
      apply N.mod_small. lia. }
  split64 cp q0 r0. split64 q0 q1 r1. split64 q1 q2 r2. decide_ltb.
  replace ((240 + q2 - 240) * 262144 + (128 + r2 - 128) * 4096
           + (128 + r1 - 128) * 64 + (128 + r0 - 128))%N with cp by lia.
  destruct D as [-> ->]. f_equal; [lia|]. f_equal. lia.
Qed.

(** Induction over strings two code units at a time. *)
Lemma by_length {A} (P : list A -> Prop) :
  (forall s, (forall t, List.length t < List.length s -> P t) -> P s) ->
  forall s, P s.
Proof.
  intros H s. remember (List.length s) as n eqn:L.
  assert (B : List.length s <= n) by lia. clear L. revert s B.
  induction n as [|n IH]; intros s B; apply H; intros t Lt; [lia|].
  apply IH. lia.
Qed.

(** The bytes of a string are those of its well-formed form, and read back
    as it. *)
Lemma utf16_Buffer_from (s : CodeUnits) :
  Forall (fun c => (c < 65536)%N) s ->
  utf16 (Buffer_from s) = toWellFormed s.
Proof.
  induction s as [s IH] using by_length. intros F.
  destruct s as [|c rest]; [reflexivity|].
  pose proof (Forall_inv F) as Fc. pose proof (Forall_inv_tail F) as Fr.
  cbn [Buffer_from toWellFormed].
  destruct (is_lead c) eqn:L.
  - destruct rest as [|d rest']; [reflexivity|].
    destruct (is_trail d) eqn:T.
    + rewrite utf16_pair by assumption. do 2 f_equal.
      apply IH; [cbn; lia|exact (Forall_inv_tail Fr)].
    + rewrite utf16_replacement. f_equal. apply IH; [cbn; lia|exact Fr].
  - destruct (is_trail c) eqn:T.
    + rewrite utf16_replacement. f_equal. apply IH; [cbn; lia|exact Fr].
    + rewrite utf16_one by assumption. f_equal. apply IH; [cbn; lia|exact Fr].
Qed.

Lemma REPLACEMENT_plain :
  is_lead REPLACEMENT = false /\ is_trail REPLACEMENT = false.
Proof. split; reflexivity. Qed.

Lemma lead_not_trail (c : N) : is_lead c = true -> is_trail c = false.
Proof.
  unfold is_lead, is_trail. intros H.
  apply andb_true_iff in H as [_ H]. apply N.leb_le in H.
  apply andb_false_iff. left. apply N.leb_gt. lia.
Qed.

Lemma Buffer_from_toWellFormed (s : CodeUnits) :
  Buffer_from (toWellFormed s) = Buffer_from s.
Proof.
  induction s as [s IH] using by_length.
  destruct s as [|c rest]; [reflexivity|].
  cbn [toWellFormed].
  destruct (is_lead c) eqn:L.
  - destruct rest as [|d rest'].
    + cbn [Buffer_from]. now rewrite L.
    + destruct (is_trail d) eqn:T.
      * cbn [Buffer_from]. rewrite L, T. f_equal. apply IH. cbn; lia.
      * change (Buffer_from (REPLACEMENT :: toWellFormed (d :: rest')))
          with (utf8 REPLACEMENT ++ Buffer_from (toWellFormed (d :: rest'))).
        rewrite IH by (cbn; lia).
        cbn [Buffer_from]. now rewrite L, T.
  - destruct (is_trail c) eqn:T.
    + change (Buffer_from (REPLACEMENT :: toWellFormed rest))
        with (utf8 REPLACEMENT ++ Buffer_from (toWellFormed rest)).
      rewrite IH by (cbn; lia). cbn [Buffer_from]. now rewrite L, T.
    + cbn [Buffer_from]. rewrite L, T. f_equal. apply IH. cbn; lia.
Qed.

(** Two strings have the same bytes exactly when they have the same
    well-formed form. *)
Lemma Buffer_from_eq (s t : CodeUnits) :
  Forall (fun c => (c < 65536)%N) s -> Forall (fun c => (c < 65536)%N) t ->
  Buffer_from s = Buffer_from t <-> toWellFormed s = toWellFormed t.
Proof.
  intros Fs Ft. split; intros E.
  - now rewrite <- (utf16_Buffer_from s Fs), <- (utf16_Buffer_from t Ft), E.
  - now rewrite <- (Buffer_from_toWellFormed s), E, Buffer_from_toWellFormed.
Qed.

Lemma bytes_eqb_eq (a b : list N) : bytes_eqb a b = true <-> a = b.
Proof.
  revert b. induction a as [|x a IH]; intros [|y b]; cbn;
    try (split; [discriminate|congruence]); [tauto|].
  rewrite andb_true_iff, N.eqb_eq, IH. split; [intros [-> ->]|intros [= -> ->]]; auto.
Qed.

Lemma timingSafeEqual_bytes (a b : list N) :
  match timingSafeEqual a b with Some equal => equal | None => false end = true
  <-> a = b.
Proof.
  unfold timingSafeEqual.
  destruct (List.length a =? List.length b)%nat eqn:L.
  - apply bytes_eqb_eq.
  - split; [discriminate|]. intros ->. now rewrite Nat.eqb_refl in L.
Qed.

Lemma length_toWellFormed (s : CodeUnits) :
  List.length (toWellFormed s) = List.length s.
Proof.
  induction s as [s IH] using by_length.
  destruct s as [|c rest]; [reflexivity|]. cbn [toWellFormed].
  destruct (is_lead c).
  - destruct rest as [|d rest']; [reflexivity|].
    destruct (is_trail d); cbn [List.length]; rewrite IH by (cbn; lia);
      reflexivity.
  - destruct (is_trail c); cbn [List.length]; now rewrite IH by (cbn; lia).
Qed.

Lemma toWellFormed_NULs (k : nat) : toWellFormed (repeat NUL k) = repeat NUL k.
Proof. induction k as [|k IH]; [reflexivity|]. cbn. now rewrite IH. Qed.

(** NUL characters behind a string stay as they are. *)
Lemma toWellFormed_padded (s : CodeUnits) (k : nat) :
  toWellFormed (s ++ repeat NUL k) = toWellFormed s ++ repeat NUL k.
Proof.
  induction s as [s IH] using by_length.
  destruct s as [|c rest]; [apply toWellFormed_NULs|].
  cbn [app toWellFormed].
  destruct (is_lead c) eqn:L.
  - destruct rest as [|d rest'].
    + destruct k as [|k]; [reflexivity|].
      cbn [app repeat]. change (is_trail NUL) with false. cbv iota.
      change (NUL :: repeat NUL k) with (repeat NUL (S k)).
      now rewrite toWellFormed_NULs.
    + cbn [app]. destruct (is_trail d) eqn:T.
      * cbn [app]. do 2 f_equal. apply IH. cbn; lia.
      * cbn [app]. f_equal. apply (IH (d :: rest')). cbn; lia.
  - destruct (is_trail c); cbn [app]; f_equal; apply IH; cbn; lia.
Qed.

Lemma Forall_padded (s : CodeUnits) (n : nat) :
  Forall (fun c => (c < 65536)%N) s ->
  Forall (fun c => (c < 65536)%N) (padEnd s n NUL).
Proof.
  intros F. apply Forall_app. split; [exact F|].
  apply Forall_forall. intros c H. apply repeat_spec in H as ->. reflexivity.
Qed.

(** Padded to the same length, two strings are equal exactly when one is
    the other followed by NUL characters. *)
Lemma padded_equal (p s : CodeUnits) :
  let maxLen := Nat.max (List.length p) (List.length s) in
  toWellFormed (padEnd p maxLen NUL) = toWellFormed (padEnd s maxLen NUL)
  <-> exists k, toWellFormed p = toWellFormed s ++ repeat NUL k \/
                toWellFormed s = toWellFormed p ++ repeat NUL k.
Proof.
  intros maxLen. unfold padEnd. rewrite !toWellFormed_padded.
  destruct (Nat.le_ge_cases (List.length p) (List.length s)) as [H|H].
  - replace (maxLen - List.length s) with 0 by lia.
    cbn [repeat]. rewrite app_nil_r. split.
    + intros E. exists (maxLen - List.length p). right. now symmetry.
    + intros (k & [E|E]).
      * assert (k = 0).
        { apply (f_equal (@List.length N)) in E.
          rewrite length_app, repeat_length, !length_toWellFormed in E. lia. }
        subst k. cbn [repeat] in E. rewrite app_nil_r in E.
        rewrite E. replace (maxLen - List.length p) with 0; [now rewrite app_nil_r|].
        apply (f_equal (@List.length N)) in E.
        rewrite !length_toWellFormed in E. lia.
      * rewrite E. do 2 f_equal.
        apply (f_equal (@List.length N)) in E.
        rewrite length_app, repeat_length, !length_toWellFormed in E. lia.
  - replace (maxLen - List.length p) with 0 by lia.
    cbn [repeat]. rewrite app_nil_r. split.
    + intros E. exists (maxLen - List.length s). now left.
    + intros (k & [E|E]).
      * rewrite E. do 2 f_equal.
        apply (f_equal (@List.length N)) in E.
        rewrite length_app, repeat_length, !length_toWellFormed in E. lia.
      * assert (k = 0).
        { apply (f_equal (@List.length N)) in E.
          rewrite length_app, repeat_length, !length_toWellFormed in E. lia. }
        subst k. cbn [repeat] in E. rewrite app_nil_r in E.
        rewrite E. replace (maxLen - List.length s) with 0; [now rewrite app_nil_r|].
        apply (f_equal (@List.length N)) in E.
        rewrite !length_toWellFormed in E. lia.
Qed.

(** *** The sessions *)

Local Open Scope string_scope.

Lemma Map_get_set (m : Sessions) (key key' : string) (value : Z) :
  Map_get (Map_set m key value) key'
  = if (key' =? key)%string then Some value else Map_get m key'.
Proof.
  induction m as [|[k v] m IH]; cbn.
  - reflexivity.
  - destruct (key =? k)%string eqn:E; cbn.
    + apply String.eqb_eq in E as <-. now destruct (key' =? key)%string.
    + rewrite IH. destruct (key' =? k)%string eqn:E'; [|reflexivity].
      apply String.eqb_eq in E' as ->. rewrite String.eqb_sym in E.
      now rewrite E.
Qed.

Lemma Map_get_delete (m : Sessions) (key key' : string) :
  Map_get (Map_delete m key) key'
  = if (key' =? key)%string then None else Map_get m key'.
Proof.
  unfold Map_delete. induction m as [|[k v] m IH]; cbn.
  - now destruct (key' =? key)%string.
  - destruct (key =? k)%string eqn:E; cbn.
    + rewrite IH. apply String.eqb_eq in E as <-.
      now destruct (key' =? key)%string.
    + rewrite IH. destruct (key' =? k)%string eqn:E'; [|reflexivity].
      apply String.eqb_eq in E' as ->. rewrite String.eqb_sym in E.
      now rewrite E.
Qed.

Lemma Map_get_In (m : Sessions) (key : string) (value : Z) :
  Map_get m key = Some value -> In (key, value) m.
Proof.
  induction m as [|[k v] m IH]; cbn; [discriminate|].
  destruct (key =? k)%string eqn:E.
  - apply String.eqb_eq in E as ->. intros [= ->]. now left.
  - intros H. right. now apply IH.
Qed.

Lemma Map_get_NoDup (m : Sessions) (key : string) (value : Z) :
  NoDup (map fst m) -> In (key, value) m -> Map_get m key = Some value.
Proof.
  induction m as [|[k v] m IH]; cbn; [intros _ []|].
  intros D [[= -> ->]|H].
  - now rewrite String.eqb_refl.
  - apply NoDup_cons_iff in D as [N D]. destruct (key =? k)%string eqn:E.
    + apply String.eqb_eq in E as ->. exfalso. apply N.
      now apply (in_map fst) in H.
    + now apply IH.
Qed.

Lemma Map_set_keys (m : Sessions) (key : string) (value : Z) :
  map fst (Map_set m key value)
  = if existsb (String.eqb key) (map fst m) then map fst m
    else (map fst m ++ [key])%list.
Proof.
  induction m as [|[k v] m IH]; cbn; [reflexivity|].
  destruct (key =? k)%string eqn:E; cbn; [reflexivity|].
  rewrite IH. now destruct (existsb (String.eqb key) (map fst m)).
Qed.

Lemma Map_set_NoDup (m : Sessions) (key : string) (value : Z) :
  NoDup (map fst m) -> NoDup (map fst (Map_set m key value)).
Proof.
  intros D. rewrite Map_set_keys.
  destruct (existsb (String.eqb key) (map fst m)) eqn:E; [exact D|].
  apply NoDup_app; [exact D|repeat constructor; intros []|].
  intros x Hx [K|[]]. subst x.
  apply Bool.not_true_iff_false in E. apply E. apply existsb_exists.
  exists key. split; [exact Hx|apply String.eqb_refl].
Qed.

Lemma Map_delete_NoDup (m : Sessions) (key : string) :
  NoDup (map fst m) -> NoDup (map fst (Map_delete m key)).
Proof.
  unfold Map_delete. induction m as [|[k v] m IH]; cbn; [auto|].
  intros D. apply NoDup_cons_iff in D as [N D].
  destruct (key =? k)%string; cbn; [now apply IH|].
  constructor; [|now apply IH].
  intros H. apply N. apply in_map_iff in H as ([k' v'] & <- & H).
  apply filter_In in H as [H _]. now apply (in_map fst) in H.
Qed.

(** The cleanup loop over the entries [entries], on the map [m]: a key is
    gone when an entry of the loop with that key is expired. *)
Lemma cleanup_loop_get (cutoff : Z) (entries m : Sessions) (key : string) :
  Map_get
    (fold_left
       (fun m entry =>
          if (snd entry <? cutoff)%Z then Map_delete m (fst entry) else m)
       entries m) key
  = if existsb (fun entry => (key =? fst entry)%string && (snd entry <? cutoff)%Z)
         entries
    then None else Map_get m key.
Proof.
  revert m. induction entries as [|[k v] entries IH]; intros m; cbn;
    [reflexivity|].
  rewrite IH. destruct (v <? cutoff)%Z; cbn.
  - rewrite Map_get_delete, andb_true_r.
    destruct (key =? k)%string; cbn; [|reflexivity].
    now destruct (existsb _ entries).
  - now rewrite andb_false_r.
Qed.

Lemma cleanup_loop_NoDup (cutoff : Z) (entries m : Sessions) :
  NoDup (map fst m) ->
  NoDup (map fst
           (fold_left
              (fun m entry =>
                 if (snd entry <? cutoff)%Z then Map_delete m (fst entry) else m)
              entries m)).
Proof.
  revert m. induction entries as [|[k v] entries IH]; intros m D; cbn;
    [exact D|].
  apply IH. destruct (v <? cutoff)%Z; [now apply Map_delete_NoDup|exact D].
Qed.

(** After the cleanup a session is there exactly when it was there and is
    not older than the maximum age. *)
Lemma cleanup_get (m : Sessions) (now : Z) (key : string) :
  NoDup (map fst m) ->
  Map_get (cleanupExpiredSessions m now) key
  = match Map_get m key with
    | Some createdAt =>
        if (createdAt <? now - SESSION_MAX_AGE_MS)%Z then None
        else Some createdAt
    | None => None
    end.
Proof.
  intros D. unfold cleanupExpiredSessions. rewrite cleanup_loop_get.
  destruct (existsb _ m) eqn:E.
  - apply existsb_exists in E as ([k v] & H & E). cbn [fst snd] in E.
    apply andb_true_iff in E as [K V]. apply String.eqb_eq in K as ->.
    rewrite (Map_get_NoDup _ _ _ D H). now rewrite V.
  - destruct (Map_get m key) as [c|] eqn:G; [|reflexivity].
    destruct (c <? now - SESSION_MAX_AGE_MS)%Z eqn:V; [|reflexivity].
    apply Bool.not_true_iff_false in E. exfalso. apply E.
    apply existsb_exists. exists (key, c). split; [now apply Map_get_In|].
    cbn [fst snd]. now rewrite String.eqb_refl, V.
Qed.

Lemma standing_later (token : string) (s : Sessions) (issue : option Z)
  (clock clock' : Z) :
  (clock <= clock')%Z -> standing token s issue clock ->
  standing token s issue clock'.
Proof.
  intros L [A B]. split; [exact A|]. intros t0 H.
  destruct (B t0 H); [now left|right; lia].
Qed.

Lemma step_standing (token : string) (s : Sessions) (issue : option Z)
  (clock : Z) (timed : Z * Call) :
  NoDup (map fst s) ->
  (clock <= fst timed)%Z ->
  standing token s issue clock ->
  NoDup (map fst (perform s timed)) /\
  standing token (perform s timed) (issue_step token issue timed) (fst timed).
Proof.
  intros D L St. pose proof (standing_later _ _ _ _ _ L St) as [A B].
  destruct timed as [now call]. cbn [fst] in *.
  unfold perform, issue_step. cbn [fst snd].
  destruct call as [t|t|t|]; cbn [generateSessionToken snd].
  - split; [now apply Map_set_NoDup|]. unfold standing.
    rewrite Map_get_set, String.eqb_sym.
    destruct (t =? token)%string; [|now split].
    split; [intros c [= <-]; reflexivity|intros t0 [= <-]; now left].
  - unfold validateSession. destruct (Map_get s t) as [c|] eqn:G;
      [|now split].
    destruct (c <? now - SESSION_MAX_AGE_MS)%Z eqn:V; cbn [snd]; [|now split].
    split; [now apply Map_delete_NoDup|]. unfold standing.
    rewrite Map_get_delete, String.eqb_sym.
    destruct (t =? token)%string eqn:E; [|now split].
    apply String.eqb_eq in E as ->. split; [discriminate|].
    intros t0 H. right. destruct (B t0 H) as [G'|]; [|assumption].
    rewrite G in G'. injection G' as ->. now apply Z.ltb_lt.
  - unfold invalidateSession. split; [now apply Map_delete_NoDup|].
    unfold standing. rewrite Map_get_delete, String.eqb_sym.
    destruct (t =? token)%string; [|now split].
    split; discriminate.
  - split; [now apply cleanup_loop_NoDup|]. unfold standing.
    rewrite (cleanup_get _ _ _ D).
    destruct (Map_get s token) as [c|] eqn:G.
    + destruct (c <? now - SESSION_MAX_AGE_MS)%Z eqn:V.
      * split; [discriminate|]. intros t0 H. right.
        destruct (B t0 H) as [[= ->]|]; [now apply Z.ltb_lt|assumption].
      * now split.
    + now split.
Qed.

Lemma history_standing (now : Z) (token : string) (history : list (Z * Call))
  (s : Sessions) (issue : option Z) (clock : Z) :
  NoDup (map fst s) ->
  standing token s issue clock ->
  Forall (fun timed => (clock <= fst timed)%Z) history ->
  clock_up_to now history ->
  (clock <= now)%Z ->
  standing token (fold_left perform history s)
    (fold_left (issue_step token) history issue) now.
Proof.
  revert s issue clock. induction history as [|[t call] history IH];
    intros s issue clock D St Hclock Hup Hnow; cbn [fold_left].
  - exact (standing_later _ _ _ _ _ Hnow St).
  - cbn in Hup. destruct Hup as (Ht & Hlater & Hup).
    apply Forall_cons_iff in Hclock as [Hc _]. cbn in Hc.
    destruct (step_standing token s issue clock (t, call) D Hc St) as [D' St'].
    exact (IH _ _ t D' St' Hlater Hup Ht).
Qed.

(** The standing issue, read off the history. *)
Lemma issue_spec (token : string) (history : list (Z * Call))
  (issue : option Z) (t0 : Z) :
  fold_left (issue_step token) history issue = Some t0
  <-> (exists before later,
         history = (before ++ (t0, Generate token) :: later)%list /\
         forallb (fun timed => negb (settles token (snd timed))) later = true)
      \/ (issue = Some t0 /\
          forallb (fun timed => negb (settles token (snd timed))) history = true).
Proof.
  revert issue. induction history as [|[t call] history IH]; intros issue;
    cbn [fold_left].
  - split; [intros H; right; now split|].
    intros [(before & later & H & _)|[H _]]; [|exact H].
    destruct before; discriminate.
  - rewrite IH. unfold issue_step. cbn [fst snd forallb].
    split.
    + intros [(before & later & -> & F)|[H F]].
      * left. now exists ((t, call) :: before), later.
      * destruct call as [tk|tk|tk|]; cbn [settles]; try (right; now split).
        -- destruct (tk =? token)%string eqn:E; [|right; now split].
           apply String.eqb_eq in E as ->. injection H as ->.
           left. now exists [], history.
        -- destruct (tk =? token)%string; [discriminate|right; now split].
    + intros [(before & later & H & F)|[H F]].
      * destruct before as [|x before]; cbn in H.
        -- injection H as -> -> ->. right. rewrite String.eqb_refl. now split.
        -- injection H as _ ->. left. now exists before, later.
      * apply andb_true_iff in F as [F1 F2]. right. split; [|exact F2].
        destruct call as [tk|tk|tk|]; cbn [settles] in F1; try exact H;
          apply negb_true_iff in F1; now rewrite F1.
Qed.

End PinAuthFacts.

(* ------------------------------------------------------------------ *)
(** ** The exception filter's URL sanitiser *)

Module HttpExceptionFilterFacts.
Import HttpExceptionFilter.

Lemma indexOf_range (s : string) (c : ascii) :
  (-1 <= indexOf s c < Z.of_nat (String.length s))%Z \/
  (indexOf s c = -1)%Z.
Proof.
  induction s as [|d s IH]; cbn [indexOf String.length]; [now right|].
  destruct (d =? c)%char; [left; lia|].
  destruct (indexOf s c <? 0)%Z eqn:E; [now right|].
  apply Z.ltb_ge in E. left. lia.
Qed.

(** The text before the first [c], and the rest, which starts with [c]. *)
Lemma indexOf_split (s : string) (c : ascii) :
  (0 <= indexOf s c)%Z ->
  exists rest,
    s = substring_to s (Z.to_nat (indexOf s c)) ++ String c rest /\
    indexOf (substring_to s (Z.to_nat (indexOf s c))) c = (-1)%Z.
Proof.
  induction s as [|d s IH]; cbn [indexOf]; [lia|].
  destruct (d =? c)%char eqn:E.
  - intros _. apply Ascii.eqb_eq in E as ->. now exists s.
  - destruct (indexOf s c <? 0)%Z eqn:L; [lia|]. apply Z.ltb_ge in L.
    intros _. destruct (IH L) as (rest & H & N). exists rest.
    replace (Z.to_nat (indexOf s c + 1)) with (S (Z.to_nat (indexOf s c)))
      by lia.
    cbn [substring_to append indexOf]. rewrite E, N. split; [|reflexivity].
    now rewrite <- H.
Qed.

End HttpExceptionFilterFacts.

(* ------------------------------------------------------------------ *)
(** ** The screen services' dithering *)

Module DitheringFacts.
Import Numbers DefaultScreenService.

Lemma length_replace (pixels : list Num) (i : nat) (v : Num) :
  List.length (replace pixels i v) = List.length pixels.
Proof.
  revert i. induction pixels as [|p pixels IH]; intros [|i]; cbn;
    try reflexivity. now rewrite IH.
Qed.

Lemma get_replace_other (pixels : list Num) (i j : nat) (v : Num) :
  i <> j -> get (replace pixels j v) i = get pixels i.
Proof.
  unfold get. revert i j. induction pixels as [|p pixels IH];
    intros [|i] [|j] H; cbn; try reflexivity; try congruence.
  apply IH. congruence.
Qed.

Lemma get_replace_same (pixels : list Num) (i : nat) (v : Num) :
  (i < List.length pixels)%nat -> get (replace pixels i v) i = v.
Proof.
  unfold get. revert i. induction pixels as [|p pixels IH]; intros [|i] H;
    cbn in *; try lia; [reflexivity|]. apply IH. lia.
Qed.

Lemma replace_get (pixels : list Num) (i : nat) (v : Num) :
  ((i < List.length pixels)%nat -> get pixels i = v) ->
  replace pixels i v = pixels.
Proof.
  unfold get. revert i. induction pixels as [|p pixels IH]; intros [|i] H;
    cbn in *; try reflexivity.
  - rewrite H by lia. reflexivity.
  - rewrite IH; [reflexivity|]. intros L. apply H. lia.
Qed.

Lemma length_add_at (pixels : list Num) (i : nat) (v : Num) :
  List.length (add_at pixels i v) = List.length pixels.
Proof. apply length_replace. Qed.

Lemma get_add_at_other (pixels : list Num) (i j : nat) (v : Num) :
  i <> j -> get (add_at pixels j v) i = get pixels i.
Proof. apply get_replace_other. Qed.

Lemma fround_settled (v : Num) : settled v -> fround v = v.
Proof. intros [->| ->]; vm_compute; reflexivity. Qed.

(** What one step of the inner loop leaves as it was, and what it
    settles. *)
Lemma diffuse_spec (width height : nat) (threshold : Num) (y x : nat)
  (pixels : list Num) :
  (x < width)%nat -> (y < height)%nat ->
  let pixels' := diffuse width height threshold y x pixels in
  List.length pixels' = List.length pixels /\
  (forall i, (i < y * width + x \/ width * height <= i)%nat ->
             get pixels' i = get pixels i) /\
  ((y * width + x < List.length pixels)%nat ->
   settled (get pixels' (y * width + x))).
Proof.
  intros X Y. unfold diffuse. cbn zeta.
  set (idx := (y * width + x)%nat).
  set (oldPixel := get pixels idx).
  set (newPixel := if gt oldPixel threshold then num 255 else num 0).
  set (error := sub oldPixel newPixel).
  assert (N : settled newPixel).
  { unfold newPixel. destruct (gt oldPixel threshold); [now right|now left]. }
  assert (B : ((y + 1) * width <= width * height)%nat \/ (height <= y + 1)%nat)
    by nia.
  assert (H0 : forall i, (i < idx \/ width * height <= i)%nat -> i <> idx)
    by (intros i; unfold idx; nia).
  destruct (x + 1 <? width)%nat eqn:E1;
    [apply Nat.ltb_lt in E1|apply Nat.ltb_ge in E1];
    (destruct (y + 1 <? height)%nat eqn:E2;
     [apply Nat.ltb_lt in E2|apply Nat.ltb_ge in E2]);
    (destruct (1 <=? x)%nat eqn:E3;
     [apply Nat.leb_le in E3|apply Nat.leb_gt in E3]);
    repeat split;
    rewrite ?length_add_at; unfold set; rewrite ?length_replace;
    try reflexivity;
    try (intros i Hi; rewrite ?get_add_at_other by (unfold idx; nia);
         apply get_replace_other; unfold idx; nia);
    try (intros L; rewrite ?get_add_at_other by (unfold idx; nia);
         rewrite get_replace_same by exact L;
         rewrite fround_settled by exact N; exact N).
Qed.

Lemma diffuse_settles (width height : nat) (threshold : Num) (y x : nat)
  (pixels : list Num) :
  (x < width)%nat -> (y < height)%nat ->
  settled_below (y * width + x) pixels ->
  settled_below (y * width + x + 1)
    (diffuse width height threshold y x pixels) /\
  same_from (width * height) pixels (diffuse width height threshold y x pixels).
Proof.
  intros X Y S. destruct (diffuse_spec width height threshold y x pixels X Y)
    as (L & K & N).
  split; [|split; [exact L|intros i Hi; apply K; now right]].
  intros i Hi Li. rewrite L in Li.
  destruct (Nat.eq_dec i (y * width + x)) as [->|D]; [now apply N|].
  rewrite K by lia. apply S; lia.
Qed.

Lemma same_from_trans (k : nat) (a b c : list Num) :
  same_from k a b -> same_from k b c -> same_from k a c.
Proof.
  intros [L1 G1] [L2 G2]. split; [congruence|].
  intros i Hi. now rewrite G2, G1.
Qed.

Lemma same_from_refl (k : nat) (a : list Num) : same_from k a a.
Proof. now split. Qed.

Lemma dither_row_settles (width height : nat) (threshold : Num) (y : nat)
  (n a : nat) (pixels : list Num) :
  (a + n <= width)%nat -> (y < height)%nat ->
  settled_below (y * width + a) pixels ->
  let pixels' :=
    fold_left (fun pixels x => diffuse width height threshold y x pixels)
      (seq a n) pixels in
  settled_below (y * width + (a + n)) pixels' /\
  same_from (width * height) pixels pixels'.
Proof.
  revert a pixels. induction n as [|n IH]; intros a pixels A Y S;
    cbn [fold_left seq].
  - rewrite Nat.add_0_r. split; [exact S|apply same_from_refl].
  - destruct (diffuse_settles width height threshold y a pixels) as [S1 F1];
      [lia|exact Y|exact S|].
    destruct (IH (Datatypes.S a) (diffuse width height threshold y a pixels))
      as [S2 F2]; [lia|exact Y| |].
    + now replace (y * width + Datatypes.S a)%nat with (y * width + a + 1)%nat
        by lia.
    + split; [|exact (same_from_trans _ _ _ _ F1 F2)].
      now replace (y * width + (a + Datatypes.S n))%nat
        with (y * width + (Datatypes.S a + n))%nat by lia.
Qed.

Lemma dither_settles (width height : nat) (threshold : Num) (n a : nat)
  (pixels : list Num) :
  (a + n <= height)%nat ->
  settled_below (a * width) pixels ->
  let pixels' :=
    fold_left (fun pixels y => dither_row width height threshold y pixels)
      (seq a n) pixels in
  settled_below ((a + n) * width) pixels' /\
  same_from (width * height) pixels pixels'.
Proof.
  revert a pixels. induction n as [|n IH]; intros a pixels A S;
    cbn [fold_left seq].
  - rewrite Nat.add_0_r. split; [exact S|apply same_from_refl].
  - destruct (dither_row_settles width height threshold a width 0 pixels)
      as [S1 F1]; [lia|lia|now rewrite Nat.add_0_r|].
    fold (dither_row width height threshold a pixels) in S1, F1.
    destruct (IH (Datatypes.S a) (dither_row width height threshold a pixels))
      as [S2 F2]; [lia| |].
    + now replace (Datatypes.S a * width)%nat with (a * width + (0 + width))%nat
        by lia.
    + split; [|exact (same_from_trans _ _ _ _ F1 F2)].
      now replace ((a + Datatypes.S n) * width)%nat
        with ((Datatypes.S a + n) * width)%nat by lia.
Qed.

(** What the last loop makes of a byte that only went through the first. *)
Lemma clamped_contrast (val : Z) :
  (0 <= val <= 255)%Z ->
  clamped_byte (fround (contrast val)) =
  if (val >? 200)%Z then 255%Z else if (val <? 55)%Z then 0%Z else val.
Proof.
  intros R.
  assert (A : forallb
                (fun n =>
                   let val := Z.of_nat n in
                   (clamped_byte (fround (contrast val)) =?
                    (if (val >? 200) then 255
                     else if (val <? 55) then 0 else val))%Z)
                (seq 0 256) = true) by (vm_compute; reflexivity).
  rewrite forallb_forall in A.
  specialize (A (Z.to_nat val)). rewrite Z2Nat.id in A by lia.
  apply Z.eqb_eq, A, in_seq. lia.
Qed.

Lemma get_map_contrast (data : list Z) (i : nat) :
  (i < List.length data)%nat ->
  get (map (fun val => fround (contrast val)) data) i =
  fround (contrast (nth i data 0%Z)).
Proof.
  intros L. unfold get.
  rewrite (nth_indep _ NaN (fround (contrast 0%Z)))
    by now rewrite length_map.
  apply (map_nth (fun val => fround (contrast val))).
Qed.

Lemma nth_map_clamped (pixels : list Num) (i : nat) :
  (i < List.length pixels)%nat ->
  nth i (map clamped_byte pixels) 0%Z = clamped_byte (get pixels i).
Proof.
  intros L. unfold get.
  rewrite (nth_indep _ 0%Z (clamped_byte NaN)) by now rewrite length_map.
  apply map_nth.
Qed.

(** *** Images that are black and white already *)

Lemma add_at_nothing (pixels : list Num) (j : nat) (v : Num) :
  Forall settled pixels ->
  ((j < List.length pixels)%nat -> v = num 0) ->
  add_at pixels j v = pixels.
Proof.
  intros S V. unfold add_at, set. apply replace_get. intros L.
  rewrite (V L). rewrite Forall_forall in S.
  destruct (S (get pixels j)) as [E|E]; [now apply nth_In|rewrite E..];
    vm_compute; reflexivity.
Qed.

Lemma gt_NaN (threshold : Num) : gt NaN threshold = false.
Proof. now destruct threshold. Qed.

Lemma diffuse_nothing (width height : nat) (threshold : Num) (y x : nat)
  (pixels : list Num) :
  (x < width)%nat ->
  gt (num 255) threshold = true -> gt (num 0) threshold = false ->
  Forall settled pixels ->
  diffuse width height threshold y x pixels = pixels.
Proof.
  intros X T1 T0 S. unfold diffuse. cbn zeta.
  set (idx := (y * width + x)%nat).
  assert (E : set pixels idx
                (if gt (get pixels idx) threshold then num 255
                 else num 0) = pixels /\
              forall k, In k [7; 3; 5; 1]%Z ->
                ((idx < List.length pixels)%nat ->
                 div (mul (sub (get pixels idx)
                             (if gt (get pixels idx) threshold then num 255
                              else num 0)) (num k)) (num 16) =
                 num 0)).
  { destruct (Nat.lt_ge_cases idx (List.length pixels)) as [L|L].
    - rewrite Forall_forall in S.
      destruct (S (get pixels idx)) as [V|V]; [now apply nth_In|..];
        rewrite V, ?T0, ?T1.
      + split; [apply replace_get; intros _; rewrite V; vm_compute;
                reflexivity|].
        intros k K _.
        repeat (destruct K as [<-|K]; [vm_compute; reflexivity|]).
        destruct K.
      + split; [apply replace_get; intros _; rewrite V; vm_compute;
                reflexivity|].
        intros k K _.
        repeat (destruct K as [<-|K]; [vm_compute; reflexivity|]).
        destruct K.
    - split; [apply replace_get; lia|]. intros k _ Hk. lia. }
  destruct E as [E0 E]. rewrite E0.
  assert (A : forall j k,
             In k [7; 3; 5; 1]%Z -> (idx < j)%nat ->
             add_at pixels j
               (div (mul (sub (get pixels idx)
                            (if gt (get pixels idx) threshold then num 255
                             else num 0)) (num k)) (num 16)) =
             pixels).
  { intros j k K J. apply add_at_nothing; [exact S|].
    intros L. apply E; [exact K|lia]. }
  destruct (x + 1 <? width)%nat eqn:E1;
    [apply Nat.ltb_lt in E1|apply Nat.ltb_ge in E1];
    (destruct (y + 1 <? height)%nat eqn:E2;
     [apply Nat.ltb_lt in E2|apply Nat.ltb_ge in E2]);
    (destruct (1 <=? x)%nat eqn:E3;
     [apply Nat.leb_le in E3|apply Nat.leb_gt in E3]);
    rewrite ?A by (first [unfold idx; nia|cbn [In]; auto 6]); reflexivity.
Qed.

Lemma fold_nothing {A : Type} (f : list Num -> A -> list Num)
  (l : list A) (pixels : list Num) :
  (forall a, In a l -> f pixels a = pixels) -> fold_left f l pixels = pixels.
Proof.
  intros H. induction l as [|a l IH]; cbn [fold_left]; [reflexivity|].
  rewrite H by now left. apply IH. intros b I. apply H. now right.
Qed.

Lemma dither_nothing (width height : nat) (threshold : Num)
  (pixels : list Num) :
  gt (num 255) threshold = true -> gt (num 0) threshold = false ->
  Forall settled pixels ->
  dither width height threshold pixels = pixels.
Proof.
  intros T1 T0 S. unfold dither. apply fold_nothing. intros y _.
  unfold dither_row. apply fold_nothing. intros x I. apply in_seq in I.
  apply diffuse_nothing; [lia|assumption..].
Qed.

End DitheringFacts.

(* ------------------------------------------------------------------ *)
(** ** The URL safety utility *)

Module UrlSafetyFacts.
Import Text Vocabulary TextFacts Numbers UrlSafety.

(** A fact of every octet, by running through them. *)
Lemma every_octet (P : N -> bool) :
  forallb (fun n => P (N.of_nat n)) (seq 0 256) = true ->
  forall n, (n < 256)%N -> P n = true.
Proof.
  intros A n L. rewrite forallb_forall in A.
  specialize (A (N.to_nat n)). rewrite N2Nat.id in A.
  apply A, in_seq. lia.
Qed.

Lemma decimal_digits (n : N) :
  (n < 256)%N -> decimal n <> "" /\ all_chars is_digit (decimal n) = true.
Proof.
  intros L.
  pose proof (every_octet
                (fun n => negb (decimal n =? "") && all_chars is_digit (decimal n))
                ltac:(vm_compute; reflexivity) n L) as H.
  apply andb_prop in H as [H1 H2]. split; [|exact H2].
  intros E. rewrite E in H1. discriminate.
Qed.

Lemma digit_not_dot (c : ascii) : is_digit c = true -> (c =? ".")%char = false.
Proof.
  intros D. destruct (c =? ".")%char eqn:E; [|reflexivity].
  apply Ascii.eqb_eq in E. subst c. discriminate.
Qed.

(** *** [split] *)

Lemma split_digits (a r : string) :
  all_chars is_digit a = true ->
  split "." (a ++ "." ++ r) = a :: split "." r.
Proof.
  change ("." ++ r) with (String "." r).
  induction a as [|c a IH]; cbn [append split all_chars]; intros D.
  - reflexivity.
  - apply andb_prop in D as [D1 D2]. rewrite (digit_not_dot c D1).
    now rewrite (IH D2).
Qed.

Lemma split_digits_end (a : string) :
  all_chars is_digit a = true -> split "." a = [a].
Proof.
  induction a as [|c a IH]; cbn [split all_chars]; intros D.
  - reflexivity.
  - apply andb_prop in D as [D1 D2]. rewrite (digit_not_dot c D1).
    now rewrite (IH D2).
Qed.

Lemma split_nonempty (s : string) : split "." s <> [].
Proof.
  destruct s as [|c s]; cbn [split]; [discriminate|].
  destruct (c =? ".")%char; [discriminate|].
  destruct (split "." s); discriminate.
Qed.

Lemma length_split (s : string) :
  List.length (split "." s) = S (count "." s).
Proof.
  induction s as [|c s IH]; cbn [split count]; [reflexivity|].
  destruct (c =? ".")%char; cbn [List.length Nat.add]; [now rewrite IH|].
  destruct (split "." s) eqn:E; [now apply split_nonempty in E|].
  cbn [List.length] in *. exact IH.
Qed.

Lemma count_app (c : ascii) (a b : string) :
  count c (a ++ b) = (count c a + count c b)%nat.
Proof. induction a as [|d a IH]; cbn [append count]; [reflexivity|]. rewrite IH. lia. Qed.

Lemma count_digits (a : string) :
  all_chars is_digit a = true -> count "." a = 0%nat.
Proof.
  induction a as [|c a IH]; cbn [count all_chars]; intros D; [reflexivity|].
  apply andb_prop in D as [D1 D2]. now rewrite (digit_not_dot c D1), (IH D2).
Qed.

(** *** The regexp *)

(** [\d+] takes the digits [a] when no digit follows them. *)
Lemma digits_then_app (next : string -> bool) (seen : bool) (a r : string) :
  all_chars is_digit a = true ->
  match r with String c _ => is_digit c = false | EmptyString => True end ->
  digits_then next seen (a ++ r) =
  (seen || negb (a =? "")%string) && next r.
Proof.
  revert seen. induction a as [|c a IH]; intros seen D R.
  - cbn [append String.eqb negb]. rewrite orb_false_r.
    destruct r as [|c r]; cbn [digits_then]; [reflexivity|]. now rewrite R.
  - cbn [all_chars] in D. apply andb_prop in D as [D1 D2].
    cbn [append digits_then]. rewrite D1, (IH true D2 R).
    cbn [orb String.eqb negb]. now rewrite orb_true_r.
Qed.

(** A match of [\d+] and [next] is digits and a rest that [next]
    matches. *)
Lemma digits_then_inv (next : string -> bool) (seen : bool) (s : string) :
  digits_then next seen s = true ->
  exists a r,
    s = a ++ r /\ all_chars is_digit a = true /\ next r = true /\
    (seen = true \/ exists c, head a = Some c /\ is_digit c = true).
Proof.
  revert seen. induction s as [|c s IH]; intros seen H; cbn [digits_then] in H.
  - apply andb_prop in H as [-> H]. exists "", "". now repeat split; try left.
  - destruct (is_digit c) eqn:D.
    + destruct (IH true H) as (a & r & -> & A & N & _).
      exists (String c a), r. cbn [append all_chars head]. rewrite D, A.
      repeat split; [exact N|]. right. now exists c.
    + apply andb_prop in H as [-> H]. exists "", (String c s).
      now repeat split; try left.
Qed.

Lemma dot_then_inv (next : string -> bool) (s : string) :
  dot_then next s = true -> exists r, s = String "." r /\ next r = true.
Proof.
  destruct s as [|c s]; cbn [dot_then]; [discriminate|]. intros H.
  apply andb_prop in H as [E N]. apply Ascii.eqb_eq in E as ->. now exists s.
Qed.

Lemma strip_prefix_i_inv (p s r : string) :
  strip_prefix_i p s = Some r ->
  exists q, s = q ++ r /\ String.length q = String.length p /\
            toLowerCase q = toLowerCase p.
Proof.
  revert s. induction p as [|c p IH]; intros s H; cbn [strip_prefix_i] in H.
  - injection H as ->. now exists "".
  - destruct s as [|d s]; [discriminate|].
    destruct (lower c =? lower d)%char eqn:E; [|discriminate].
    apply Ascii.eqb_eq in E. destruct (IH s H) as (q & -> & L & Q).
    exists (String d q). cbn [append String.length toLowerCase].
    now rewrite L, Q, E.
Qed.

Lemma count_lower (s : string) :
  count "." (toLowerCase s) = count "." s.
Proof.
  induction s as [|c s IH]; cbn [toLowerCase count]; [reflexivity|].
  rewrite IH. f_equal.
  destruct c as [[] [] [] [] [] [] [] []]; reflexivity.
Qed.

(** What the regexp matches: a spelling of [::ffff:] and a group of four
    runs of digits with three dots between them; the group starts with a
    digit. *)
Lemma ipv4Mapped_inv (ip group : string) :
  ipv4Mapped ip = Some group ->
  (exists q, ip = q ++ group /\ String.length q = 7%nat) /\
  count "." ip = 3%nat /\
  exists c, head group = Some c /\ is_digit c = true.
Proof.
  unfold ipv4Mapped. destruct (strip_prefix_i "::ffff:" ip) as [g|] eqn:P;
    [|discriminate].
  destruct (digits_then _ false g) eqn:M; [|discriminate].
  intros [= <-].
  destruct (strip_prefix_i_inv _ _ _ P) as (q & -> & L & Q).
  apply digits_then_inv in M as (a1 & r1 & -> & A1 & M & [F|H1]);
    [discriminate|].
  apply dot_then_inv in M as (r & -> & M).
  apply digits_then_inv in M as (a2 & r2 & -> & A2 & M & _).
  apply dot_then_inv in M as (r & -> & M).
  apply digits_then_inv in M as (a3 & r3 & -> & A3 & M & _).
  apply dot_then_inv in M as (r & -> & M).
  apply digits_then_inv in M as (a4 & r4 & -> & A4 & M & _).
  destruct r4; [|discriminate]. split; [now exists q|]. split.
  - repeat (rewrite !count_app; cbn [count]).
    rewrite (count_digits a1 A1), (count_digits a2 A2), (count_digits a3 A3),
      (count_digits a4 A4).
    rewrite <- (count_lower q), Q. reflexivity.
  - destruct H1 as (c & H1 & D). exists c. split; [|exact D].
    destruct a1; [discriminate|]. exact H1.
Qed.

Lemma ipv4Mapped_digit (c : ascii) (s : string) :
  is_digit c = true -> ipv4Mapped (String c s) = None.
Proof.
  intros D. unfold ipv4Mapped. cbn [strip_prefix_i].
  replace (lower ":" =? lower c)%char with false; [reflexivity|].
  destruct c as [[] [] [] [] [] [] [] []]; try discriminate D; reflexivity.
Qed.

Lemma ipv4Mapped_plain (a b c d : N) :
  (a < 256)%N -> ipv4Mapped (dotted a b c d) = None.
Proof.
  intros A. destruct (decimal_digits a A) as [NA DA]. unfold dotted.
  destruct (decimal a) as [|x s]; [congruence|].
  cbn [all_chars] in DA. apply andb_prop in DA as [DA _].
  cbn [append]. apply (ipv4Mapped_digit x _ DA).
Qed.

(** The regexp on the spellings of an IPv4-mapped address in decimal. *)
Lemma ipv4Mapped_dotted (a b c d : N) (prefix : string) :
  (a < 256)%N -> (b < 256)%N -> (c < 256)%N -> (d < 256)%N ->
  strip_prefix_i "::ffff:" (prefix ++ dotted a b c d) = Some (dotted a b c d) ->
  ipv4Mapped (prefix ++ dotted a b c d) = Some (dotted a b c d).
Proof.
  intros A B C D P. unfold ipv4Mapped. rewrite P. unfold dotted.
  destruct (decimal_digits a A) as [NA DA], (decimal_digits b B) as [NB DB],
    (decimal_digits c C) as [NC DC], (decimal_digits d D) as [ND DD].
  assert (E : forall s, s <> "" -> negb (s =? "")%string = true).
  { intros s N. destruct (s =? "")%string eqn:E; [|reflexivity].
    now apply String.eqb_eq in E. }
  rewrite digits_then_app by (exact DA || reflexivity).
  rewrite (E _ NA). cbn [orb andb append dot_then Ascii.eqb Bool.eqb].
  rewrite digits_then_app by (exact DB || reflexivity).
  rewrite (E _ NB). cbn [orb andb append dot_then Ascii.eqb Bool.eqb].
  rewrite digits_then_app by (exact DC || reflexivity).
  rewrite (E _ NC). cbn [orb andb append dot_then Ascii.eqb Bool.eqb].
  rewrite <- (append_nil_r (decimal d)) at 1.
  rewrite digits_then_app by (exact DD || exact I).
  rewrite (E _ ND). reflexivity.
Qed.

(** *** Octets as Numbers *)

Lemma every_octets (P : N -> N -> bool) :
  forallb
    (fun n => forallb (fun k => P (N.of_nat n) (N.of_nat k)) (seq 0 256))
    (seq 0 256) = true ->
  forall n k, (n < 256)%N -> (k < 256)%N -> P n k = true.
Proof.
  intros A n k Ln Lk. rewrite forallb_forall in A.
  specialize (A (N.to_nat n)). rewrite forallb_forall in A by (apply in_seq; lia).
  specialize (A ltac:(apply in_seq; lia) (N.to_nat k)).
  rewrite !N2Nat.id in A. apply A, in_seq. lia.
Qed.

Lemma isNaN_octet (n : N) : (n < 256)%N -> isNaN (num (Z.of_N n)) = false.
Proof.
  intros L. apply negb_true_iff.
  exact (every_octet (fun n => negb (isNaN (num (Z.of_N n))))
           ltac:(vm_compute; reflexivity) n L).
Qed.

Lemma strict_eq_octets (n k : N) :
  (n < 256)%N -> (k < 256)%N ->
  strict_eq (num (Z.of_N n)) (num (Z.of_N k)) = (n =? k)%N.
Proof.
  intros Ln Lk. apply Bool.eqb_prop.
  exact (every_octets
           (fun n k =>
              Bool.eqb (strict_eq (num (Z.of_N n)) (num (Z.of_N k))) (n =? k)%N)
           ltac:(vm_compute; reflexivity) n k Ln Lk).
Qed.

Lemma le_octets (n k : N) :
  (n < 256)%N -> (k < 256)%N ->
  le (num (Z.of_N n)) (num (Z.of_N k)) = (n <=? k)%N.
Proof.
  intros Ln Lk. apply Bool.eqb_prop.
  exact (every_octets
           (fun n k =>
              Bool.eqb (le (num (Z.of_N n)) (num (Z.of_N k))) (n <=? k)%N)
           ltac:(vm_compute; reflexivity) n k Ln Lk).
Qed.

Section WithNumber.
Variable Number : string -> Num.

(** *** The calls of [isPrivateIp] *)

(** [isPrivateIp] returns: its second call is its last. *)
Lemma isPrivateIp_calls (ip : string) :
  isPrivateIp Number ip =
  match ipv4Mapped ip with
  | Some group => isPrivateIp_unmapped Number group
  | None => isPrivateIp_unmapped Number ip
  end.
Proof.
  unfold isPrivateIp. cbn [isPrivateIp_within].
  destruct (ipv4Mapped ip) as [group|] eqn:M; [|reflexivity].
  destruct (ipv4Mapped_inv ip group M) as ((q & -> & L) & _ & c & H & D).
  rewrite length_append, L. cbn [Nat.add isPrivateIp_within].
  destruct group as [|c' group]; [discriminate|]. injection H as ->.
  now rewrite (ipv4Mapped_digit c group D).
Qed.

(** *** Dotted quads *)

Hypothesis Number_octets : reads_octets Number.

Lemma isPrivateIp_unmapped_dotted (a b c d : N) :
  (a < 256)%N -> (b < 256)%N -> (c < 256)%N -> (d < 256)%N ->
  isPrivateIp_unmapped Number (dotted a b c d) = reserved_ipv4 a b.
Proof.
  intros A B C D. unfold isPrivateIp_unmapped, dotted. cbn zeta.
  destruct (decimal_digits a A) as [_ DA], (decimal_digits b B) as [_ DB],
    (decimal_digits c C) as [_ DC], (decimal_digits d D) as [_ DD].
  rewrite (split_digits _ _ DA), (split_digits _ _ DB), (split_digits _ _ DC),
    (split_digits_end _ DD).
  cbn [map List.length Nat.eqb forallb nth andb].
  rewrite !Number_octets by assumption.
  rewrite !isNaN_octet by assumption. cbn [negb andb].
  change (num 127) with (num (Z.of_N 127)).
  change (num 10) with (num (Z.of_N 10)).
  change (num 172) with (num (Z.of_N 172)).
  change (num 16) with (num (Z.of_N 16)).
  change (num 31) with (num (Z.of_N 31)).
  change (num 192) with (num (Z.of_N 192)).
  change (num 168) with (num (Z.of_N 168)).
  change (num 169) with (num (Z.of_N 169)).
  change (num 254) with (num (Z.of_N 254)).
  change (num 0) with (num (Z.of_N 0)).
  unfold ge. rewrite !strict_eq_octets, !le_octets by (assumption || reflexivity).
  reflexivity.
Qed.

End WithNumber.

(** *** The IPv6 rules *)

Lemma starts_with_class_spec (s first : string) (second : list ascii) :
  starts_with_class s first second = true <->
  exists c rest, In c second /\ s = first ++ String c rest.
Proof.
  unfold starts_with_class. split.
  - destruct (strip_prefix first s) as [[|c rest]|] eqn:P; try discriminate.
    intros H. apply existsb_exists in H as (x & I & E).
    apply Ascii.eqb_eq in E as <-. exists c, rest. split; [exact I|].
    now apply strip_prefix_inv.
  - intros (c & rest & I & ->). rewrite strip_prefix_app.
    apply existsb_exists. exists c. split; [exact I|apply Ascii.eqb_refl].
Qed.

Lemma digits_Number_octets : reads_octets digits_Number.
Proof.
  intros n _. unfold digits_Number, decimal.
  now rewrite NilEmpty.usu, DecimalN.Unsigned.of_to.
Qed.

End UrlSafetyFacts.

(** * The claims of the specification *)

Import Text Regex ScriptExecutorService Vocabulary.
Import TextFacts RegexFacts ValidationFacts.

(** ** C5: oversized scripts *)

(** C5. For every script longer than [MAX_SCRIPT_LENGTH] (10000 characters)
    [execute] returns [success = false] with the message
    [Script too large: <length> characters (max 10000)] (which reads
    "script too large" up to letter case and contains "too large"); the only
    thing it does besides is log that message: no context is created and no
    script is compiled or run. *)
Theorem oversized_script_rejected_before_realm
  (R : Runtime) (code : string) (data : JsValue R) (mode : Mode) :
  (MAX_SCRIPT_LENGTH < Text.length code)%N ->
  MAX_SCRIPT_LENGTH = 10000%N /\
  execute R code data mode
  = (Normal (failure R (too_large_message code)),
     [EvWarn ("Script execution failed: " ++ too_large_message code)]) /\
  existsb touches_realm (snd (execute R code data mode)) = false /\
  includes (toLowerCase (too_large_message code)) "script too large" = true /\
  includes (too_large_message code) "too large" = true.
Proof.
  intros H.
  pose proof (execute_rejected R code data mode _ (validate_too_large R code H)) as E.
  split; [reflexivity|]. split; [exact E|]. split; [now rewrite E|]. split.
  - unfold too_large_message. rewrite toLowerCase_app.
    exact (includes_app "" "script too large" _).
  - unfold too_large_message.
    exact (includes_app "Script " "too large" _).
Qed.

Lemma oversized_script_witness :
  (MAX_SCRIPT_LENGTH < Text.length oversized_loop)%N /\
  execute RefRealm.runtime oversized_loop RefRealm.VUndefined ValueMode
  = (Normal (failure RefRealm.runtime (too_large_message oversized_loop)),
     [EvWarn ("Script execution failed: " ++ too_large_message oversized_loop)]).
Proof.
  assert (H : (MAX_SCRIPT_LENGTH < Text.length oversized_loop)%N)
    by (vm_compute; reflexivity).
  split; [exact H|].
  exact (proj1 (proj2 (oversized_script_rejected_before_realm
                         RefRealm.runtime oversized_loop RefRealm.VUndefined
                         ValueMode H))).
Defined.

(** ** C4: the denylist *)

(** C4, as the code has it.  For every script within the size limit: if a
    denylisted token occurs in it as a whole word (delimited on both sides by
    the edge of the text or a character other than a letter, a digit or an
    underscore), [execute] returns [success = false] with the message
    [Script contains forbidden keyword: <token>], naming the first token of
    the denylist that so occurs (the token itself when it is the only one);
    and if no denylisted token so occurs, validation passes.  A dollar sign
    is not a word character: a token glued to one is a whole word. *)
Theorem denylisted_word_rejected
  (R : Runtime) (code : string) (data : JsValue R) (mode : Mode) :
  (Text.length code <= MAX_SCRIPT_LENGTH)%N ->
  (forall token, In token denylist -> whole_word token code ->
     exists offending,
       first_offender code offending /\
       ((forall other, In other denylist -> whole_word other code ->
                       other = token) -> offending = token) /\
       fst (execute R code data mode)
       = Normal (failure R (forbidden_keyword_message offending)) /\
       includes (forbidden_keyword_message offending) "forbidden keyword"
       = true /\
       includes (forbidden_keyword_message offending) offending = true)
  /\
  ((forall token, In token denylist -> ~ whole_word token code) ->
   validateScript R code = ret R tt).
Proof.
  intros Hsize. split.
  - intros token Hin Hw.
    destruct (execute_blocked R code data mode token Hsize Hin Hw)
      as (offending & Hfirst & E).
    exists offending. split; [exact Hfirst|].
    destruct (first_offender_in _ _ Hfirst) as [Hin' Hw'].
    split; [intros Honly; now apply Honly|].
    split; [now rewrite E|]. apply forbidden_keyword_message_includes.
  - intros Hnone. apply validate_ok; [exact Hsize|].
    rewrite BLOCKED_PATTERNS_denylist.
    exact (proj2 (first_blocked_none _ _ denylist_wordy) Hnone).
Qed.

Lemma denylisted_word_witness :
  (Text.length "return eval(x);" <= MAX_SCRIPT_LENGTH)%N /\
  (In "eval" denylist /\ whole_word "eval" "return eval(x);") /\
  exists offending,
    first_offender "return eval(x);" offending /\
    ((forall other, In other denylist -> whole_word other "return eval(x);" ->
                    other = "eval") -> offending = "eval") /\
    fst (execute RefRealm.runtime "return eval(x);" RefRealm.VUndefined
           ValueMode)
    = Normal (failure RefRealm.runtime (forbidden_keyword_message offending)) /\
    includes (forbidden_keyword_message offending) "forbidden keyword" = true /\
    includes (forbidden_keyword_message offending) offending = true.
Proof.
  assert (Hsize : (Text.length "return eval(x);" <= MAX_SCRIPT_LENGTH)%N)
    by (vm_compute; discriminate).
  assert (Hin : In "eval" denylist) by (simpl; tauto).
  assert (Hw : whole_word "eval" "return eval(x);")
    by (apply delimited_decide; vm_compute; reflexivity).
  split; [exact Hsize|]. split; [now split|].
  exact (proj1 (denylisted_word_rejected RefRealm.runtime "return eval(x);"
                  RefRealm.VUndefined ValueMode Hsize) "eval" Hin Hw).
Defined.

(** C4 as stated fails: in [return my$eval;] no denylisted token is a whole
    identifier ([eval] occurs only inside the longer identifier [my$eval]),
    and the script is rejected for [eval]. *)
Lemma dollar_identifier_rejected :
  (Text.length "return my$eval;" <= MAX_SCRIPT_LENGTH)%N /\
  (forall token, In token denylist ->
                 ~ whole_identifier token "return my$eval;") /\
  fst (execute RefRealm.runtime "return my$eval;" RefRealm.VUndefined ValueMode)
  = Normal (failure RefRealm.runtime "Script contains forbidden keyword: eval").
Proof.
  split; [vm_compute; discriminate|]. split; [|reflexivity].
  intros token Hin Hw. apply delimited_decide in Hw. simpl in Hin.
  repeat (destruct Hin as [<-|Hin]; [vm_compute in Hw; discriminate|]).
  destruct Hin.
Qed.

(** ** C10: the screening is textual *)

(** C10, as the code has it.  For every script within the size limit in
    which a denylisted token occurs as a whole word, anywhere in the text,
    [execute] returns [success = false] with a "forbidden keyword" message;
    the only thing it does besides is log that message: no context is
    created and no script is compiled or run. *)
Theorem denylisted_word_never_executed
  (R : Runtime) (code : string) (data : JsValue R) (mode : Mode)
  (token : string) :
  (Text.length code <= MAX_SCRIPT_LENGTH)%N ->
  In token denylist ->
  whole_word token code ->
  exists offending,
    first_offender code offending /\
    execute R code data mode
    = (Normal (failure R (forbidden_keyword_message offending)),
       [EvWarn ("Script execution failed: "
                  ++ forbidden_keyword_message offending)]) /\
    existsb touches_realm (snd (execute R code data mode)) = false /\
    includes (forbidden_keyword_message offending) "forbidden keyword" = true.
Proof.
  intros Hsize Hin Hw.
  destruct (execute_blocked R code data mode token Hsize Hin Hw)
    as (offending & Hfirst & E).
  exists offending. split; [exact Hfirst|]. split; [exact E|].
  split; [now rewrite E|]. apply forbidden_keyword_message_includes.
Qed.

(** A token inside a string literal and another inside a comment. *)
Lemma denylisted_word_in_literal_witness :
  let code := "return 'process'; // uses eval" in
  (Text.length code <= MAX_SCRIPT_LENGTH)%N /\
  In "process" denylist /\
  whole_word "process" code /\
  exists offending,
    first_offender code offending /\
    execute RefRealm.runtime code RefRealm.VUndefined ValueMode
    = (Normal (failure RefRealm.runtime (forbidden_keyword_message offending)),
       [EvWarn ("Script execution failed: "
                  ++ forbidden_keyword_message offending)]) /\
    existsb touches_realm
      (snd (execute RefRealm.runtime code RefRealm.VUndefined ValueMode))
    = false /\
    includes (forbidden_keyword_message offending) "forbidden keyword" = true.
Proof.
  intros code.
  assert (Hsize : (Text.length code <= MAX_SCRIPT_LENGTH)%N)
    by (vm_compute; discriminate).
  assert (Hin : In "process" denylist) by (simpl; tauto).
  assert (Hw : whole_word "process" code)
    by (apply delimited_decide; vm_compute; reflexivity).
  split; [exact Hsize|]. split; [exact Hin|]. split; [exact Hw|].
  exact (denylisted_word_never_executed RefRealm.runtime code
           RefRealm.VUndefined ValueMode "process" Hsize Hin Hw).
Defined.

(** C10 as stated fails: an oversized script that contains [eval] as a
    whole word is rejected for its size, and the message does not mention a
    forbidden keyword. *)
Lemma oversized_denylisted_word :
  whole_word "eval" oversized_eval /\
  fst (execute RefRealm.runtime oversized_eval RefRealm.VUndefined ValueMode)
  = Normal (failure RefRealm.runtime
              "Script too large: 10017 characters (max 10000)") /\
  includes "Script too large: 10017 characters (max 10000)" "forbidden keyword"
  = false.
Proof.
  split; [apply delimited_decide; vm_compute; reflexivity|].
  split; vm_compute; reflexivity.
Qed.

(** ** C3: the shape of a result *)

Import Pipeline ExecuteFacts.

(** C3. Every result [execute] returns: with [success = true] it has no
    error; with [success = false] it has an error and neither a value nor
    variables; it never has a value or variables together with an error. *)
Theorem result_never_mixes_output_and_error
  (R : Runtime) (code : string) (data : JsValue R) (mode : Mode)
  (r : ScriptResult (JsValue R)) :
  fst (execute R code data mode) = Normal r ->
  (success r = true -> error r = None) /\
  (success r = false ->
   (exists message, error r = Some message) /\
   value r = None /\ variables r = None) /\
  (value r <> None \/ variables r <> None -> error r = None).
Proof.
  intros H.
  destruct (execute_shape R code data mode r H) as [(m & ->)|(v & ->)].
  - cbn. split; [discriminate|]. split.
    + intros _. split; [now exists m|]. now split.
    + intros [N|N]; now destruct N.
  - destruct mode; cbn; (split; [reflexivity|]); (split; [discriminate|]);
      reflexivity.
Qed.

Lemma result_shape_witness :
  let r := mkResult true (Some (RefRealm.VNumber 42)) None None in
  fst (execute RefRealm.runtime "return 42;" (RefRealm.VObject []) ValueMode)
  = Normal r /\
  (success r = true -> error r = None) /\
  (success r = false ->
   (exists message, error r = Some message) /\
   value r = None /\ variables r = None) /\
  (value r <> None \/ variables r <> None -> error r = None).
Proof.
  intros r.
  assert (H : fst (execute RefRealm.runtime "return 42;" (RefRealm.VObject [])
                     ValueMode) = Normal r) by reflexivity.
  split; [exact H|].
  exact (result_never_mixes_output_and_error RefRealm.runtime "return 42;"
           (RefRealm.VObject []) ValueMode r H).
Defined.

(** ** C2: failures become results *)

(** C2, as the code has it.  Whenever the value a failing stage throws can
    be converted to a string, [execute] returns a result: the stage's result
    with [success = true] when every stage succeeds, and otherwise, for the
    stage that failed (validation, serialisation of the data, compilation,
    or a run that threw or timed out), [success = false] with the message of
    what was caught -- the message of a host [Error], the string form of any
    other value -- which is not empty for a validation rejection. *)
Theorem failures_become_results
  (R : Runtime) (code : string) (data : JsValue R) (mode : Mode) :
  (forall cls v, stage R code data mode = Failed cls (Other v) ->
                 exists message, js_String R v = Normal message) ->
  exists r,
    fst (execute R code data mode) = Normal r /\
    match stage R code data mode with
    | Succeeded r' => r = r' /\ success r = true
    | Failed cls e =>
        exists message,
          message_of R e = Some message /\
          r = failure R message /\
          success r = false /\ error r = Some message /\
          (cls = ValidationRejected -> message <> "")
    end.
Proof.
  intros Hconv.
  destruct (execute_ends R code data mode)
    as [r St Hs He|cls e m St Hm Hv|cls e c St Hm].
  - exists r. split; [reflexivity|]. now rewrite St.
  - exists (failure R m). split; [reflexivity|]. rewrite St.
    exists m. repeat split; auto.
  - exfalso. destruct e as [m|v]; [discriminate|].
    destruct (Hconv _ _ St) as (m & S). cbn in Hm. now rewrite S in Hm.
Qed.

Lemma failures_become_results_witness :
  (forall cls v,
     stage RefRealm.runtime "return $.foo.bar;" (RefRealm.VObject []) ValueMode
     = Failed cls (Other v) ->
     exists message, js_String RefRealm.runtime v = Normal message) /\
  exists r,
    fst (execute RefRealm.runtime "return $.foo.bar;" (RefRealm.VObject [])
           ValueMode) = Normal r /\
    match stage RefRealm.runtime "return $.foo.bar;" (RefRealm.VObject [])
            ValueMode with
    | Succeeded r' => r = r' /\ success r = true
    | Failed cls e =>
        exists message,
          message_of RefRealm.runtime e = Some message /\
          r = failure RefRealm.runtime message /\
          success r = false /\ error r = Some message /\
          (cls = ValidationRejected -> message <> "")
    end.
Proof.
  assert (H : forall cls v,
             stage RefRealm.runtime "return $.foo.bar;" (RefRealm.VObject [])
               ValueMode = Failed cls (Other v) ->
             exists message, js_String RefRealm.runtime v = Normal message)
    by (intros cls v _; eexists; reflexivity).
  split; [exact H|].
  exact (failures_become_results RefRealm.runtime "return $.foo.bar;"
           (RefRealm.VObject []) ValueMode H).
Defined.

(** C2 as stated fails: the script [throw ''] fails in the run stage with
    the empty string as the thrown value, and the result carries the empty
    message. *)
Lemma thrown_empty_string_has_empty_message :
  stage RefRealm.runtime "throw ''" (RefRealm.VObject []) ValueMode
  = Failed RunFailed (Other (RefRealm.VString "")) /\
  fst (execute RefRealm.runtime "throw ''" (RefRealm.VObject []) ValueMode)
  = Normal (mkResult false None None (Some "")).
Proof. split; reflexivity. Qed.

(** ** C8: scripts that do not finish *)

Import RefRealm RealmVocabulary JsonFacts RealmFacts.
Import TemplateVocabulary ScanFacts TemplateFacts.




(** ** C9: which names template mode collects *)




(** ** C7: the declared variables of template mode *)




(** ** Further properties of [execute] *)

(** The data reach the realm as their JSON text and in no other way: two
    calls whose data serialise alike do and return the same. *)
Theorem data_enters_as_json_text (R : Runtime) (code : string)
  (data1 data2 : JsValue R) (mode : Mode) :
  JSON_stringify R (coalesce_null R data1)
  = JSON_stringify R (coalesce_null R data2) ->
  execute R code data1 mode = execute R code data2 mode.
Proof.
  intros H. unfold execute.
  destruct (validateScript R code) as [[[]|e] t]; cbn -[coalesce_null];
    rewrite ?H; reflexivity.
Qed.

(** A host error object as data: its JSON text is that of an empty
    object. *)
Lemma data_enters_as_json_text_witness :
  let host_error := VError "Error" "secret" in
  JSON_text host_error = JSON_text (VObject []) /\
  execute runtime "return $" host_error ValueMode
  = execute runtime "return $" (VObject []) ValueMode.
Proof.
  intros host_error.
  assert (H : JSON_stringify runtime (coalesce_null runtime host_error)
              = JSON_stringify runtime (coalesce_null runtime (VObject [])))
    by reflexivity.
  split; [reflexivity|].
  exact (data_enters_as_json_text runtime "return $" host_error (VObject [])
           ValueMode H).
Defined.

(** The [catch] clauses do not guard the conversion of what they caught:
    when a stage fails with a value whose conversion to a string throws that
    value again, the throw leaves [execute]. *)
Theorem unconvertible_throw_escapes (R : Runtime) (code : string)
  (data : JsValue R) (mode : Mode) (cls : FailureClass) (v : JsValue R) :
  stage R code data mode = Failed cls (Other v) ->
  js_String R v = Throw (Other v) ->
  fst (execute R code data mode) = Throw (Other v).
Proof.
  intros St S.
  assert (Cv : caught R (Other v) = Throw (Other v)) by (cbn; now rewrite S).
  rewrite fst_execute. unfold stage in St. unfold body_outcome.
  destruct (fst (validateScript R code)).
  2:{ injection St as _ ->. exact Cv. }
  destruct (JSON_stringify R (coalesce_null R data)) as [dataJson|].
  2:{ injection St as _ ->. exact Cv. }
  destruct (new_Script R (initSource dataJson)) as [init|].
  2:{ injection St as _ ->. exact Cv. }
  destruct (runInContext R init (scrubbed R (createContext R)) TIMEOUT_MS)
    as [v0 context|].
  2:{ injection St as _ ->. exact Cv. }
  unfold run_wrapped in St. unfold wrapped_outcome.
  destruct (new_Script R (wrapped_source mode code)) as [script|e].
  - destruct (runInContext R script context TIMEOUT_MS) as [v1 ctx|e].
    + discriminate.
    + injection St as _ ->. now rewrite Cv.
  - injection St as _ ->. now rewrite Cv.
Qed.

Lemma unconvertible_throw_witness :
  stage ThrowingRealm.runtime "return 1;" tt ValueMode
  = Failed RunFailed (Other tt) /\
  js_String ThrowingRealm.runtime tt = Throw (Other tt) /\
  fst (execute ThrowingRealm.runtime "return 1;" tt ValueMode)
  = Throw (Other tt).
Proof.
  assert (S : stage ThrowingRealm.runtime "return 1;" tt ValueMode
              = Failed RunFailed (Other tt)) by reflexivity.
  split; [exact S|]. split; [reflexivity|].
  exact (unconvertible_throw_escapes ThrowingRealm.runtime "return 1;" tt
           ValueMode RunFailed tt S eq_refl).
Defined.

Import CallVocabulary CallFacts.

(** [execute] calls into the runtime in a fixed order and bounds every run:
    what a call does is a beginning of: create the context, compile the
    injection script, run it under the timeout, compile the wrapped user
    script, run it under the timeout; then at most one warning in the log.
    It gets as far as compiling the user's script exactly when validation,
    serialisation and the injection succeed; every run it starts is given
    [TIMEOUT_MS], 1000. *)
Theorem runtime_calls_in_order (R : Runtime) (code : string)
  (data : JsValue R) (mode : Mode) :
  exists k log,
    snd (execute R code data mode)
    = (firstn k
         [ EvCreateContext;
           EvCompile (initSource
                        (match JSON_stringify R (coalesce_null R data) with
                         | Normal dataJson => dataJson
                         | Throw _ => None
                         end));
           EvRun TIMEOUT_MS;
           EvCompile (wrapped_source mode code);
           EvRun TIMEOUT_MS ] ++ log)%list /\
    (k <= 5)%nat /\
    (log = [] \/ exists message, log = [log_line message]) /\
    (reaches_user_script R code data = true <-> (4 <= k)%nat) /\
    (forall timeout,
       In (EvRun timeout) (snd (execute R code data mode)) ->
       timeout = 1000%N).
Proof.
  destruct (execute_events R code data mode)
    as (k & log & E & K & U & L & _).
  exists k, log. split; [exact E|]. split; [exact K|]. split.
  { destruct L as [L|(m & L & _)]; [now left|right; now exists m]. }
  split; [exact U|].
  intros timeout H. rewrite E in H. apply in_app_or in H as [H|H].
  - exact (planned_trace_timeouts R code data mode k timeout H).
  - destruct L as [->|(m & -> & _)]; [destruct H|].
    destruct H as [H|[]]. discriminate.
Qed.

(** Which failures reach the log.  When every thrown value converts to a
    string, [execute] returns a result, and: a call that fails before it
    gets to the user's script (validation, serialisation of the data,
    compilation or run of the injection script) logs one warning, [Script
    execution failed: <message>] with the message of the result, as the last
    thing it does; a call that gets to the user's script logs nothing,
    whether the script compiles, throws, times out or succeeds. *)
Theorem early_failures_are_logged (R : Runtime) (code : string)
  (data : JsValue R) (mode : Mode) :
  (forall v, exists message, js_String R v = Normal message) ->
  exists r,
    fst (execute R code data mode) = Normal r /\
    if reaches_user_script R code data
    then existsb is_warn (snd (execute R code data mode)) = false
    else
      exists message k,
        r = failure R message /\
        (k <= 3)%nat /\
        snd (execute R code data mode)
        = (firstn k (planned_trace R code data mode)
             ++ [EvWarn ("Script execution failed: " ++ message)])%list.
Proof.
  intros Hconv.
  assert (No : forall v e, js_String R v = Throw e -> False).
  { intros v e S. destruct (Hconv v) as (m & C). congruence. }
  destruct (execute_events R code data mode)
    as (k & log & E & K & U & L & Res & In4 & Out4).
  destruct Res as [(r & Hr)|(v & e & S)]; [|destruct (No _ _ S)].
  exists r. split; [exact Hr|].
  destruct (reaches_user_script R code data) eqn:Reach.
  - assert (K4 : (4 <= k)%nat) by now apply U.
    assert (log = []) as ->.
    { destruct log as [|ev log]; [reflexivity|].
      destruct (In4 K4 ltac:(discriminate)) as (v & e & S).
      destruct (No _ _ S). }
    rewrite E, List.app_nil_r. apply planned_trace_quiet.
  - assert (K4 : (k < 4)%nat).
    { destruct (Nat.lt_ge_cases k 4) as [H|H]; [exact H|].
      apply U in H. discriminate. }
    destruct L as [->|(m & -> & F)].
    + destruct (Out4 K4 eq_refl) as (v & e & S). destruct (No _ _ S).
    + exists m, k. split; [congruence|]. split; [lia|exact E].
Qed.

(** In the reference realm every value converts; a call that fails inside
    the user's script returns the failure and logs nothing. *)
Lemma early_failures_are_logged_witness :
  (forall v, exists message, js_String runtime v = Normal message) /\
  (reaches_user_script runtime "return $.a.b;" (VObject []) = true /\
   execute runtime "return $.a.b;" (VObject []) ValueMode
   = (Normal (failure runtime
                "TypeError: Cannot read properties of undefined (reading 'b')"),
      full_trace (Some "{}") ValueMode "return $.a.b;")) /\
  exists r,
    fst (execute runtime "return $.a.b;" (VObject []) ValueMode) = Normal r /\
    if reaches_user_script runtime "return $.a.b;" (VObject [])
    then existsb is_warn
           (snd (execute runtime "return $.a.b;" (VObject []) ValueMode))
         = false
    else
      exists message k,
        r = failure runtime message /\
        (k <= 3)%nat /\
        snd (execute runtime "return $.a.b;" (VObject []) ValueMode)
        = (firstn k (planned_trace runtime "return $.a.b;" (VObject [])
                       ValueMode)
             ++ [EvWarn ("Script execution failed: " ++ message)])%list.
Proof.
  assert (H : forall v, exists message, js_String runtime v = Normal message)
    by (intros v; eexists; reflexivity).
  split; [exact H|]. split; [split; vm_compute; reflexivity|].
  exact (early_failures_are_logged runtime "return $.a.b;" (VObject [])
           ValueMode H).
Defined.

(** The data cannot inject code.  Whatever characters the JSON text of the
    data holds, the source [var $ = JSON.parse(<the text, quoted>);] is read
    as one statement: the declaration of [$] as [JSON.parse] applied to the
    string literal whose value is that very text.  No character of the data
    ends the literal or starts a statement of its own. *)
Theorem injection_script_is_one_parse (text : string) :
  parse_program (initSource (Some text)) = Some (init_program text).
Proof. apply parse_initSource. Qed.

(** ** The PIN authentication service *)

Import PinAuthService PinAuthFacts.

(** [validatePin] accepts a PIN exactly when a PIN is configured and is not
    empty, and the two, each surrogate without its partner read as U+FFFD,
    are equal up to NUL characters at the end of one of them. *)
Theorem validatePin_accepts_up_to_padding (storedPin : option CodeUnits)
  (pin : CodeUnits) :
  Forall (fun c => (c < 65536)%N) pin ->
  (forall stored, storedPin = Some stored ->
                  Forall (fun c => (c < 65536)%N) stored) ->
  validatePin storedPin pin = true
  <-> exists stored,
        storedPin = Some stored /\ stored <> [] /\
        exists k,
          toWellFormed pin = (toWellFormed stored ++ repeat NUL k)%list \/
          toWellFormed stored = (toWellFormed pin ++ repeat NUL k)%list.
Proof.
  intros Fp Fs. unfold validatePin. destruct storedPin as [stored|].
  2:{ split; [discriminate|]. intros (s & H & _). discriminate. }
  specialize (Fs stored eq_refl).
  destruct stored as [|c stored].
  { split; [discriminate|]. intros (s & [= <-] & N & _). congruence. }
  cbv zeta.
  rewrite timingSafeEqual_bytes,
    (Buffer_from_eq _ _ (Forall_padded _ _ Fp) (Forall_padded _ _ Fs)).
  rewrite (padded_equal pin (c :: stored)). split.
  - intros H. exists (c :: stored). split; [reflexivity|]. split; [discriminate|exact H].
  - intros (s & [= <-] & _ & H). exact H.
Qed.

(** The PIN [12] against the configured [12]: accepted, also with a NUL
    behind it; a surrogate alone is accepted for U+FFFD. *)
Lemma validatePin_witness :
  Forall (fun c => (c < 65536)%N) [49; 50; 0]%N /\
  validatePin (Some [49; 50]%N) [49; 50; 0]%N = true /\
  validatePin (Some [49; 50]%N) [49; 51]%N = false /\
  validatePin (Some [65533]%N) [55296]%N = true.
Proof.
  assert (F : Forall (fun c => (c < 65536)%N) [49; 50; 0]%N)
    by (repeat constructor).
  split; [exact F|]. split; [|split; reflexivity].
  apply (proj2 (validatePin_accepts_up_to_padding (Some [49; 50]%N)
                  [49; 50; 0]%N F
                  ltac:(intros s [= <-]; repeat constructor))).
  exists [49; 50]%N. split; [reflexivity|]. split; [discriminate|].
  exists 1. now left.
Defined.

(** Which tokens are accepted.  After any history of calls on a new
    service during which the clock has not gone back, [validateSession]
    accepts a token exactly when [generateSessionToken] issued it, no later
    call issued it again or invalidated it, and the issue is not more than
    thirty days old: cleanups and earlier validations change nothing. *)
Theorem session_accepted_when_issued (history : list (Z * Call))
  (token : string) (now : Z) :
  clock_up_to now history ->
  fst (validateSession (sessions_after history) token now) = true
  <-> exists before issued later,
        history = (before ++ (issued, Generate token) :: later)%list /\
        forallb (fun timed => negb (settles token (snd timed))) later = true /\
        (now - 30 * 24 * 60 * 60 * 1000 <= issued)%Z.
Proof.
  intros Hup.
  assert (St : standing token (sessions_after history)
                 (fold_left (issue_step token) history None) now).
  { destruct history as [|[t call] history].
    - split; [discriminate|discriminate].
    - cbn in Hup. destruct Hup as (Ht & Hlater & Hup).
      apply (history_standing now token _ [] None t).
      + constructor.
      + split; discriminate.
      + constructor; [cbn; lia|exact Hlater].
      + cbn. now repeat split.
      + exact Ht. }
  destruct St as [A B]. unfold validateSession.
  change (30 * 24 * 60 * 60 * 1000)%Z with SESSION_MAX_AGE_MS. split.
  - destruct (Map_get (sessions_after history) token) as [c|] eqn:G;
      [|discriminate].
    destruct (c <? now - SESSION_MAX_AGE_MS)%Z eqn:V; [discriminate|].
    intros _. apply Z.ltb_ge in V.
    pose proof (A c eq_refl) as I. apply issue_spec in I.
    destruct I as [(before & later & H & F)|[H _]]; [|discriminate].
    now exists before, c, later.
  - intros (before & issued & later & H & F & Age).
    assert (I : fold_left (issue_step token) history None = Some issued).
    { apply issue_spec. left. now exists before, later. }
    destruct (B issued I) as [G|Old]; [|lia]. rewrite G.
    apply Z.ltb_ge in Age. now rewrite Age.
Qed.

(** A token issued, validated within the month, left alone by the cleanup
    and still good on the thirtieth day. *)
Lemma session_accepted_witness :
  let day := (24 * 60 * 60 * 1000)%Z in
  let history :=
    [ (0, Generate "a1"); (day, Generate "b2"); (2 * day, Validate "a1");
      (3 * day, Invalidate "b2"); (29 * day, Cleanup) ]%Z in
  clock_up_to (30 * day) history /\
  (fst (validateSession (sessions_after history) "a1" (30 * day)) = true
   <-> exists before issued later,
         history = (before ++ (issued, Generate "a1") :: later)%list /\
         forallb (fun timed => negb (settles "a1" (snd timed))) later = true /\
         (30 * day - 30 * 24 * 60 * 60 * 1000 <= issued)%Z) /\
  fst (validateSession (sessions_after history) "a1" (30 * day)) = true /\
  fst (validateSession (sessions_after history) "b2" (30 * day)) = false /\
  fst (validateSession (sessions_after history) "a1" (30 * day + 1)) = false.
Proof.
  intros day history.
  assert (H : clock_up_to (30 * day) history).
  { cbn. repeat split; try lia; repeat constructor; cbn; lia. }
  split; [exact H|]. split; [|repeat split; reflexivity].
  exact (session_accepted_when_issued history "a1" (30 * day)%Z H).
Defined.

(** [cleanupExpiredSessions] drops the sessions older than thirty days and
    no other: a token has a session after the cleanup exactly when it had
    it before, created not more than thirty days ago, and the session is
    as it was. *)
Theorem cleanup_drops_expired_sessions (sessions : Sessions) (now : Z)
  (token : string) (createdAt : Z) :
  NoDup (map fst sessions) ->
  Map_get (cleanupExpiredSessions sessions now) token = Some createdAt
  <-> Map_get sessions token = Some createdAt /\
      (now - 30 * 24 * 60 * 60 * 1000 <= createdAt)%Z.
Proof.
  intros D. rewrite (cleanup_get sessions now token D).
  change (30 * 24 * 60 * 60 * 1000)%Z with SESSION_MAX_AGE_MS.
  destruct (Map_get sessions token) as [c|]; [|now split; [|intros []]].
  destruct (c <? now - SESSION_MAX_AGE_MS)%Z eqn:V.
  - apply Z.ltb_lt in V. split; [discriminate|]. intros [[= ->] A]. lia.
  - apply Z.ltb_ge in V. split; [intros [= ->]; now split|now intros []].
Qed.

Lemma cleanup_drops_expired_witness :
  let day := (24 * 60 * 60 * 1000)%Z in
  let sessions := [("old", 0); ("edge", day); ("new", 2 * day)]%Z in
  NoDup (map fst sessions) /\
  cleanupExpiredSessions sessions (31 * day) =
  [("edge", day); ("new", 2 * day)%Z] /\
  (Map_get (cleanupExpiredSessions sessions (31 * day)) "edge" = Some day
   <-> Map_get sessions "edge" = Some day /\
       (31 * day - 30 * 24 * 60 * 60 * 1000 <= day)%Z).
Proof.
  intros day sessions.
  assert (D : NoDup (map fst sessions)).
  { repeat constructor; cbn; intuition discriminate. }
  split; [exact D|]. split; [reflexivity|].
  exact (cleanup_drops_expired_sessions sessions (31 * day)%Z "edge" day D).
Defined.

(** ** The exception filter's URL sanitiser *)

Import HttpExceptionFilter HttpExceptionFilterFacts.

(** What [sanitizeUrl] returns is the URL up to its first question mark:
    it holds no question mark, what it drops is nothing or starts with the
    question mark, a URL without one comes back as it is, and sanitising
    twice is sanitising once. *)
Theorem sanitizeUrl_drops_the_query (url : string) :
  indexOf (sanitizeUrl url) "?" = (-1)%Z /\
  (exists dropped,
     url = sanitizeUrl url ++ dropped /\
     (dropped = "" \/ exists query, dropped = String "?" query)) /\
  (indexOf url "?" = (-1)%Z -> sanitizeUrl url = url) /\
  sanitizeUrl (sanitizeUrl url) = sanitizeUrl url.
Proof.
  assert (A : indexOf (sanitizeUrl url) "?" = (-1)%Z /\
              exists dropped,
                url = sanitizeUrl url ++ dropped /\
                (dropped = "" \/ exists query, dropped = String "?" query)).
  { unfold sanitizeUrl. cbn zeta.
    destruct (indexOf url "?" >=? 0)%Z eqn:E.
    - apply Z.geb_le in E. destruct (indexOf_split url "?" E) as (rest & H & N).
      split; [exact N|]. exists (String "?" rest). split; [exact H|].
      right. now exists rest.
    - rewrite Z.geb_leb in E. apply Z.leb_gt in E. split.
      + destruct (indexOf_range url "?"); lia.
      + exists "". split; [|now left].
        clear. induction url; cbn; congruence. }
  destruct A as [N D]. split; [exact N|]. split; [exact D|]. split.
  - intros H. unfold sanitizeUrl. now rewrite H.
  - unfold sanitizeUrl at 1. now rewrite N.
Qed.

(** ** The screen services' dithering *)

Import DefaultScreenService DitheringFacts.

(** The dithered buffer is as long as the input, and each of its bytes
    inside the [width] by [height] image is 0 or 255, whatever the
    threshold.  Bytes of the buffer past the image are not dithered: a byte
    above 200 becomes 255, one below 55 becomes 0, another stays. *)
Theorem dithered_image_is_one_bit (data : list Z) (width height : nat)
  (threshold : Numbers.Num) :
  let result := applyFloydSteinbergDithering data width height threshold in
  List.length result = List.length data /\
  (forall i, (i < width * height)%nat -> (i < List.length data)%nat ->
             nth i result 0%Z = 0%Z \/ nth i result 0%Z = 255%Z) /\
  (forall i, (width * height <= i)%nat -> (i < List.length data)%nat ->
             let val := nth i data 0%Z in
             (0 <= val <= 255)%Z ->
             nth i result 0%Z =
             if (val >? 200)%Z then 255%Z
             else if (val <? 55)%Z then 0%Z else val).
Proof.
  cbn zeta. unfold applyFloydSteinbergDithering, dither.
  set (pixels := map (fun val => fround (contrast val)) data).
  destruct (dither_settles width height threshold height 0 pixels)
    as [S [L F]]; [lia|intros i Hi; lia|].
  cbn zeta in S, L, F. cbn [Nat.add] in S.
  assert (P : List.length pixels = List.length data)
    by (unfold pixels; apply length_map).
  split; [now rewrite length_map, L|]. split.
  - intros i I D. rewrite nth_map_clamped by lia.
    destruct (S i) as [E|E]; [lia|lia|rewrite E..];
      [left|right]; vm_compute; reflexivity.
  - intros i I D R. rewrite nth_map_clamped by lia.
    rewrite F by exact I. unfold pixels. rewrite get_map_contrast by exact D.
    now apply clamped_contrast.
Qed.

(** An image that is black and white already is not dithered: when every
    byte is below 55 or above 200 and the threshold lies from 0 to below
    255, the result is black where the byte is below 55 and white where it
    is above 200. *)
Theorem high_contrast_image_is_thresholded (data : list Z)
  (width height : nat) (threshold : Numbers.Num) :
  Numbers.gt (Numbers.num 255) threshold = true ->
  Numbers.gt (Numbers.num 0) threshold = false ->
  Forall (fun val => (val < 55 \/ 200 < val)%Z) data ->
  applyFloydSteinbergDithering data width height threshold =
  map (fun val => if (val >? 200)%Z then 255%Z else 0%Z) data.
Proof.
  intros T1 T0 D. unfold applyFloydSteinbergDithering.
  assert (C : forall val, In val data ->
                (fround (contrast val) = Numbers.num 0 \/
                 fround (contrast val) = Numbers.num 255) /\
                clamped_byte (fround (contrast val)) =
                if (val >? 200)%Z then 255%Z else 0%Z).
  { rewrite Forall_forall in D. intros val I. unfold contrast.
    destruct (val >? 200)%Z eqn:G.
    - split; [right|]; vm_compute; reflexivity.
    - destruct (val <? 55)%Z eqn:L.
      + split; [left|]; vm_compute; reflexivity.
      + apply Z.ltb_ge in L. rewrite Z.gtb_ltb in G. apply Z.ltb_ge in G.
        destruct (D val I); lia. }
  rewrite dither_nothing; [|exact T1|exact T0|].
  - rewrite map_map. apply map_ext_in. intros val I. now apply C.
  - apply Forall_forall. intros v I. apply in_map_iff in I as (val & <- & I).
    now apply C.
Qed.

Lemma high_contrast_image_witness :
  let data := [0; 255; 230; 12; 54; 201; 3]%Z in
  Numbers.gt (Numbers.num 255) (Numbers.num 140) = true /\
  Numbers.gt (Numbers.num 0) (Numbers.num 140) = false /\
  Forall (fun val => (val < 55 \/ 200 < val)%Z) data /\
  applyFloydSteinbergDithering data 3 2 (Numbers.num 140) =
  [0; 255; 255; 0; 0; 255; 0]%Z.
Proof.
  cbn zeta.
  assert (D : Forall (fun val => (val < 55 \/ 200 < val)%Z)
                [0; 255; 230; 12; 54; 201; 3]%Z)
    by (repeat constructor; lia).
  split; [reflexivity|]. split; [reflexivity|]. split; [exact D|].
  exact (high_contrast_image_is_thresholded _ 3 2 (Numbers.num 140)
           eq_refl eq_refl D).
Defined.

(** ** The URL safety utility *)

Import UrlSafety UrlSafetyFacts.

(** For a [Number] that reads octets, a dotted quad in decimal is private
    exactly when it lies in 127/8, 10/8, 172.16/12, 192.168/16,
    169.254/16 or 0/8, and so is its IPv4-mapped form, in either case of
    [::ffff:]. *)
Theorem dotted_quad_private_in_reserved_ranges (Number : string -> Numbers.Num)
  (a b c d : N) :
  reads_octets Number ->
  (a < 256)%N -> (b < 256)%N -> (c < 256)%N -> (d < 256)%N ->
  isPrivateIp Number (dotted a b c d) = reserved_ipv4 a b /\
  isPrivateIp Number ("::ffff:" ++ dotted a b c d) = reserved_ipv4 a b /\
  isPrivateIp Number ("::FFFF:" ++ dotted a b c d) = reserved_ipv4 a b.
Proof.
  intros R A B C D.
  pose proof (isPrivateIp_unmapped_dotted Number R a b c d A B C D) as U.
  repeat split; rewrite isPrivateIp_calls.
  - now rewrite (ipv4Mapped_plain a b c d A).
  - now rewrite (ipv4Mapped_dotted a b c d "::ffff:" A B C D eq_refl).
  - now rewrite (ipv4Mapped_dotted a b c d "::FFFF:" A B C D eq_refl).
Qed.

Lemma dotted_quad_private_witness :
  reads_octets digits_Number /\
  isPrivateIp digits_Number "172.20.0.1" = true /\
  isPrivateIp digits_Number "::ffff:172.20.0.1" = true /\
  isPrivateIp digits_Number "::FFFF:172.20.0.1" = true.
Proof.
  split; [exact digits_Number_octets|].
  exact (dotted_quad_private_in_reserved_ranges digits_Number 172 20 0 1
           digits_Number_octets eq_refl eq_refl eq_refl eq_refl).
Defined.

(** Whatever [Number] does, an address that has not exactly three dots is
    private exactly when, in lower case, it is [::1] or [0:0:0:0:0:0:0:1]
    or starts with [fc], [fd], [fe8], [fe9], [fea] or [feb]. *)
Theorem undotted_address_private_by_spelling (Number : string -> Numbers.Num)
  (ip : string) :
  (count "." ip =? 3)%nat = false ->
  isPrivateIp Number ip = true <-> reserved_ipv6 (toLowerCase ip).
Proof.
  intros T. apply Nat.eqb_neq in T. rewrite isPrivateIp_calls.
  destruct (ipv4Mapped ip) as [group|] eqn:M.
  { now destruct (ipv4Mapped_inv ip group M) as (_ & K & _). }
  unfold isPrivateIp_unmapped. cbn zeta. rewrite length_map, length_split.
  replace (S (count "." ip) =? 4)%nat with false
    by (symmetry; apply Nat.eqb_neq; lia).
  cbn [andb]. unfold reserved_ipv6.
  set (normalized := toLowerCase ip). split.
  - destruct (normalized =? "::1")%string eqn:E1;
      [apply String.eqb_eq in E1; now left|].
    destruct (normalized =? "0:0:0:0:0:0:0:1")%string eqn:E2;
      [apply String.eqb_eq in E2; now right; left|].
    cbn [orb]. right. right.
    destruct (starts_with_class normalized "f" _) eqn:S1.
    + apply starts_with_class_spec in S1 as (c & rest & I & ->).
      cbn [In] in I. destruct I as [<-|[<-|[]]];
        [exists "fc", rest|exists "fd", rest]; cbn [In]; auto 8.
    + destruct (starts_with_class normalized "fe" _) eqn:S2; [|discriminate].
      apply starts_with_class_spec in S2 as (c & rest & I & ->).
      cbn [In] in I. destruct I as [<-|[<-|[<-|[<-|[]]]]];
        [exists "fe8", rest|exists "fe9", rest|exists "fea", rest
        |exists "feb", rest]; cbn [In]; auto 8.
  - intros [->|[->|(prefix & rest & I & ->)]]; [reflexivity..|].
    cbn [In] in I.
    destruct I as [<-|[<-|[<-|[<-|[<-|[<-|[]]]]]]];
      destruct rest as [|x rest]; try reflexivity;
      cbn [append String.eqb Ascii.eqb Bool.eqb andb orb];
      destruct rest; try reflexivity;
      cbn -[String.eqb]; rewrite ?orb_false_r;
      repeat match goal with
        | |- context [(?s =? ?t)%string] =>
            destruct (s =? t)%string; try reflexivity
        end.
Qed.

Lemma undotted_address_witness :
  (count "." "FE80::1ff:fe23:4567:890a" =? 3)%nat = false /\
  isPrivateIp digits_Number "FE80::1ff:fe23:4567:890a" = true /\
  isPrivateIp digits_Number "::ffff:7f00:1" = false.
Proof.
  split; [reflexivity|]. split; [|reflexivity].
  apply (undotted_address_private_by_spelling digits_Number
           "FE80::1ff:fe23:4567:890a" eq_refl).
  right. right. exists "fe8", "0::1ff:fe23:4567:890a".
  split; [cbn [In]; auto 8|reflexivity].
Defined.

